(** * Tappable: press feedback, the shared storage and its timers

    A shallow embedding of [src/components/Tappable/Tappable.tsx].

    The component keeps three kinds of mutable data: the React state of
    each instance ([this.state]), instance fields ([isSlide], [timeout],
    [wavesTimeout]) and the module-level object [storage], shared by all
    instances.  Handlers run to completion on the event loop; the only
    asynchrony is [window.setTimeout].  The embedding therefore is a
    state-passing one: a [World] holds the clock, the table of pending
    timers, [storage] and every instance, and each handler is a function
    [World -> World].

    Closures handed to [setTimeout] or stored in [storage] are
    defunctionalised: [CbStart id] is [this.start] of the instance [id],
    [CbStop id] is [this.stop], [CbWave id key] the arrow function of
    [onDown] that removes the ripple [key].

    Conventions of the embedding:
    - an instance is identified by its [id] (the constructor draws it at
      random; two instances with one id are not modelled);
    - [setState] takes effect before the handler returns; no handler reads
      [this.state] of an instance after it has set it, so batching inside
      one handler is not observable;
    - [setState] on an unmounted instance changes nothing;
    - the clock does not advance while a handler runs. *)

From stdpp Require Import base option list gmap strings fin_maps.
From Stdlib Require Import ZArith Lia.

Local Open Scope Z_scope.

(** ** Data model *)

Abbreviation InstanceId := string (only parsing).
Abbreviation Handle := nat (only parsing).

Inductive Platform := ANDROID | IOS | VKCOM.

Inductive Callback :=
| CbStart (id : InstanceId)
| CbStop (id : InstanceId)
| CbWave (id : InstanceId) (key : Z).

(** A pending [setTimeout]: the moment it becomes due and what it runs. *)
Record Timer := mkTimer { due : Z; cb : Callback }.

(** [interface StorageItem]; [stop] is always [this.stop] of some
    instance, kept here as that instance's id. *)
Record StorageItem := mkItem {
  activeTimeout : Handle;
  timeout : option Handle;
  stop_cb : InstanceId
}.

Record TappableProps := mkProps {
  platform : Platform;
  activeEffectDelay : Z;
  props_hasHover : bool;
  props_hasActive : bool
}.

(** [interface TappableState]; a ripple key ['wave' + Date.now()] is
    represented by its timestamp. *)
Record TappableState := mkState {
  clicks : gmap Z (Z * Z);
  hovered : bool;
  active : bool;
  st_ts : option Z;
  hasHover : bool;
  hasActive : bool
}.

Record Instance := mkInst {
  props : TappableProps;
  state : TappableState;
  isSlide : bool;
  this_timeout : option Handle;
  wavesTimeout : option Handle;
  mounted : bool
}.

Record World := mkWorld {
  now : Z;
  next_handle : Handle;
  timers : gmap nat Timer;
  storage : gmap string StorageItem;
  instances : gmap string Instance
}.

Definition ACTIVE_DELAY : Z := 70.
Definition ACTIVE_EFFECT_DELAY : Z := 600.

Definition defaultProps : TappableProps :=
  mkProps IOS ACTIVE_EFFECT_DELAY true true.

(** ** Field updates *)

Definition with_timers (f : gmap nat Timer → gmap nat Timer) (w : World) : World :=
  mkWorld (now w) (next_handle w) (f (timers w)) (storage w) (instances w).

Definition with_storage (f : gmap string StorageItem → gmap string StorageItem)
    (w : World) : World :=
  mkWorld (now w) (next_handle w) (timers w) (f (storage w)) (instances w).

Definition with_instances (f : gmap string Instance → gmap string Instance)
    (w : World) : World :=
  mkWorld (now w) (next_handle w) (timers w) (storage w) (f (instances w)).

Definition with_state (f : TappableState → TappableState) (i : Instance) : Instance :=
  mkInst (props i) (f (state i)) (isSlide i) (this_timeout i) (wavesTimeout i) (mounted i).

Definition set_active (a : bool) (t : option Z) (s : TappableState) : TappableState :=
  mkState (clicks s) (hovered s) a t (hasHover s) (hasActive s).

Definition set_clicks (f : gmap Z (Z * Z) → gmap Z (Z * Z)) (s : TappableState)
    : TappableState :=
  mkState (f (clicks s)) (hovered s) (active s) (st_ts s) (hasHover s) (hasActive s).

Definition set_hovered (b : bool) (s : TappableState) : TappableState :=
  mkState (clicks s) b (active s) (st_ts s) (hasHover s) (hasActive s).

Definition set_capabilities (hh ha : bool) (s : TappableState) : TappableState :=
  mkState (clicks s) (hovered s) (active s) (st_ts s) hh ha.

Definition set_isSlide (b : bool) (i : Instance) : Instance :=
  mkInst (props i) (state i) b (this_timeout i) (wavesTimeout i) (mounted i).

Definition set_this_timeout (h : option Handle) (i : Instance) : Instance :=
  mkInst (props i) (state i) (isSlide i) h (wavesTimeout i) (mounted i).

Definition set_wavesTimeout (h : option Handle) (i : Instance) : Instance :=
  mkInst (props i) (state i) (isSlide i) (this_timeout i) h (mounted i).

Definition set_mounted (b : bool) (i : Instance) : Instance :=
  mkInst (props i) (state i) (isSlide i) (this_timeout i) (wavesTimeout i) b.

Definition set_timeout (h : option Handle) (it : StorageItem) : StorageItem :=
  mkItem (activeTimeout it) h (stop_cb it).

(** ** The platform: timers and [setState] *)

(** The browser reads the delay of a timer as a signed 32-bit integer,
    wrapping around, and counts a negative one as 0. *)
Definition toInt32 (z : Z) : Z := (z + 2 ^ 31) mod 2 ^ 32 - 2 ^ 31.

Definition timeout_ms (delay : Z) : Z := Z.max 0 (toInt32 delay).

Arguments timeout_ms : simpl never.

(** [window.setTimeout(cb, delay)]: a fresh handle, due [timeout_ms delay]
    after now.  A timer runs at the first [TimerFires] at or after its due
    time. *)
Definition setTimeout (c : Callback) (delay : Z) (w : World) : Handle * World :=
  (next_handle w,
   mkWorld (now w) (S (next_handle w))
           (<[next_handle w := mkTimer (now w + timeout_ms delay) c]> (timers w))
           (storage w) (instances w)).

(** [clearTimeout(h)]; [clearTimeout(undefined)] does nothing. *)
Definition clearTimeout (h : option Handle) (w : World) : World :=
  match h with
  | Some h => with_timers (delete h) w
  | None => w
  end.

(** [this.setState(...)] of the instance [id]. *)
Definition setState (id : InstanceId) (f : TappableState → TappableState)
    (w : World) : World :=
  with_instances (alter (λ i, if mounted i then with_state f i else i) id) w.

(** Assignment to a plain field of the instance [id]. *)
Definition setField (id : InstanceId) (f : Instance → Instance) (w : World) : World :=
  with_instances (alter f id) w.

(** ** Reading [this.state], [this.props] and fields *)

Definition read {A} (g : Instance → A) (d : A) (id : InstanceId) (w : World) : A :=
  from_option g d (instances w !! id).

Definition st_active : InstanceId → World → bool := read (λ i, active (state i)) false.
Definition st_hasActive : InstanceId → World → bool :=
  read (λ i, hasActive (state i)) false.
Definition st_isSlide : InstanceId → World → bool := read isSlide false.
Definition is_mounted : InstanceId → World → bool := read mounted false.
Definition st_platform : InstanceId → World → Platform := read (λ i, platform (props i)) IOS.
Definition st_delay : InstanceId → World → Z :=
  read (λ i, activeEffectDelay (props i)) ACTIVE_EFFECT_DELAY.

(** [this.state.ts] as a number: [null] coerces to 0 in [now - this.state.ts]. *)
Definition st_tsnum : InstanceId → World → Z :=
  read (λ i, default 0 (st_ts (state i))) 0.

(** What an observer sees: a mounted instance rendered with [active]. *)
Definition isActive (id : InstanceId) (w : World) : bool :=
  is_mounted id w && st_active id w.

(** ** The component *)

(** [getStorage = () => storage[this.id]] *)
Definition getStorage (id : InstanceId) (w : World) : option StorageItem :=
  storage w !! id.

(** [stop]: leave the active state, drop the own entry of [storage]. *)
Definition stop (id : InstanceId) (w : World) : World :=
  let w1 := if st_active id w then setState id (set_active false None) w else w in
  match getStorage id w1 with
  | Some item =>
      with_storage (delete id) (clearTimeout (Some (activeTimeout item)) w1)
  | None => w1
  end.

(** One round of the [forEach] of [deactivateOtherInstances].  The entry is
    read when the round runs; [stop] of another round only deletes its own
    key, so in the loop the entry is always there. *)
Definition purge_one (w : World) (id : InstanceId) : World :=
  match storage w !! id with
  | Some item =>
      let w1 := clearTimeout (Some (activeTimeout item)) w in
      let w2 := clearTimeout (timeout item) w1 in
      let w3 := stop (stop_cb item) w2 in
      with_storage (delete id) w3
  | None => w
  end.

(** [Object.keys(storage)], in the order of the map; the loop below ends
    in the same world for every order. *)
Definition keys (w : World) : list InstanceId := (map_to_list (storage w)).*1.

(** [deactivateOtherInstances(exclude?)] *)
Definition deactivateOtherInstances (exclude : option InstanceId) (w : World) : World :=
  foldl purge_one w (filter (λ id, Some id ≠ exclude) (keys w)).

(** [start]: enter the active state, then switch every other entry off. *)
Definition start (id : InstanceId) (w : World) : World :=
  let w1 :=
    if negb (st_active id w) && st_hasActive id w
    then setState id (set_active true (Some (now w))) w
    else w in
  deactivateOtherInstances (Some id) w1.

(** [onDown]: the Android ripple at [(x, y)], gone after 225 ms. *)
Definition onDown (id : InstanceId) (x y : Z) (w : World) : World :=
  match st_platform id w with
  | ANDROID =>
      let key := now w in
      let w1 := setState id (set_clicks (<[key := (x, y)]>)) w in
      let '(h, w2) := setTimeout (CbWave id key) 225 w1 in
      setField id (set_wavesTimeout (Some h)) w2
  | _ => w
  end.

(** [touches && touches.length > n] *)
Definition more_touches_than (n : nat) (touches : option nat) : bool :=
  match touches with
  | Some k => bool_decide (n < k)%nat
  | None => false
  end.

(** [onStart] *)
Definition onStart (id : InstanceId) (touches : option nat) (x y : Z) (w : World)
    : World :=
  if st_hasActive id w then
    if more_touches_than 1 touches then deactivateOtherInstances None w
    else
      let w1 := match st_platform id w with
                | ANDROID => onDown id x y w
                | _ => w
                end in
      let '(h, w2) := setTimeout (CbStart id) ACTIVE_DELAY w1 in
      with_storage (<[id := mkItem h None id]>) w2
  else w.

(** [onMove] *)
Definition onMove (id : InstanceId) (shiftXAbs shiftYAbs : Z) (w : World) : World :=
  if bool_decide (20 < shiftXAbs) || bool_decide (20 < shiftYAbs)
  then stop id (setField id (set_isSlide true) w)
  else w.

(** [onEnd] *)
Definition onEnd (id : InstanceId) (touches : option nat) (w : World) : World :=
  let now_ := now w in
  if more_touches_than 0 touches then
    stop id (setField id (set_isSlide false) w)
  else
    let w' :=
      if st_active id w then
        if bool_decide (100 ≤ now_ - st_tsnum id w) then stop id w
        else
          let '(h, w1) :=
            setTimeout (CbStop id) (st_delay id w - now_ + st_tsnum id w) w in
          match getStorage id w1 with
          | Some store => with_storage (<[id := set_timeout (Some h) store]>) w1
          | None => w1
          end
      else if negb (st_isSlide id w) then
        let w1 := start id w in
        let '(h, w2) := setTimeout (CbStop id) (st_delay id w1) w1 in
        match getStorage id w2 with
        | Some store =>
            with_storage (<[id := set_timeout (Some h) store]>)
                         (clearTimeout (Some (activeTimeout store)) w2)
        | None => setField id (set_this_timeout (Some h)) w2
        end
      else w in
    setField id (set_isSlide false) w'.

(** [componentWillUnmount]; afterwards React no longer delivers events to
    the instance and ignores its [setState]. *)
Definition componentWillUnmount (id : InstanceId) (w : World) : World :=
  let w1 :=
    match storage w !! id with
    | Some item =>
        with_storage (delete id)
          (clearTimeout (Some (activeTimeout item)) (clearTimeout (timeout item) w))
    | None => w
    end in
  let w2 := clearTimeout (read wavesTimeout None id w1) w1 in
  setField id (set_mounted false) w2.

(** The constructor. *)
Definition construct (p : TappableProps) : Instance :=
  mkInst p (mkState ∅ false false None (props_hasHover p) (props_hasActive p))
         false None None true.

(** ** The event loop *)

Definition run_cb (c : Callback) (w : World) : World :=
  match c with
  | CbStart id => start id w
  | CbStop id => stop id w
  | CbWave id key => setState id (set_clicks (delete key)) w
  end.

(** A timer runs once, when it is pending and due. *)
Definition fire (h : Handle) (w : World) : World :=
  match timers w !! h with
  | Some t =>
      if bool_decide (due t ≤ now w) then run_cb (cb t) (with_timers (delete h) w)
      else w
  | None => w
  end.

(** What can happen between two observations.  [touches] is
    [originalEvent.touches.length], absent for mouse events; [(x, y)] is the
    point of the press relative to the element.  [SetCapabilities] stands
    for the two places that write [hasHover] and [hasActive] of the state:
    [componentDidUpdate] and the callbacks a nested Tappable calls through
    [TappableContext]. *)
Inductive Event :=
| Mount (id : InstanceId) (p : TappableProps)
| Unmount (id : InstanceId)
| GestureStart (id : InstanceId) (touches : option nat) (x y : Z)
| GestureMove (id : InstanceId) (shiftXAbs shiftYAbs : Z)
| GestureEnd (id : InstanceId) (touches : option nat)
| TimerFires (h : Handle)
| Elapse (ms : Z)
| SetCapabilities (id : InstanceId) (hover act : bool)
| HoverEnter (id : InstanceId)
| HoverLeave (id : InstanceId).

(** Gesture handlers are wired by [render] and run for mounted instances
    only. *)
Definition when_mounted (id : InstanceId) (f : World → World) (w : World) : World :=
  if is_mounted id w then f w else w.

Definition step (w : World) (e : Event) : World :=
  match e with
  | Mount id p =>
      match instances w !! id with
      | None => with_instances (<[id := construct p]>) w
      | Some _ => w
      end
  | Unmount id => when_mounted id (componentWillUnmount id) w
  | GestureStart id touches x y => when_mounted id (onStart id touches x y) w
  | GestureMove id sx sy => when_mounted id (onMove id sx sy) w
  | GestureEnd id touches => when_mounted id (onEnd id touches) w
  | TimerFires h => fire h w
  | Elapse ms =>
      mkWorld (now w + Z.max 0 ms) (next_handle w) (timers w) (storage w) (instances w)
  | SetCapabilities id hh ha => setState id (set_capabilities hh ha) w
  | HoverEnter id => when_mounted id (setState id (set_hovered true)) w
  | HoverLeave id => when_mounted id (setState id (set_hovered false)) w
  end.

Definition run (tr : list Event) (w : World) : World := foldl step w tr.

Definition init : World := mkWorld 0 0 ∅ ∅ ∅.

(** ** Observations used in the statements *)

(** The instance a callback belongs to. *)
Definition cb_owner (c : Callback) : InstanceId :=
  match c with
  | CbStart id | CbStop id | CbWave id _ => id
  end.

(** The timers still scheduled on behalf of the instance [id]. *)
Definition timers_of (id : InstanceId) (w : World) : list (nat * Timer) :=
  filter (λ ht, cb_owner (cb ht.2) = id) (map_to_list (timers w)).

(** Some timer that will run [this.start] of [id] is pending. *)
Definition pending_activation (id : InstanceId) (w : World) : Prop :=
  ∃ h t, timers w !! h = Some t ∧ cb t = CbStart id.

(** The instances shown active. *)
Definition active_ids (w : World) : list InstanceId :=
  filter (λ id, isActive id w = true) (map_to_list (instances w)).*1.

(** ** Scenarios *)

Definition mount_ab : list Event := [Mount "a" defaultProps; Mount "b" defaultProps].

(** A tap on [id], released [held] ms after the press. *)
Definition tap (id : InstanceId) (held : Z) : list Event :=
  [GestureStart id None 0 0; Elapse held; GestureEnd id None].

(** Two taps on "a" 600 ms apart; the release timer of the first tap runs
    between press and release of the second; then a tap on "b". *)
Definition two_taps_then_other : list Event :=
  mount_ab ++ tap "a" 10 ++
  [Elapse 590; GestureStart "a" None 0 0; Elapse 10; TimerFires 1;
   Elapse 10; GestureEnd "a" None; Elapse 80] ++ tap "b" 10.

(** A press with a second finger elsewhere on the screen ([touches.length]
    is 2 at the press), released after the other finger has gone. *)
Definition two_finger_press : list Event :=
  [Mount "a" defaultProps; GestureStart "a" (Some 2%nat) 0 0; Elapse 10;
   GestureEnd "a" (Some 0%nat)].

(** A tap on "a", a second press 90 ms after the first release. *)
Definition tap_and_press_again : list Event :=
  [Mount "a" defaultProps] ++ tap "a" 10 ++ [Elapse 90; GestureStart "a" None 0 0].

(** Two presses 100 ms apart on Android, unmounted before either ripple
    has expired. *)
Definition two_ripples : list Event :=
  [Mount "a" (mkProps ANDROID ACTIVE_EFFECT_DELAY true true)] ++
  tap "a" 10 ++ [Elapse 90] ++ tap "a" 10 ++ [Elapse 10].

(** Three quick taps, the third turning into a drag. *)
Definition third_press_dragged : list Event :=
  [Mount "a" defaultProps] ++ tap "a" 10 ++ [Elapse 10] ++ tap "a" 10 ++
  [Elapse 10; GestureStart "a" None 0 0; Elapse 10].

(** Two presses on "a" with no release in between. *)
Definition press_twice : list Event :=
  [Mount "a" defaultProps; GestureStart "a" None 0 0; Elapse 10;
   GestureStart "a" None 0 0].

(** A press of "a"; before the activation timer runs, [hasActive] of "a"
    is switched off (the pointer has entered a Tappable inside it). *)
Definition disarmed_press : list Event :=
  [Mount "a" defaultProps; GestureStart "a" None 0 0;
   SetCapabilities "a" true false; Elapse 70; TimerFires 0%nat].

(** An instance with [activeEffectDelay] 50: pressed, active 70 ms later,
    and 80 ms after that the release is due. *)
Definition brief_effect : list Event :=
  [Mount "a" (mkProps IOS 50 true true); GestureStart "a" None 0 0; Elapse 70;
   TimerFires 0%nat; Elapse 80].

(** ** Statements as the specification words them *)

(** "An entry exists in the registry if and only if its instance currently
    has a pending activation or is active." *)
Definition entry_iff_pending_or_active (w : World) : Prop :=
  ∀ id, is_Some (storage w !! id) ↔ pending_activation id w ∨ isActive id w = true.

(** "A tap ... released before [the activation timer] fires still activates
    immediately on release and deactivates after exactly the configured
    effect duration", for every release with the activation timer of the
    entry pending, no finger left and no drag. *)
Definition early_release_activates (w : World) (id : InstanceId) : Prop :=
  ∀ it t,
    is_mounted id w = true →
    storage w !! id = Some it →
    timers w !! activeTimeout it = Some t →
    cb t = CbStart id →
    st_isSlide id w = false →
    let w' := onEnd id None w in
    isActive id w' = true ∧
    timers w' !! activeTimeout it = None ∧
    timers w' !! next_handle w = Some (mkTimer (now w + st_delay id w) (CbStop id)).

(** "Already active and elapsed time >= 100ms: deactivate immediately.
    Already active and elapsed time < 100ms: schedule deactivation at
    [configuredEffectDuration - elapsedSinceActivation]", for a release
    with no finger left. *)
Definition release_of_active_on_schedule (w : World) (id : InstanceId) : Prop :=
  st_active id w = true →
  let elapsed := now w - st_tsnum id w in
  let w' := onEnd id None w in
  (100 ≤ elapsed → isActive id w' = false) ∧
  (elapsed < 100 →
     ∃ t, timers w' !! next_handle w = Some t ∧ cb t = CbStop id ∧
          due t = now w + (st_delay id w - elapsed)).

(** "... prevents any instance from activating from that gesture" (the
    last part of the sentence on multi-touch; the purge itself is not in
    question): once the press has reported [n] contact points, the release
    of the same gesture leaves no instance active that was not active
    before it. *)
Definition no_activation_from_gesture (w : World) (id : InstanceId) (n : nat) : Prop :=
  ∀ remaining id',
    isActive id' (onEnd id remaining (onStart id (Some n) 0 0 w)) = true →
    isActive id' w = true.

(** ** Well-formed worlds *)

(** What every reachable world satisfies: handles come from the counter,
    an entry of [storage] belongs to the mounted instance it is keyed by,
    and a recorded handle, while pending, runs the callback it was
    created with. *)
Record wf (w : World) : Prop := mkWf {
  wf_timers_lt : ∀ h t, timers w !! h = Some t → (h < next_handle w)%nat;
  wf_owner : ∀ id it, storage w !! id = Some it → stop_cb it = id;
  wf_mounted : ∀ id it, storage w !! id = Some it → is_mounted id w = true;
  wf_active_lt : ∀ id it, storage w !! id = Some it →
    (activeTimeout it < next_handle w)%nat;
  wf_release_lt : ∀ id it h, storage w !! id = Some it → timeout it = Some h →
    (h < next_handle w)%nat;
  wf_waves_lt : ∀ id i h, instances w !! id = Some i → wavesTimeout i = Some h →
    (h < next_handle w)%nat;
  wf_active_cb : ∀ id it t, storage w !! id = Some it →
    timers w !! activeTimeout it = Some t → cb t = CbStart id;
  wf_release_cb : ∀ id it h t, storage w !! id = Some it → timeout it = Some h →
    timers w !! h = Some t → cb t = CbStop id;
  wf_waves_cb : ∀ id i h t, instances w !! id = Some i → wavesTimeout i = Some h →
    timers w !! h = Some t → ∃ k, cb t = CbWave id k
}.

(** An entry is alive: its owner is active, or can activate and is about
    to. *)
Definition live (w : World) : Prop :=
  ∀ id it, storage w !! id = Some it →
    st_active id w = true ∨
    (st_hasActive id w = true ∧ is_Some (timers w !! activeTimeout it)).

(** Traces, from the world [w] on, that switch [hasActive] of an instance
    off only while the instance has no entry or is active: never between a
    press and its activation. *)
Fixpoint no_press_disarmed (tr : list Event) (w : World) : bool :=
  match tr with
  | [] => true
  | e :: tr' =>
      match e with
      | SetCapabilities id _ false =>
          match storage w !! id with
          | Some _ => st_active id w
          | None => true
          end
      | _ => true
      end && no_press_disarmed tr' (step w e)
  end.

(** ** Keyboard activation *)

Module Keyboard.

Inductive Key := Enter | Space | Other (name : string).

Inductive ElementType := Tag (name : string) | CustomComponent.

Record KeyProps := mkKeyProps {
  Component : ElementType;
  role : option string;
  disabled : bool;
  contentEditable : bool;
  has_onKeyDown : bool
}.

(** What a key press on the rendered element leads to, in order. *)
Inductive Effect := PreventDefault | Click | CallerOnKeyDown.

Record KeyboardEvent := mkKeyEvent { key : Key; target_role : option string }.

(** Modelled from the spec: [shouldTriggerClickOnEnterOrSpace] lives in
    [lib/accessibility], which is not among the sources.  The
    specification has it accept "Enter (both roles) and Space (button role
    only)", the roles being "button" and "link". *)
Definition shouldTriggerClickOnEnterOrSpace (e : KeyboardEvent) : bool :=
  match key e with
  | Enter => bool_decide (target_role e = Some "button")
             || bool_decide (target_role e = Some "link")
  | Space => bool_decide (target_role e = Some "button")
  | Other _ => false
  end.

(** [this.props.onKeyDown(e)] when the caller supplied a function. *)
Definition caller_handler (p : KeyProps) : list Effect :=
  if has_onKeyDown p then [CallerOnKeyDown] else [].

(** [onKeyDown] *)
Definition onKeyDown (p : KeyProps) (e : KeyboardEvent) : list Effect :=
  (if shouldTriggerClickOnEnterOrSpace e then [PreventDefault; Click] else [])
  ++ caller_handler p.

Definition nativeComponents : list ElementType :=
  [Tag "a"; Tag "button"; Tag "input"; Tag "textarea"; Tag "label"].

#[global] Instance ElementType_eq_dec : EqDecision ElementType.
Proof. solve_decision. Defined.

(** [nativeComponents.includes(Component)] *)
Definition is_native (c : ElementType) : bool := bool_decide (c ∈ nativeComponents).

(** The part of [render] that decides whether [props.onKeyDown] is
    replaced by [this.onKeyDown]. *)
Definition intercepts (p : KeyProps) : bool :=
  negb (disabled p) && negb (is_native (Component p)) && negb (contentEditable p)
  && (bool_decide (role p = Some "button") || bool_decide (role p = Some "link")).

(** A key press on the rendered element: [this.onKeyDown] where [render]
    installed it, else the caller's handler spread from [restProps]. *)
Definition keydown (p : KeyProps) (k : Key) : list Effect :=
  if intercepts p then onKeyDown p (mkKeyEvent k (role p)) else caller_handler p.

(** The keyboard sentence of the specification for one set of props. *)
Definition keyboard_activation (p : KeyProps) : Prop :=
  is_native (Component p) = false →
  (role p = Some "link" → Click ∈ keydown p Enter ∧ Click ∉ keydown p Space) ∧
  (role p = Some "button" → Click ∈ keydown p Enter ∧ Click ∈ keydown p Space).

End Keyboard.

(** ** Worlds that only lost something *)

(** [off i] is [i] after [setState({ active: false, ts: null })]. *)
Definition off (i : Instance) : Instance := with_state (set_active false None) i.

(** [shrinks w w']: from [w] to [w'] timers were cancelled, entries
    deleted and instances switched off, nothing else.  [stop] and
    [deactivateOtherInstances] act this way. *)
Record shrinks (w w' : World) : Prop := mkShrinks {
  sh_now : now w' = now w;
  sh_next : next_handle w' = next_handle w;
  sh_timers : timers w' ⊆ timers w;
  sh_storage : storage w' ⊆ storage w;
  sh_instances : ∀ id,
    instances w' !! id = instances w !! id ∨
    instances w' !! id = off <$> instances w !! id
}.

(** [purge_one] reads [storage[id]] without a guard; the read is defined
    when the entry is there.  [purge_defined w l] says that it is, in
    every round of the loop over [l]. *)
Fixpoint purge_defined (w : World) (l : list InstanceId) : bool :=
  match l with
  | [] => true
  | id :: l' =>
      bool_decide (is_Some (storage w !! id)) && purge_defined (purge_one w id) l'
  end.


(** ** Mutual exclusion, and what it rests on *)

Definition at_most_one_active (w : World) : Prop :=
  ∀ id1 id2, isActive id1 w = true → isActive id2 w = true → id1 = id2.

(** Every active instance can be found through [storage]. *)
Definition active_registered (w : World) : Prop :=
  ∀ id, isActive id w = true → is_Some (storage w !! id).

(** A transition that activates nothing. *)
Definition quiet (w w' : World) : Prop :=
  ∀ id, isActive id w' = true → isActive id w = true.

(** A transition in which [start] of [id] ran: whatever else is active
    afterwards was active before and had no entry. *)
Definition started (id : InstanceId) (w w' : World) : Prop :=
  ∀ id', id' ≠ id → isActive id' w' = true →
    isActive id' w = true ∧ storage w !! id' = None.


(** ** Regular traces *)

(** No pending timer is overdue. *)
Definition no_overdue (w : World) : bool :=
  forallb (λ ht, bool_decide (now w ≤ due ht.2)) (map_to_list (timers w)).

(** Along the trace every timer runs (or is cancelled) by the time it is
    due: the clock never moves past a pending timer. *)
Fixpoint on_time (tr : list Event) (w : World) : bool :=
  match tr with
  | [] => true
  | e :: tr' => no_overdue (step w e) && on_time tr' (step w e)
  end.

(** On each instance presses and releases alternate, and moves come
    between a press and its release; [pressed] lists the instances held
    down. *)
Fixpoint gestures_alternate (pressed : list InstanceId) (tr : list Event) : bool :=
  match tr with
  | [] => true
  | GestureStart id _ _ _ :: tr' =>
      bool_decide (id ∉ pressed) && gestures_alternate (id :: pressed) tr'
  | GestureMove id _ _ :: tr' =>
      bool_decide (id ∈ pressed) && gestures_alternate pressed tr'
  | GestureEnd id _ :: tr' =>
      bool_decide (id ∈ pressed) &&
      gestures_alternate (filter (λ id', id' ≠ id) pressed) tr'
  | _ :: tr' => gestures_alternate pressed tr'
  end.

Definition regular (tr : list Event) : bool :=
  gestures_alternate [] tr && on_time tr init.


(** * ChipsInput: the hook [useChipsInput]

    [src/components/ChipsInput/useChipsInput.ts].  The hook holds two
    pieces of state, the text of the field and the selected options, and
    hands out callbacks.  A callback is a closure over the state of the
    render that created it: [r] below is that render's state, [s] the
    state the setters write to.  Calls of the caller's [onChange] and
    [onInputChange] are logged in order.  [None] is a thrown [TypeError]. *)

Module ChipsInput.

Section Hook.

(** The option type of the caller, the type [ChipsInputValue] of its
    values, and the caller's [getOptionValue] and [getNewOptionData]. *)
Context {Option Value : Type} `{EqDecision Value}.
Context (getOptionValue : Option → Value).
Context (getNewOptionData : option Value → Value → Option).

(** A string of the field seen as a [ChipsInputValue], and
    [String.prototype.trim]. *)
Context (of_string : string → Value) (trim : string → string).

Inductive Call :=
| OnChange (options : list Option)
| OnInputChange (value : string).

(** [fieldValue] starts as [props.inputValue], [selectedOptions] as
    [props.value]; both may be undefined. *)
Record Hook := mkHook {
  fieldValue : option string;
  selectedOptions : option (list Option);
  calls : list Call
}.

Definition setFieldValue (v : option string) (s : Hook) : Hook :=
  mkHook v (selectedOptions s) (calls s).

Definition setSelectedOptions (l : option (list Option)) (s : Hook) : Hook :=
  mkHook (fieldValue s) l (calls s).

Definition call (c : Call) (s : Hook) : Hook :=
  mkHook (fieldValue s) (selectedOptions s) (calls s ++ [c]).

(** [clearInput] *)
Definition clearInput (s : Hook) : Hook :=
  call (OnInputChange "") (setFieldValue (Some "") s).

(** [handleInputChange], for an event whose target holds [v] *)
Definition handleInputChange (v : string) (s : Hook) : Hook :=
  call (OnInputChange v) (setFieldValue (Some v) s).

(** The [reduce] of [toggleOption]: the options whose value differs from
    that of [newOption], in their order. *)
Definition others (newOption : Option) (l : list Option) : list Option :=
  foldl (λ acc option,
           if decide (getOptionValue newOption ≠ getOptionValue option)
           then acc ++ [option] else acc) [] l.

(** [toggleOption]; spreading an undefined [selectedOptions] throws. *)
Definition toggleOption (r : Hook) (newOption : Option) (value : option bool)
    (s : Hook) : option Hook :=
  match selectedOptions r with
  | None => None
  | Some selected =>
      let newSelectedOptions :=
        others newOption selected ++
        (if decide (value = Some true) then [newOption] else []) in
      Some (call (OnChange newSelectedOptions)
              (setSelectedOptions (Some newSelectedOptions) s))
  end.

(** [addOption] *)
Definition addOption (r : Hook) (newOption : Option) (s : Hook) : option Hook :=
  toggleOption r newOption (Some true) s.

(** [addOptionFromInput]; an undefined or empty trimmed text is falsy. *)
Definition addOptionFromInput (r : Hook) (s : Hook) : option Hook :=
  match trim <$> fieldValue r with
  | Some trimmedValue =>
      if decide (trimmedValue = "") then Some s
      else clearInput <$>
             addOption r (getNewOptionData None (of_string trimmedValue)) s
  | None => Some s
  end.

(** [removeOption] *)
Definition removeOption (r : Hook) (value : Value) (s : Hook) : option Hook :=
  toggleOption r (getNewOptionData None value) (Some false) s.

(** The values of the selected options. *)
Definition values (l : list Option) : list Value := getOptionValue <$> l.

End Hook.

End ChipsInput.

(** * useKeyboardInputTracker

    Third part of the source file of Tappable.  The hook keeps one flag,
    initially [true], and listens on the document. *)

Module KeyboardInputTracker.

Inductive DocumentEvent :=
| KeyDown (key : string)
| MouseDown
| TouchStart.

(** [toUpperCase] on one character of the ASCII range. *)
Definition upper (c : Ascii.ascii) : Ascii.ascii :=
  let n := Ascii.nat_of_ascii c in
  if bool_decide (97 ≤ n)%nat && bool_decide (n ≤ 122)%nat
  then Ascii.ascii_of_nat (n - 32) else c.

(** [key.toUpperCase()], for keys written in ASCII. *)
Fixpoint toUpperCase (s : string) : string :=
  match s with
  | EmptyString => EmptyString
  | String c s' => String (upper c) (toUpperCase s')
  end.

(** [enableKeyboardInput] and [disableKeyboardInput], as the listeners
    are registered. *)
Definition listen (isKeyboardInputActive : bool) (e : DocumentEvent) : bool :=
  match e with
  | KeyDown key =>
      if decide (toUpperCase key = "TAB") then true else isKeyboardInputActive
  | MouseDown | TouchStart => false
  end.

(** The flag after the events [evs], from its initial value [true]. *)
Definition useKeyboardInputTracker (evs : list DocumentEvent) : bool :=
  foldl listen true evs.

Definition is_tab (e : DocumentEvent) : Prop :=
  ∃ key, e = KeyDown key ∧ toUpperCase key = "TAB".

Definition is_pointer (e : DocumentEvent) : Prop :=
  e = MouseDown ∨ e = TouchStart.

End KeyboardInputTracker.


(** [active_registered], decided over the instances there are. *)
Definition active_registeredb (w : World) : bool :=
  forallb (λ id, implb (isActive id w) (bool_decide (is_Some (storage w !! id))))
          (map_to_list (instances w)).*1.

(** Before every event of the trace, and after the last, each active
    instance has an entry. *)
Fixpoint registered_along (tr : list Event) (w : World) : bool :=
  active_registeredb w &&
  match tr with
  | [] => true
  | e :: tr' => registered_along tr' (step w e)
  end.


(** ** Properties of single instances *)

(** [J] holds of every instance there is. *)
Definition inst_inv (J : InstanceId → Instance → Prop) (w : World) : Prop :=
  ∀ id i, instances w !! id = Some i → J id i.

(** Traces without a write to [hasHover] and [hasActive]. *)
Definition no_capability_events (tr : list Event) : bool :=
  forallb (λ e, match e with SetCapabilities _ _ _ => false | _ => true end) tr.

(** A timer that will remove the ripple [key] of [id] is pending. *)
Definition pending_wave (id : InstanceId) (key : Z) (w : World) : Prop :=
  ∃ h t, timers w !! h = Some t ∧ cb t = CbWave id key.

(** Every ripple shown by a mounted instance has its removal pending. *)
Definition ripples_expire (w : World) : Prop :=
  ∀ id i key xy,
    instances w !! id = Some i → mounted i = true →
    clicks (state i) !! key = Some xy → pending_wave id key w.


(** From [w] to [w'] no mounted instance got a ripple and no removal of
    a ripple of a mounted instance was cancelled. *)
Definition same_ripples (w w' : World) : Prop :=
  (∀ id i', instances w' !! id = Some i' → mounted i' = true →
     ∃ i, instances w !! id = Some i ∧ mounted i = true ∧
          clicks (state i') = clicks (state i)) ∧
  (∀ h t id k, is_mounted id w' = true → timers w !! h = Some t →
     cb t = CbWave id k → timers w' !! h = Some t).


(** * What [render] hands to the presentation *)

Module Render.

(** The props and the state [render] builds the class flags from. *)
Record Look := mkLook {
  hasMouse : bool;
  hoverMode : string;
  activeMode : string;
  focusVisibleMode : string;
  hasFocusVisible : bool;
  st_hovered : bool;
  st_active : bool;
  st_hasHover : bool;
  st_hasActive : bool
}.

(** [['opacity', 'background'].includes(mode)] *)
Definition isPresetMode (mode : string) : bool :=
  bool_decide (mode ∈ ["opacity"; "background"]).

(** The properties of the object literal passed to [classNames], in the
    order they are written. *)
Definition bindings (l : Look) : list (string * bool) :=
  [ ("Tappable--mouse", hasMouse l);
    ("Tappable--active", st_hasActive l && st_active l);
    ("Tappable--inactive", negb (st_active l));
    ("Tappable--hover-" +:+ hoverMode l,
       st_hasHover l && st_hovered l && isPresetMode (hoverMode l));
    ("Tappable--active-" +:+ activeMode l,
       st_hasActive l && st_active l && isPresetMode (activeMode l));
    ("Tappable--focus-visible-" +:+ focusVisibleMode l,
       hasFocusVisible l && bool_decide (focusVisibleMode l = "outline"));
    (hoverMode l, st_hasHover l && st_hovered l && negb (isPresetMode (hoverMode l)));
    (activeMode l, st_hasActive l && st_active l && negb (isPresetMode (activeMode l))) ].

(** The object: a later property of the same name replaces the earlier. *)
Definition object_of (bs : list (string * bool)) : gmap string bool :=
  foldl (λ m kv, <[kv.1 := kv.2]> m) ∅ bs.

Definition flags (l : Look) : gmap string bool := object_of (bindings l).

(** [props.tabIndex] as [render] leaves it: [restProps] is spread first,
    [props] after it. *)
Definition tabIndex (p : Keyboard.KeyProps) (given : option Z) : option Z :=
  if negb (Keyboard.disabled p) && negb (Keyboard.is_native (Keyboard.Component p))
     && negb (Keyboard.contentEditable p)
  then Some (default 0 given) else given.

End Render.


(** * A Tappable inside a Tappable *)

Module Nested.

(** The context value [render] of [parent] provides to its children:
    [onEnter] switches the parent's effects off, [onLeave] puts them back
    to what the parent's props say. *)
Definition context_onEnter (parent : InstanceId) (w : World) : World :=
  setState parent (set_capabilities false false) w.

Definition context_onLeave (parent : InstanceId) (w : World) : World :=
  setState parent
    (set_capabilities (read (λ i, props_hasHover (props i)) false parent w)
                      (read (λ i, props_hasActive (props i)) false parent w)) w.

(** [touchProps.onEnter] and [touchProps.onLeave] of the instance [id];
    [parent] is [None] outside of any Tappable ([insideTappable] false).
    A disabled instance gets no [touchProps]. *)
Definition touch_onEnter (disabled : bool) (parent : option InstanceId)
    (id : InstanceId) (w : World) : World :=
  if disabled then w
  else
    let w1 := match parent with
              | Some p => context_onEnter p w
              | None => w
              end in
    if negb disabled then setState id (set_hovered true) w1 else w1.

Definition touch_onLeave (disabled : bool) (parent : option InstanceId)
    (id : InstanceId) (w : World) : World :=
  if disabled then w
  else
    let w1 := match parent with
              | Some p => context_onLeave p w
              | None => w
              end in
    if negb disabled then setState id (set_hovered false) w1 else w1.

End Nested.


(** * AppRoot: what it writes to the document

    [AppRoot] marks the page with classes: ["vkui"] on the root element,
    ["vkui__root"] (and ["vkui__root--embedded"]) on the element it is
    rendered into, ["vkui--sizeX-regular"] on that element or on [body],
    and it appends a portal root to [body].  The classes are written on
    the first render and by layout effects, and taken away by the cleanups
    of the effects.  The embedding keeps the class lists and the children
    of [body], and for each effect what its cleanup closes over.  The
    contexts the component provides, the scroll controller, the warnings
    on the console and [classScopingMode.noConflict] are left out: they
    write nothing to the document. *)

Module AppRoot.

Inductive Mode := Partial | Embedded | Full.
Inductive SizeType := COMPACT | REGULAR.

Record Props := mkProps {
  _mode : option Mode;
  _embedded : bool;
  sizeX : option SizeType
}.

(** [const mode = _mode || (_embedded ? 'embedded' : 'full')] *)
Definition mode (p : Props) : Mode :=
  match _mode p with
  | Some m => m
  | None => if _embedded p then Embedded else Full
  end.

(** The elements the component touches: [document.documentElement],
    [document.body], and any other element, which the root may be rendered
    into. *)
Inductive Node := DocumentElement | Body | Element (n : nat).

(** The document: the class list of every element, and the children of
    [body] that [createElement] made (each with its own class list).
    [created] numbers the elements made so far. *)
Record Document := mkDocument {
  classList : Node → gset string;
  body_children : list (nat * gset string);
  created : nat
}.

(** What the hooks of one mounted AppRoot hold between renders:
    [initialized.current], and for each layout effect the data its cleanup
    closes over ([None] for [noop]) and the dependencies of its last run. *)
Record Hooks := mkHooks {
  initialized : bool;
  portal_cleanup : option nat;
  root_cleanup : option (Node * list string * Mode);
  size_deps : option SizeType;
  size_cleanup : option Node
}.

End AppRoot.

#[global] Instance AppRoot_Mode_eq_dec : EqDecision AppRoot.Mode.
Proof. solve_decision. Defined.

#[global] Instance AppRoot_SizeType_eq_dec : EqDecision AppRoot.SizeType.
Proof. solve_decision. Defined.

#[global] Instance AppRoot_Node_eq_dec : EqDecision AppRoot.Node.
Proof. solve_decision. Defined.

Module AppRootEffects.
Import AppRoot.

Definition classList_add (n : Node) (cs : list string) (d : Document) : Document :=
  mkDocument (λ n', if decide (n' = n) then classList d n' ∪ list_to_set cs
                    else classList d n')
             (body_children d) (created d).

Definition classList_remove (n : Node) (cs : list string) (d : Document) : Document :=
  mkDocument (λ n', if decide (n' = n) then classList d n' ∖ list_to_set cs
                    else classList d n')
             (body_children d) (created d).

Definition before_mount : Hooks := mkHooks false None None None None.

(** The body of the component up to its effects; [window] tells whether
    [useDOM] gave a window. *)
Definition render (window : bool) (p : Props) (s : Hooks * Document)
    : Hooks * Document :=
  let '(h, d) := s in
  if initialized h then s
  else
    (mkHooks true (portal_cleanup h) (root_cleanup h) (size_deps h) (size_cleanup h),
     if window && bool_decide (mode p = Full)
     then classList_add DocumentElement ["vkui"] d else d).

(** The effect "setup portal". *)
Definition effect_portal (p : Props) (s : Hooks * Document) : Hooks * Document :=
  let '(h, d) := s in
  if bool_decide (mode p = Full) then
    (mkHooks (initialized h) None (root_cleanup h) (size_deps h) (size_cleanup h), d)
  else
    (mkHooks (initialized h) (Some (created d)) (root_cleanup h) (size_deps h)
             (size_cleanup h),
     mkDocument (classList d)
                (body_children d ++ [(created d, {["vkui__portal-root"]})])
                (S (created d))).

Definition cleanup_portal (s : Hooks * Document) : Hooks * Document :=
  let '(h, d) := s in
  match portal_cleanup h with
  | Some portal =>
      (h, mkDocument (classList d)
                     (filter (λ c, c.1 ≠ portal) (body_children d)) (created d))
  | None => s
  end.

(** The effect "setup root classes"; [parent] is
    [rootRef.current.parentElement]. *)
Definition effect_root (parent : Node) (p : Props) (s : Hooks * Document)
    : Hooks * Document :=
  let '(h, d) := s in
  if bool_decide (mode p = Partial) then
    (mkHooks (initialized h) (portal_cleanup h) None (size_deps h) (size_cleanup h), d)
  else
    let classes :=
      ["vkui__root"]
      ++ (if bool_decide (mode p = Embedded) then ["vkui__root--embedded"] else []) in
    (mkHooks (initialized h) (portal_cleanup h) (Some (parent, classes, mode p))
             (size_deps h) (size_cleanup h),
     classList_add parent classes d).

Definition cleanup_root (s : Hooks * Document) : Hooks * Document :=
  let '(h, d) := s in
  match root_cleanup h with
  | Some (parent, classes, m) =>
      let d1 := classList_remove parent classes d in
      (h, if bool_decide (m = Full) then classList_remove DocumentElement ["vkui"] d1
          else d1)
  | None => s
  end.

(** The effect "adaptivity handler", which runs again when [sizeX] changes. *)
Definition effect_size (parent : Node) (p : Props) (s : Hooks * Document)
    : Hooks * Document :=
  let '(h, d) := s in
  if bool_decide (mode p = Partial) || bool_decide (sizeX p ≠ Some REGULAR) then
    (mkHooks (initialized h) (portal_cleanup h) (root_cleanup h) (sizeX p) None, d)
  else
    let container := if bool_decide (mode p = Embedded) then parent else Body in
    (mkHooks (initialized h) (portal_cleanup h) (root_cleanup h) (sizeX p)
             (Some container),
     classList_add container ["vkui--sizeX-regular"] d).

Definition cleanup_size (s : Hooks * Document) : Hooks * Document :=
  let '(h, d) := s in
  match size_cleanup h with
  | Some container => (h, classList_remove container ["vkui--sizeX-regular"] d)
  | None => s
  end.

(** First render and the first run of the layout effects, in the order
    they are declared. *)
Definition mount (window : bool) (parent : Node) (p : Props) (d : Document)
    : Hooks * Document :=
  effect_size parent p
    (effect_root parent p (effect_portal p (render window p (before_mount, d)))).

(** A later render with props [p]: only the effect whose dependency
    changed is cleaned up and run again. *)
Definition update (window : bool) (parent : Node) (s : Hooks * Document) (p : Props)
    : Hooks * Document :=
  let s1 := render window p s in
  if decide (sizeX p = size_deps s1.1) then s1
  else effect_size parent p (cleanup_size s1).

(** Unmount: every cleanup, in the order of the effects. *)
Definition unmount (s : Hooks * Document) : Hooks * Document :=
  cleanup_size (cleanup_root (cleanup_portal s)).

(** The life of one AppRoot: mounted with [p], rendered again with each
    of [ps], unmounted. *)
Definition life (window : bool) (parent : Node) (p : Props) (ps : list Props)
    (d : Document) : Document :=
  (unmount (foldl (update window parent) (mount window parent p d) ps)).2.

(** ** What a mounted AppRoot has added to the document *)

Definition root_classes (m : Mode) : list string :=
  ["vkui__root"] ++ (if bool_decide (m = Embedded) then ["vkui__root--embedded"] else []).

(** The classes on the element [n] that the cleanup of "setup root
    classes" will remove, and those that the cleanup of the adaptivity
    handler will. *)
Definition managed_root (window : bool) (rc : option (Node * list string * Mode))
    (n : Node) : gset string :=
  match rc with
  | Some (parent, classes, m) =>
      (if decide (n = parent) then list_to_set classes else ∅)
      ∪ (if window && bool_decide (m = Full) && bool_decide (n = DocumentElement)
         then {["vkui"]} else ∅)
  | None => ∅
  end.

Definition managed_size (sc : option Node) (n : Node) : gset string :=
  match sc with
  | Some container => if decide (n = container) then {["vkui--sizeX-regular"]} else ∅
  | None => ∅
  end.

(** A document AppRoot can be mounted into under [parent] and leave
    again without a trace: none of its classes is on the elements it will
    write to, and the children of [body] were created before. *)
Record clean (parent : Node) (d0 : Document) : Prop := mkClean {
  clean_vkui : "vkui" ∉ classList d0 DocumentElement;
  clean_root : "vkui__root" ∉ classList d0 parent;
  clean_embedded : "vkui__root--embedded" ∉ classList d0 parent;
  clean_size_parent : "vkui--sizeX-regular" ∉ classList d0 parent;
  clean_size_body : "vkui--sizeX-regular" ∉ classList d0 Body;
  clean_created : ∀ c, c ∈ body_children d0 → (c.1 < created d0)%nat
}.

(** Between mount and unmount the document is the one AppRoot was mounted
    into, plus what its cleanups will remove. *)
Definition approot_inv (window : bool) (parent : Node) (d0 : Document)
    (s : Hooks * Document) : Prop :=
  (∀ n, classList s.2 n
        = classList d0 n ∪ managed_root window (root_cleanup s.1) n
          ∪ managed_size (size_cleanup s.1) n) ∧
  body_children s.2 = body_children d0
    ++ from_option (λ i, [(i, {["vkui__portal-root"]})]) [] (portal_cleanup s.1) ∧
  (∀ i, portal_cleanup s.1 = Some i → i = created d0) ∧
  initialized s.1 = true ∧
  (root_cleanup s.1 = None ∨
   ∃ m, root_cleanup s.1 = Some (parent, root_classes m, m) ∧ m ≠ Partial) ∧
  (size_cleanup s.1 = None ∨ size_cleanup s.1 = Some parent
   ∨ size_cleanup s.1 = Some Body).

(** The adaptivity handler has last run with the [sizeX] of [q], in mode
    [m]. *)
Definition size_inv (parent : Node) (m : Mode) (q : Props) (h : Hooks) : Prop :=
  size_deps h = sizeX q ∧
  size_cleanup h =
    if bool_decide (m = Partial) || bool_decide (sizeX q ≠ Some REGULAR) then None
    else Some (if bool_decide (m = Embedded) then parent else Body).

(** A document with a class on [body] and one child of [body]. *)
Definition some_document : Document :=
  mkDocument (λ n, if decide (n = Body) then {["app"]} else ∅) [(0%nat, {["modal"]})] 1.

End AppRootEffects.


(** * Proofs *)

(** ** The scenarios, evaluated *)

(** The ordinary gestures: a long press, a short tap, a drag, and a tap on
    a second instance while the first is still shown active. *)
Example long_press :
  let w := run [Mount "a" defaultProps; GestureStart "a" None 0 0; Elapse 70;
                TimerFires 0%nat; Elapse 130] init in
  isActive "a" w = true ∧ st_tsnum "a" w = 70 ∧
  isActive "a" (step w (GestureEnd "a" None)) = false ∧
  timers (step w (GestureEnd "a" None)) = ∅ ∧
  storage (step w (GestureEnd "a" None)) = ∅.
Proof. vm_compute. by repeat split. Qed.

Example short_tap :
  let w := run ([Mount "a" defaultProps] ++ tap "a" 10) init in
  isActive "a" w = true ∧
  map_to_list (timers w) = [(1%nat, mkTimer 610 (CbStop "a"))] ∧
  isActive "a" (run [Elapse 600; TimerFires 1%nat] w) = false ∧
  storage (run [Elapse 600; TimerFires 1%nat] w) = ∅.
Proof. vm_compute. by repeat split. Qed.

Example drag :
  let w := run [Mount "a" defaultProps; GestureStart "a" None 0 0; Elapse 30;
                GestureMove "a" 0 21] init in
  isActive "a" w = false ∧ st_isSlide "a" w = true ∧ timers w = ∅ ∧
  isActive "a" (step w (GestureEnd "a" None)) = false ∧
  st_isSlide "a" (step w (GestureEnd "a" None)) = false.
Proof. vm_compute. by repeat split. Qed.

Example tap_one_then_other :
  let w := run (mount_ab ++ tap "a" 10 ++ [Elapse 50] ++ tap "b" 10) init in
  active_ids w = ["b"] ∧ (map_to_list (storage w)).*1 = ["b"] ∧
  map_to_list (timers w) = [(3%nat, mkTimer 670 (CbStop "b"))].
Proof. vm_compute. by repeat split. Qed.

(** The scenarios are regular: presses and releases alternate on each
    instance and no timer is left overdue ([press_twice] has two presses in
    a row, as the sentence it is about supposes). *)
Lemma scenarios_regular :
  regular two_taps_then_other = true ∧
  regular two_finger_press = true ∧
  regular (tap_and_press_again ++ [Elapse 10; Unmount "a"]) = true ∧
  regular (tap_and_press_again ++ [Elapse 10; GestureEnd "a" None]) = true ∧
  regular (two_ripples ++ [Unmount "a"]) = true ∧
  regular (two_finger_press ++ [Unmount "a"]) = true ∧
  regular (third_press_dragged ++
           [GestureMove "a" 25 0; Elapse 40; TimerFires 2%nat]) = true ∧
  on_time press_twice init = true.
Proof. vm_compute. by repeat split. Qed.

(** C1.  Two mounted instances are active at the same instant.  "a" is
    tapped twice, 600 ms apart: the release timer of the first tap runs
    between press and release of the second and deletes the new entry, so
    the second release activates "a" with no entry in [storage]
    ([this.timeout] branch of [onEnd]).  A tap on "b" 80 ms later
    activates "b"; [deactivateOtherInstances] walks [storage] only and
    does not reach "a". *)
Theorem two_instances_active_at_once :
  let w := run two_taps_then_other init in
  isActive "a" w = true ∧ isActive "b" w = true ∧
  active_ids w = ["a"; "b"] ∧ storage w !! "a" = None ∧
  timers w !! 3%nat = Some (mkTimer 1220 (CbStop "a")) ∧ now w = 710.
Proof. vm_compute. by repeat split. Qed.

(** C3.  [componentWillUnmount] leaves timers of the instance scheduled,
    though no entry of [storage]: the release timer of a tap whose entry
    was overwritten by the next press, the ripple timer of an earlier
    press on Android ([wavesTimeout] keeps the latest handle only), and the
    release timer kept in [this.timeout], which nothing ever clears. *)
Theorem unmount_leaves_timers :
  (let w := run (tap_and_press_again ++ [Elapse 10; Unmount "a"]) init in
   storage w !! "a" = None ∧ is_mounted "a" w = false ∧
   timers_of "a" w = [(1%nat, mkTimer 610 (CbStop "a"))]) ∧
  (let w := run (two_ripples ++ [Unmount "a"]) init in
   storage w !! "a" = None ∧
   timers w !! 0%nat = Some (mkTimer 225 (CbWave "a" 0)) ∧ now w = 120) ∧
  (let w := run (two_finger_press ++ [Unmount "a"]) init in
   storage w !! "a" = None ∧
   read this_timeout None "a" w = Some 0%nat ∧
   timers_of "a" w = [(0%nat, mkTimer 610 (CbStop "a"))]).
Proof. vm_compute. by repeat split. Qed.

(** C6.  After a move beyond 20 units the instance is inactive and marked
    as sliding, but an activation timer of the instance is still pending:
    the one of the second press, whose entry the third press overwrote.
    When it runs, 40 ms into the drag, the instance becomes active. *)
Theorem drag_leaves_activation_timer :
  let w := run (third_press_dragged ++ [GestureMove "a" 25 0]) init in
  isActive "a" w = false ∧ st_isSlide "a" w = true ∧ storage w !! "a" = None ∧
  timers w !! 2%nat = Some (mkTimer 90 (CbStart "a")) ∧ now w = 50 ∧
  isActive "a" (run [Elapse 40; TimerFires 2%nat] w) = true.
Proof. vm_compute. by repeat split. Qed.

(** C8.  A second press before the first is released replaces the entry
    of the instance, so [storage] holds one entry for the id, but the
    activation timer of the first press stays scheduled: [onStart] does
    not clear the handle it overwrites. *)
Theorem second_press_orphans_timer :
  let w := run press_twice init in
  map_to_list (storage w) = [("a", mkItem 1 None "a")] ∧
  timers w !! 0%nat = Some (mkTimer 70 (CbStart "a")) ∧
  timers w !! 1%nat = Some (mkTimer 80 (CbStart "a")) ∧ now w = 10.
Proof. vm_compute. by repeat split. Qed.

(** ** Where the statements of the specification fail *)

(** C2, as worded, fails in both directions.  After a press that reported
    two contact points and its complete release, "a" is active and has no
    entry.  And when [hasActive] of "a" is switched off between its press
    and the activation, the activation timer runs without effect: "a"
    keeps its entry, is not active and has no activation pending. *)
Lemma entry_iff_fails_both_ways :
  ¬ entry_iff_pending_or_active (run two_finger_press init) ∧
  ¬ (∀ id, is_Some (storage (run disarmed_press init) !! id) →
       pending_activation id (run disarmed_press init) ∨
       isActive id (run disarmed_press init) = true).
Proof.
  split.
  - intros H. destruct (H "a") as [_ Hback].
    destruct Hback as [it Hit]; [right; by vm_compute|].
    vm_compute in Hit. discriminate.
  - intros H.
    destruct (H "a") as [(h & t & Ht & _)|Ha]; [by eexists; reflexivity| |].
    + assert (He : timers (run disarmed_press init) = ∅) by (by vm_compute).
      rewrite He, lookup_empty in Ht. discriminate.
    + vm_compute in Ha. discriminate.
Qed.


(** C5, as worded, fails: "a" is still active from a tap when it is
    pressed again; released 10 ms later, before the new activation timer
    has run, it is switched off (100 ms have passed since it became
    active). *)
Lemma early_release_when_already_active :
  ¬ early_release_activates (run (tap_and_press_again ++ [Elapse 10]) init) "a".
Proof.
  intros H.
  destruct (H (mkItem 2 None "a") (mkTimer 170 (CbStart "a"))) as [Hact _];
    [by vm_compute..|].
  vm_compute in Hact. discriminate.
Qed.

(** C7, as worded, fails: the press reports two contact points, the
    release none; the release activates the instance. *)
Lemma full_release_after_multi_touch_activates :
  ¬ no_activation_from_gesture (run [Mount "a" defaultProps] init) "a" 2.
Proof.
  intros H. specialize (H (Some 0%nat) "a").
  assert (Hf : isActive "a" (run [Mount "a" defaultProps] init) = true)
    by (apply H; by vm_compute).
  vm_compute in Hf. discriminate.
Qed.

(** C9, as worded, fails: a [div] with [role="button"] that is
    [contentEditable] keeps the caller's handler; Enter synthesizes no
    click. *)
Lemma contentEditable_not_intercepted :
  ¬ Keyboard.keyboard_activation
      (Keyboard.mkKeyProps (Keyboard.Tag "div") (Some "button") false true true).
Proof.
  intros H. destruct H as [_ Hbutton]; [done|].
  destruct Hbutton as [Henter _]; [done|].
  vm_compute in Henter. by repeat (apply elem_of_cons in Henter as [?|Henter]);
    try apply elem_of_nil in Henter.
Qed.

(** ** Keyboard activation *)

(** C9, amended.  On an enabled Tappable that is not [contentEditable] and
    is rendered as a non-native element, a key press runs [this.onKeyDown]:
    with [role="link"] Enter synthesizes a click and Space does not, with
    [role="button"] both do, and the caller's [onKeyDown], when supplied,
    runs last in every case. *)
Theorem keydown_intercepted (p : Keyboard.KeyProps) :
  Keyboard.disabled p = false →
  Keyboard.contentEditable p = false →
  Keyboard.is_native (Keyboard.Component p) = false →
  let click := [Keyboard.PreventDefault; Keyboard.Click] in
  let caller := if Keyboard.has_onKeyDown p then [Keyboard.CallerOnKeyDown] else [] in
  (Keyboard.role p = Some "link" →
     Keyboard.keydown p Keyboard.Enter = click ++ caller ∧
     Keyboard.keydown p Keyboard.Space = caller) ∧
  (Keyboard.role p = Some "button" →
     Keyboard.keydown p Keyboard.Enter = click ++ caller ∧
     Keyboard.keydown p Keyboard.Space = click ++ caller) ∧
  (∀ k, Keyboard.role p = Some "link" ∨ Keyboard.role p = Some "button" →
     ∃ synthesized, Keyboard.keydown p k = synthesized ++ caller ∧
       (synthesized = click ∨ synthesized = [])).
Proof.
  intros Hd Hc Hn click caller.
  unfold Keyboard.keydown, Keyboard.intercepts, Keyboard.onKeyDown,
    Keyboard.shouldTriggerClickOnEnterOrSpace, Keyboard.caller_handler.
  rewrite Hd, Hc, Hn. simpl.
  split; [|split].
  - intros ->. by simpl.
  - intros ->. by simpl.
  - intros k [-> | ->]; simpl; destruct k; simpl;
      first [by exists click; auto | by exists []; auto].
Qed.

Lemma keydown_intercepted_witness :
  let p := Keyboard.mkKeyProps (Keyboard.Tag "div") (Some "link") false false true in
  Keyboard.keydown p Keyboard.Enter =
    [Keyboard.PreventDefault; Keyboard.Click; Keyboard.CallerOnKeyDown] ∧
  Keyboard.keydown p Keyboard.Space = [Keyboard.CallerOnKeyDown].
Proof.
  intros p.
  exact (proj1 (keydown_intercepted p eq_refl eq_refl eq_refl) eq_refl).
Defined.

(** ** What the handlers do to the world *)

Lemma stop_now id w : now (stop id w) = now w.
Proof.
  unfold stop, getStorage. destruct (st_active id w); simpl;
    by destruct (storage w !! id).
Qed.

Lemma stop_next_handle id w : next_handle (stop id w) = next_handle w.
Proof.
  unfold stop, getStorage. destruct (st_active id w); simpl;
    by destruct (storage w !! id).
Qed.

Lemma stop_storage id w : storage (stop id w) = delete id (storage w).
Proof.
  unfold stop, getStorage.
  destruct (st_active id w); simpl;
    destruct (storage w !! id) eqn:E; simpl;
    first [done | by rewrite delete_id].
Qed.

Lemma stop_timers id w :
  timers (stop id w) =
  match storage w !! id with
  | Some it => delete (activeTimeout it) (timers w)
  | None => timers w
  end.
Proof.
  unfold stop, getStorage.
  destruct (st_active id w); simpl; by destruct (storage w !! id).
Qed.

Lemma stop_instances id w :
  instances (stop id w) =
  if st_active id w
  then alter (λ i, if mounted i then with_state (set_active false None) i else i)
             id (instances w)
  else instances w.
Proof.
  unfold stop, getStorage.
  destruct (st_active id w); simpl; by destruct (storage w !! id).
Qed.

Lemma stop_other id id' w : id ≠ id' → instances (stop id w) !! id' = instances w !! id'.
Proof.
  intros Hne. rewrite stop_instances.
  destruct (st_active id w); [by rewrite lookup_alter_ne|done].
Qed.

Lemma stop_inactive id w : isActive id (stop id w) = false.
Proof.
  unfold isActive, is_mounted, st_active, read. rewrite stop_instances.
  destruct (st_active id w) eqn:Ha.
  - rewrite lookup_alter_eq. destruct (instances w !! id) as [i|]; [|done].
    simpl. destruct (mounted i) eqn:Hm; simpl; rewrite Hm; [done|by simpl].
  - unfold st_active, read in Ha. rewrite Ha. apply andb_false_r.
Qed.

Lemma read_setField {A} (g : Instance → A) d id id' f w :
  (∀ i, g (f i) = g i) → read g d id' (setField id f w) = read g d id' w.
Proof.
  intros Hg. unfold read, setField. simpl. rewrite lookup_alter.
  case_decide; [subst|done]. destruct (instances w !! id'); simpl; by rewrite ?Hg.
Qed.

Lemma read_setState {A} (g : Instance → A) d id id' f w :
  (∀ i, g (with_state f i) = g i) → read g d id' (setState id f w) = read g d id' w.
Proof.
  intros Hg. unfold read, setState. simpl. rewrite lookup_alter.
  case_decide; [subst|done]. destruct (instances w !! id') as [i|]; simpl; [|done].
  destruct (mounted i); by rewrite ?Hg.
Qed.

Lemma isActive_setField_isSlide id id' b w :
  isActive id' (setField id (set_isSlide b) w) = isActive id' w.
Proof. unfold isActive, is_mounted, st_active. by rewrite !read_setField. Qed.

(** ** The delay of a timer *)

Lemma timeout_ms_in_range d : 0 ≤ d < 2 ^ 31 → timeout_ms d = d.
Proof.
  intros Hd. unfold timeout_ms, toInt32.
  change (2 ^ 32) with 4294967296. change (2 ^ 31) with 2147483648 in *.
  rewrite Z.mod_small by lia. lia.
Qed.

Lemma timeout_ms_negative d : - 2 ^ 31 ≤ d < 0 → timeout_ms d = 0.
Proof.
  intros Hd. unfold timeout_ms, toInt32.
  change (2 ^ 32) with 4294967296. change (2 ^ 31) with 2147483648 in *.
  rewrite Z.mod_small by lia. lia.
Qed.

Lemma timeout_ms_nonneg d : 0 ≤ timeout_ms d.
Proof. unfold timeout_ms. lia. Qed.

(** ** Release of an active instance *)



(** ** Shrinking *)

Lemma off_off i : off (off i) = off i.
Proof. by destruct i. Qed.

Lemma shrinks_refl w : shrinks w w.
Proof. split; auto. Qed.

Lemma shrinks_trans w1 w2 w3 : shrinks w1 w2 → shrinks w2 w3 → shrinks w1 w3.
Proof.
  intros [Hn1 Hh1 Ht1 Hs1 Hi1] [Hn2 Hh2 Ht2 Hs2 Hi2]. split.
  - congruence.
  - congruence.
  - by etrans.
  - by etrans.
  - intros id. destruct (Hi1 id) as [E1|E1], (Hi2 id) as [E2|E2];
      rewrite E2, E1; auto.
    right. destruct (instances w1 !! id); simpl; [|done]. by rewrite off_off.
Qed.

Lemma shrinks_clearTimeout h w : shrinks w (clearTimeout h w).
Proof.
  destruct h as [h|]; [|apply shrinks_refl].
  split; simpl; auto. apply delete_subseteq.
Qed.

Lemma shrinks_delete_storage id w : shrinks w (with_storage (delete id) w).
Proof. split; simpl; auto. apply delete_subseteq. Qed.

Lemma shrinks_setState_off id w : shrinks w (setState id (set_active false None) w).
Proof.
  split; simpl; auto. intros id'. rewrite lookup_alter.
  case_decide; [subst|by left].
  destruct (instances w !! id') as [i|]; simpl; [|by left].
  destruct (mounted i); [by right|by left].
Qed.

Lemma shrinks_stop id w : shrinks w (stop id w).
Proof.
  unfold stop, getStorage.
  set (w1 := if st_active id w then _ else w).
  assert (H1 : shrinks w w1).
  { subst w1. destruct (st_active id w);
      [apply shrinks_setState_off|apply shrinks_refl]. }
  destruct (storage w1 !! id); [|done].
  eapply shrinks_trans; [exact H1|].
  eapply shrinks_trans; [apply shrinks_clearTimeout|apply shrinks_delete_storage].
Qed.

Lemma shrinks_purge_one w id : shrinks w (purge_one w id).
Proof.
  unfold purge_one. destruct (storage w !! id) as [it|]; [|apply shrinks_refl].
  eapply shrinks_trans; [apply shrinks_clearTimeout|].
  eapply shrinks_trans; [apply shrinks_clearTimeout|].
  eapply shrinks_trans; [apply shrinks_stop|apply shrinks_delete_storage].
Qed.

Lemma shrinks_purge l : ∀ w, shrinks w (foldl purge_one w l).
Proof.
  induction l as [|id l IH]; intros w; simpl; [apply shrinks_refl|].
  eapply shrinks_trans; [apply shrinks_purge_one|apply IH].
Qed.

Lemma shrinks_deactivateOtherInstances ex w :
  shrinks w (deactivateOtherInstances ex w).
Proof. apply shrinks_purge. Qed.

(** What shrinking keeps of an instance: everything but [active] and
    [ts]. *)
Lemma shrinks_read {A} (g : Instance → A) d id w w' :
  (∀ i, g (off i) = g i) → shrinks w w' → read g d id w' = read g d id w.
Proof.
  intros Hg Hs. unfold read. destruct (sh_instances _ _ Hs id) as [->| ->]; [done|].
  destruct (instances w !! id); simpl; by rewrite ?Hg.
Qed.

Lemma shrinks_mounted id w w' : shrinks w w' → is_mounted id w' = is_mounted id w.
Proof. by apply shrinks_read. Qed.

Lemma shrinks_hasActive id w w' : shrinks w w' → st_hasActive id w' = st_hasActive id w.
Proof. by apply shrinks_read. Qed.

Lemma shrinks_isSlide id w w' : shrinks w w' → st_isSlide id w' = st_isSlide id w.
Proof. by apply shrinks_read. Qed.

Lemma shrinks_delay id w w' : shrinks w w' → st_delay id w' = st_delay id w.
Proof. by apply shrinks_read. Qed.

Lemma shrinks_platform id w w' : shrinks w w' → st_platform id w' = st_platform id w.
Proof. by apply shrinks_read. Qed.

(** Shrinking activates nothing. *)
Lemma shrinks_st_active id w w' :
  shrinks w w' → st_active id w' = true → st_active id w = true.
Proof.
  intros Hs. unfold st_active, read.
  destruct (sh_instances _ _ Hs id) as [->| ->]; [done|].
  by destruct (instances w !! id).
Qed.

Lemma shrinks_isActive id w w' :
  shrinks w w' → isActive id w' = true → isActive id w = true.
Proof.
  intros Hs. unfold isActive. rewrite (shrinks_mounted id w w' Hs).
  intros [Hm Ha]%andb_true_iff. rewrite Hm. simpl. by eapply shrinks_st_active.
Qed.

Lemma shrinks_waves id w w' i' h :
  shrinks w w' → instances w' !! id = Some i' → wavesTimeout i' = Some h →
  ∃ i, instances w !! id = Some i ∧ wavesTimeout i = Some h.
Proof.
  intros Hs Hi Hw. destruct (sh_instances _ _ Hs id) as [E|E]; rewrite Hi in E.
  - eauto.
  - destruct (instances w !! id) as [i|]; simplify_eq/=. eauto.
Qed.

Lemma shrinks_wf w w' : wf w → shrinks w w' → wf w'.
Proof.
  intros Hwf Hs. destruct Hs as [Hn Hh Ht Hst Hi].
  assert (Hs : shrinks w w') by (by split).
  split; rewrite ?Hh.
  - intros h t Hl. eapply wf_timers_lt; [done|]. by eapply lookup_weaken.
  - intros id it Hl. eapply wf_owner; [done|]. by eapply lookup_weaken.
  - intros id it Hl. rewrite (shrinks_mounted id w w' Hs).
    eapply wf_mounted; [done|]. by eapply lookup_weaken.
  - intros id it Hl. eapply wf_active_lt; [done|]. by eapply lookup_weaken.
  - intros id it h Hl Hr. eapply wf_release_lt; [done| |done].
    by eapply lookup_weaken.
  - intros id i' h Hl Hw.
    destruct (shrinks_waves id w w' i' h Hs Hl Hw) as (i & ? & ?).
    by eapply wf_waves_lt.
  - intros id it t Hl Hl'. eapply wf_active_cb; [done| |].
    + by eapply lookup_weaken.
    + by eapply lookup_weaken.
  - intros id it h t Hl Hr Hl'. eapply wf_release_cb; [done| |done|].
    + by eapply lookup_weaken.
    + by eapply lookup_weaken.
  - intros id i' h t Hl Hw Hl'.
    destruct (shrinks_waves id w w' i' h Hs Hl Hw) as (i & ? & ?).
    eapply wf_waves_cb; [done|done|done|]. by eapply lookup_weaken.
Qed.

(** ** Well-formedness is kept *)

Lemma wf_init : wf init.
Proof. split; intros *; simpl; rewrite ?lookup_empty; try done. Qed.

(** The general step: the counter grows, new timers sit at new handles,
    and nothing is recorded that was not recorded before. *)
Lemma wf_mono w w' :
  wf w →
  (next_handle w ≤ next_handle w')%nat →
  (∀ h t, timers w' !! h = Some t →
     timers w !! h = Some t ∨ (next_handle w ≤ h < next_handle w')%nat) →
  storage w' ⊆ storage w →
  (∀ id it, storage w' !! id = Some it → is_mounted id w' = true) →
  (∀ id i' h, instances w' !! id = Some i' → wavesTimeout i' = Some h →
     ∃ i, instances w !! id = Some i ∧ wavesTimeout i = Some h) →
  wf w'.
Proof.
  intros Hwf Hh Ht Hs Hm Hw. split.
  - intros h t Hl. destruct (Ht h t Hl) as [Hold|?]; [|lia].
    pose proof (wf_timers_lt w Hwf h t Hold). lia.
  - intros id it Hl. eapply wf_owner; [done|]. by eapply lookup_weaken.
  - done.
  - intros id it Hl.
    pose proof (wf_active_lt w Hwf id it (lookup_weaken _ _ _ _ Hl Hs)). lia.
  - intros id it h Hl Hr.
    pose proof (wf_release_lt w Hwf id it h (lookup_weaken _ _ _ _ Hl Hs) Hr). lia.
  - intros id i' h Hl Hr. destruct (Hw id i' h Hl Hr) as (i & Hi & Hwi).
    pose proof (wf_waves_lt w Hwf id i h Hi Hwi). lia.
  - intros id it t Hl Hl'.
    pose proof (lookup_weaken _ _ _ _ Hl Hs) as Hold.
    destruct (Ht _ _ Hl') as [Ho|?].
    + by eapply wf_active_cb.
    + pose proof (wf_active_lt w Hwf id it Hold). lia.
  - intros id it h t Hl Hr Hl'.
    pose proof (lookup_weaken _ _ _ _ Hl Hs) as Hold.
    destruct (Ht _ _ Hl') as [Ho|?].
    + by eapply wf_release_cb.
    + pose proof (wf_release_lt w Hwf id it h Hold Hr). lia.
  - intros id i' h t Hl Hr Hl'. destruct (Hw id i' h Hl Hr) as (i & Hi & Hwi).
    destruct (Ht _ _ Hl') as [Ho|?].
    + by eapply wf_waves_cb.
    + pose proof (wf_waves_lt w Hwf id i h Hi Hwi). lia.
Qed.

Lemma alter_waves (f : Instance → Instance) id id' (m : gmap string Instance) i' h :
  (∀ i, wavesTimeout (f i) = wavesTimeout i) →
  alter f id m !! id' = Some i' → wavesTimeout i' = Some h →
  ∃ i, m !! id' = Some i ∧ wavesTimeout i = Some h.
Proof.
  intros Hf. rewrite lookup_alter. case_decide; [subst|by eauto].
  destruct (m !! id') as [i|]; intros; simplify_eq/=.
  exists i. by rewrite <-Hf.
Qed.

Lemma wf_setState id f w : wf w → wf (setState id f w).
Proof.
  intros Hwf. apply (wf_mono w); simpl; auto.
  - intros id' it Hl. unfold is_mounted. rewrite read_setState by done.
    by eapply wf_mounted.
  - intros id' i' h. apply alter_waves. intros i. by destruct (mounted i).
Qed.

Lemma wf_setField id f w :
  (∀ i, mounted (f i) = mounted i) →
  (∀ i, wavesTimeout (f i) = wavesTimeout i) →
  wf w → wf (setField id f w).
Proof.
  intros Hm Hw Hwf. apply (wf_mono w); simpl; auto.
  - intros id' it Hl. unfold is_mounted. rewrite read_setField by done.
    by eapply wf_mounted.
  - intros id' i' h. by apply alter_waves.
Qed.

Lemma wf_setTimeout c d w : wf w → wf (setTimeout c d w).2.
Proof.
  intros Hwf. apply (wf_mono w); simpl; auto.
  - intros h t. rewrite lookup_insert. case_decide; [subst; lia|auto].
  - intros id it Hl. change (is_mounted id w = true). by eapply wf_mounted.
  - eauto.
Qed.

Lemma wf_clearTimeout h w : wf w → wf (clearTimeout h w).
Proof. intros. eapply shrinks_wf; [done|apply shrinks_clearTimeout]. Qed.

Lemma wf_stop id w : wf w → wf (stop id w).
Proof. intros. eapply shrinks_wf; [done|apply shrinks_stop]. Qed.

Lemma wf_deactivateOtherInstances ex w : wf w → wf (deactivateOtherInstances ex w).
Proof. intros. eapply shrinks_wf; [done|apply shrinks_deactivateOtherInstances]. Qed.

(** Recording a handle: the entry must name its owner, the owner must be
    mounted, and the handles must be the timers they are taken for. *)
Lemma wf_insert_storage id it w :
  wf w →
  stop_cb it = id →
  is_mounted id w = true →
  (activeTimeout it < next_handle w)%nat →
  (∀ h, timeout it = Some h → (h < next_handle w)%nat) →
  (∀ t, timers w !! activeTimeout it = Some t → cb t = CbStart id) →
  (∀ h t, timeout it = Some h → timers w !! h = Some t → cb t = CbStop id) →
  wf (with_storage (<[id := it]>) w).
Proof.
  intros Hwf Ho Hm Ha Hr Hac Hrc. split; simpl.
  - by apply wf_timers_lt.
  - intros id' it'. rewrite lookup_insert. case_decide; intros; simplify_eq; [done|].
    by eapply wf_owner.
  - intros id' it'. rewrite lookup_insert. case_decide; intros; simplify_eq; [done|].
    by eapply (wf_mounted w).
  - intros id' it'. rewrite lookup_insert. case_decide; intros; simplify_eq; [done|].
    by eapply wf_active_lt.
  - intros id' it' h. rewrite lookup_insert. case_decide; intros; simplify_eq; [eauto|].
    by eapply wf_release_lt.
  - by apply wf_waves_lt.
  - intros id' it' t. rewrite lookup_insert. case_decide; intros; simplify_eq; [eauto|].
    by eapply wf_active_cb.
  - intros id' it' h t. rewrite lookup_insert.
    case_decide; intros; simplify_eq; [eauto|]. by eapply wf_release_cb.
  - by apply wf_waves_cb.
Qed.

Lemma wf_set_wavesTimeout id h w :
  wf w →
  (h < next_handle w)%nat →
  (∀ t, timers w !! h = Some t → ∃ k, cb t = CbWave id k) →
  wf (setField id (set_wavesTimeout (Some h)) w).
Proof.
  intros Hwf Hlt Hcb.
  assert (Hl : ∀ id' i', instances (setField id (set_wavesTimeout (Some h)) w) !! id'
                 = Some i' →
            ∃ i, instances w !! id' = Some i ∧
              (wavesTimeout i' = wavesTimeout i ∨ id' = id ∧ wavesTimeout i' = Some h)).
  { intros id' i'. simpl. rewrite lookup_alter. case_decide; [subst|by eauto].
    destruct (instances w !! id') as [i|]; intros; simplify_eq/=. eauto. }
  split; simpl.
  - by apply wf_timers_lt.
  - by apply wf_owner.
  - intros id' it Hs. unfold is_mounted. rewrite read_setField by done.
    by eapply wf_mounted.
  - by apply wf_active_lt.
  - by apply wf_release_lt.
  - intros id' i' h' Hi Hw. destruct (Hl _ _ Hi) as (i & Hi0 & [E|[-> E]]).
    + rewrite E in Hw. by eapply wf_waves_lt.
    + congruence.
  - by apply wf_active_cb.
  - by apply wf_release_cb.
  - intros id' i' h' t Hi Hw Ht. destruct (Hl _ _ Hi) as (i & Hi0 & [E|[-> E]]).
    + rewrite E in Hw. by eapply wf_waves_cb.
    + assert (h' = h) as -> by congruence. eauto.
Qed.

Lemma wf_record_release id h store w :
  wf w →
  storage w !! id = Some store →
  (h < next_handle w)%nat →
  (∀ t, timers w !! h = Some t → cb t = CbStop id) →
  wf (with_storage (<[id := set_timeout (Some h) store]>) w).
Proof.
  intros Hwf Hs Hlt Hcb. apply wf_insert_storage; simpl; auto.
  - by eapply wf_owner.
  - by eapply wf_mounted.
  - by eapply wf_active_lt.
  - intros ? [= <-]. done.
  - intros t. by eapply wf_active_cb.
  - intros ? t [= <-]. auto.
Qed.

Lemma wf_start id w : wf w → wf (start id w).
Proof.
  intros Hwf. unfold start. apply wf_deactivateOtherInstances.
  destruct (negb _ && _); [by apply wf_setState|done].
Qed.

Lemma is_mounted_onDown id id' x y w : is_mounted id' (onDown id x y w) = is_mounted id' w.
Proof.
  unfold onDown. destruct (st_platform id w); try done.
  unfold is_mounted, setTimeout. simpl.
  rewrite read_setField by done.
  change (read mounted false id' (setState id (set_clicks <[now w:=(x, y)]>) w)
          = read mounted false id' w).
  by rewrite read_setState.
Qed.

Lemma wf_onDown id x y w : wf w → wf (onDown id x y w).
Proof.
  intros Hwf. unfold onDown. destruct (st_platform id w); try done.
  set (w1 := setState id _ w).
  assert (Hwf1 : wf w1) by (by apply wf_setState).
  pose proof (wf_setTimeout (CbWave id (now w)) 225 w1 Hwf1) as Hwf2.
  destruct (setTimeout (CbWave id (now w)) 225 w1) as [h w2] eqn:E.
  unfold setTimeout in E. injection E as <- <-.
  apply wf_set_wavesTimeout; [done|simpl; lia|].
  simpl. intros t. rewrite lookup_insert_eq. intros [= <-]. eauto.
Qed.

Lemma wf_onStart id touches x y w :
  wf w → is_mounted id w = true → wf (onStart id touches x y w).
Proof.
  intros Hwf Hm. unfold onStart. destruct (st_hasActive id w); [|done].
  destruct (more_touches_than 1 touches);
    [by apply wf_deactivateOtherInstances|].
  set (w1 := match st_platform id w with ANDROID => onDown id x y w | _ => w end).
  assert (Hwf1 : wf w1).
  { subst w1. destruct (st_platform id w); auto using wf_onDown. }
  assert (Hm1 : is_mounted id w1 = true).
  { subst w1. destruct (st_platform id w); by rewrite ?is_mounted_onDown. }
  pose proof (wf_setTimeout (CbStart id) ACTIVE_DELAY w1 Hwf1) as Hwf2.
  unfold setTimeout in *. simpl in *.
  apply wf_insert_storage; simpl.
  - exact Hwf2.
  - done.
  - exact Hm1.
  - lia.
  - done.
  - intros t. rewrite lookup_insert_eq. by intros [= <-].
  - done.
Qed.

Lemma wf_onMove id sx sy w : wf w → wf (onMove id sx sy w).
Proof.
  intros Hwf. unfold onMove. destruct (_ || _); [|done].
  apply wf_stop. by apply wf_setField.
Qed.

Lemma wf_onEnd id touches w : wf w → wf (onEnd id touches w).
Proof.
  intros Hwf. unfold onEnd.
  destruct (more_touches_than 0 touches).
  { apply wf_stop. by apply wf_setField. }
  apply wf_setField; [done..|].
  destruct (st_active id w).
  - case_bool_decide; [by apply wf_stop|].
    pose proof (wf_setTimeout (CbStop id) (st_delay id w - now w + st_tsnum id w)
                  w Hwf) as Hwf1.
    unfold setTimeout, getStorage in *. simpl in *.
    destruct (storage w !! id) as [store|] eqn:Es; [|done].
    apply wf_record_release; simpl; auto.
    intros t. rewrite lookup_insert_eq. by intros [= <-].
  - destruct (negb (st_isSlide id w)); [|done].
    pose proof (wf_start id w Hwf) as Hwf1.
    set (w1 := start id w) in *.
    pose proof (wf_setTimeout (CbStop id) (st_delay id w1) w1 Hwf1) as Hwf2.
    unfold setTimeout, getStorage in *. simpl in *.
    destruct (storage w1 !! id) as [store|] eqn:Es; [|by apply wf_setField].
    apply wf_record_release; simpl.
    + apply (wf_clearTimeout (Some (activeTimeout store))) in Hwf2. exact Hwf2.
    + done.
    + lia.
    + intros t [_ Ht]%lookup_delete_Some. rewrite lookup_insert_eq in Ht.
      by injection Ht as <-.
Qed.

Lemma wf_componentWillUnmount id w : wf w → wf (componentWillUnmount id w).
Proof.
  intros Hwf. unfold componentWillUnmount.
  set (w1 := match storage w !! id with Some _ => _ | None => w end).
  assert (Hwf1 : wf w1).
  { subst w1. destruct (storage w !! id) as [it|]; [|done].
    eapply shrinks_wf; [exact Hwf|].
    eapply shrinks_trans; [apply shrinks_clearTimeout|].
    eapply shrinks_trans; [apply shrinks_clearTimeout|apply shrinks_delete_storage]. }
  assert (Hgone : storage w1 !! id = None).
  { subst w1. destruct (storage w !! id) as [it|] eqn:E; [|done].
    destruct (timeout it); simpl; apply lookup_delete_eq. }
  set (w2 := clearTimeout _ w1).
  assert (Hwf2 : wf w2) by (by apply wf_clearTimeout).
  assert (Hgone2 : storage w2 !! id = None).
  { subst w2. by destruct (read wavesTimeout None id w1). }
  apply (wf_mono w2); simpl; auto.
  - intros id' it Hl. unfold is_mounted, read, setField. simpl.
    rewrite lookup_alter_ne by congruence. by eapply (wf_mounted w2).
  - intros id' i' h. by apply alter_waves.
Qed.

Lemma wf_run_cb c w : wf w → wf (run_cb c w).
Proof. destruct c; simpl; auto using wf_start, wf_stop, wf_setState. Qed.

Lemma wf_fire h w : wf w → wf (fire h w).
Proof.
  intros Hwf. unfold fire. destruct (timers w !! h) as [t|]; [|done].
  case_bool_decide; [|done]. apply wf_run_cb.
  by apply (wf_clearTimeout (Some h)).
Qed.

Lemma wf_step w e : wf w → wf (step w e).
Proof.
  intros Hwf. destruct e; simpl; unfold when_mounted.
  - destruct (instances w !! id) eqn:Ei; [done|].
    apply (wf_mono w); simpl; auto.
    + intros id' it Hl. unfold is_mounted, read. simpl.
      rewrite lookup_insert. case_decide; [done|]. by eapply (wf_mounted w).
    + intros id' i' h. rewrite lookup_insert.
      case_decide; intros; simplify_eq/=. eauto.
  - destruct (is_mounted id w); auto using wf_componentWillUnmount.
  - destruct (is_mounted id w) eqn:Hm; auto using wf_onStart.
  - destruct (is_mounted id w); auto using wf_onMove.
  - destruct (is_mounted id w); auto using wf_onEnd.
  - by apply wf_fire.
  - apply (wf_mono w); simpl; auto.
    + intros id it Hl. change (is_mounted id w = true). by eapply wf_mounted.
    + eauto.
  - by apply wf_setState.
  - destruct (is_mounted id w); auto using wf_setState.
  - destruct (is_mounted id w); auto using wf_setState.
Qed.

Lemma wf_run tr : ∀ w, wf w → wf (run tr w).
Proof.
  induction tr as [|e tr IH]; intros w Hwf; simpl; [done|].
  apply IH. by apply wf_step.
Qed.

Lemma wf_reachable tr : wf (run tr init).
Proof. apply wf_run, wf_init. Qed.

(** ** The purge of [deactivateOtherInstances] *)

Lemma elem_of_keys id w : id ∈ keys w ↔ is_Some (storage w !! id).
Proof.
  unfold keys. rewrite list_elem_of_fmap. split.
  - intros ([k v] & -> & Hin). apply elem_of_map_to_list in Hin. by eexists.
  - intros [v Hv]. exists (id, v). split; [done|]. by apply elem_of_map_to_list.
Qed.

Lemma purge_one_storage w id : wf w → storage (purge_one w id) = delete id (storage w).
Proof.
  intros Hwf. unfold purge_one. destruct (storage w !! id) as [it|] eqn:E.
  - simpl. rewrite stop_storage. rewrite (wf_owner w Hwf id it E).
    destruct (timeout it); simpl; apply delete_delete_eq.
  - by rewrite delete_id.
Qed.

Lemma purge_one_cancels w id it :
  storage w !! id = Some it →
  timers (purge_one w id) !! activeTimeout it = None ∧
  (∀ h, timeout it = Some h → timers (purge_one w id) !! h = None).
Proof.
  intros E. unfold purge_one. rewrite E. simpl.
  set (w2 := clearTimeout (timeout it) _).
  pose proof (sh_timers _ _ (shrinks_stop (stop_cb it) w2)) as Hsub.
  split.
  - eapply lookup_weaken_None; [|exact Hsub].
    subst w2. destruct (timeout it); simpl.
    + rewrite lookup_delete_None. right. apply lookup_delete_eq.
    + apply lookup_delete_eq.
  - intros h Hh. eapply lookup_weaken_None; [|exact Hsub].
    subst w2. rewrite Hh. simpl. apply lookup_delete_eq.
Qed.

Lemma purge_one_inactive w id :
  wf w → is_Some (storage w !! id) → isActive id (purge_one w id) = false.
Proof.
  intros Hwf [it E]. unfold purge_one. rewrite E.
  rewrite (wf_owner w Hwf id it E).
  change (isActive id (stop id (clearTimeout (timeout it)
            (clearTimeout (Some (activeTimeout it)) w))) = false).
  apply stop_inactive.
Qed.

Lemma purge_one_other w id id' :
  wf w → id ≠ id' → instances (purge_one w id) !! id' = instances w !! id'.
Proof.
  intros Hwf Hne. unfold purge_one. destruct (storage w !! id) as [it|] eqn:E; [|done].
  rewrite (wf_owner w Hwf id it E). simpl. rewrite stop_other by done.
  by destruct (timeout it).
Qed.

Lemma wf_purge_one w id : wf w → wf (purge_one w id).
Proof. intros. eapply shrinks_wf; [done|apply shrinks_purge_one]. Qed.

Lemma purge_storage l : ∀ w id, wf w →
  storage (foldl purge_one w l) !! id = if decide (id ∈ l) then None else storage w !! id.
Proof.
  induction l as [|a l IH]; intros w id Hwf; cbn [foldl].
  - rewrite decide_False; [done|apply not_elem_of_nil].
  - rewrite IH by (by apply wf_purge_one). rewrite purge_one_storage by done.
    destruct (decide (id ∈ l)) as [Hin|Hnin].
    + rewrite decide_True; [done|]. by apply elem_of_cons; right.
    + destruct (decide (id = a)) as [->|Hne].
      * rewrite decide_True by (apply elem_of_cons; by left). apply lookup_delete_eq.
      * rewrite decide_False by (rewrite elem_of_cons; intros [?|?]; done).
        by rewrite lookup_delete_ne.
Qed.

Lemma purge_cancels l : ∀ w id it, wf w → id ∈ l → storage w !! id = Some it →
  timers (foldl purge_one w l) !! activeTimeout it = None ∧
  (∀ h, timeout it = Some h → timers (foldl purge_one w l) !! h = None) ∧
  isActive id (foldl purge_one w l) = false.
Proof.
  induction l as [|a l IH]; intros w id it Hwf Hin E; [by apply elem_of_nil in Hin|].
  simpl. pose proof (wf_purge_one w a Hwf) as Hwf1.
  pose proof (shrinks_purge l (purge_one w a)) as Hsh.
  destruct (decide (id = a)) as [->|Hne].
  - destruct (purge_one_cancels w a it E) as [Ha Hr].
    split; [|split].
    + eapply lookup_weaken_None; [exact Ha|apply Hsh].
    + intros h Hh. eapply lookup_weaken_None; [by apply Hr|apply Hsh].
    + destruct (isActive a (foldl purge_one (purge_one w a) l)) eqn:Hact; [|done].
      apply (shrinks_isActive _ _ _ Hsh) in Hact.
      rewrite purge_one_inactive in Hact; [done|done|by eexists].
  - apply IH; [done| |].
    + apply elem_of_cons in Hin as [?|?]; [done|done].
    + rewrite purge_one_storage by done. by rewrite lookup_delete_ne.
Qed.

Lemma purge_instances l : ∀ w id, wf w → id ∉ l →
  instances (foldl purge_one w l) !! id = instances w !! id.
Proof.
  induction l as [|a l IH]; intros w id Hwf Hnin; simpl; [done|].
  apply not_elem_of_cons in Hnin as [Hne Hnin].
  rewrite IH by (by auto using wf_purge_one). by apply purge_one_other.
Qed.

Lemma elem_of_purged ex id w :
  id ∈ filter (λ id, Some id ≠ ex) (keys w) ↔ Some id ≠ ex ∧ is_Some (storage w !! id).
Proof. by rewrite list_elem_of_filter, elem_of_keys. Qed.

Lemma deactivate_storage ex w id :
  wf w →
  storage (deactivateOtherInstances ex w) !! id =
  if decide (Some id = ex) then storage w !! id else None.
Proof.
  intros Hwf. unfold deactivateOtherInstances. rewrite purge_storage by done.
  destruct (decide (Some id = ex)) as [He|He].
  - rewrite decide_False; [done|]. rewrite elem_of_purged. by intros [? _].
  - destruct (storage w !! id) as [it|] eqn:E.
    + rewrite decide_True; [done|]. rewrite elem_of_purged. split; [done|by eexists].
    + by case_decide.
Qed.

Lemma deactivate_cancels ex w id it :
  wf w → Some id ≠ ex → storage w !! id = Some it →
  timers (deactivateOtherInstances ex w) !! activeTimeout it = None ∧
  (∀ h, timeout it = Some h → timers (deactivateOtherInstances ex w) !! h = None) ∧
  isActive id (deactivateOtherInstances ex w) = false.
Proof.
  intros Hwf He E. apply purge_cancels; [done| |done].
  rewrite elem_of_purged. split; [done|by eexists].
Qed.

Lemma deactivate_excluded w id :
  wf w →
  instances (deactivateOtherInstances (Some id) w) !! id = instances w !! id.
Proof.
  intros Hwf. apply purge_instances; [done|].
  rewrite elem_of_purged. by intros [? _].
Qed.

(** ** [start] *)

Lemma start_now id w : now (start id w) = now w.
Proof.
  unfold start. rewrite (sh_now _ _ (shrinks_deactivateOtherInstances _ _)).
  by destruct (negb _ && _).
Qed.

Lemma start_next_handle id w : next_handle (start id w) = next_handle w.
Proof.
  unfold start. rewrite (sh_next _ _ (shrinks_deactivateOtherInstances _ _)).
  by destruct (negb _ && _).
Qed.

Lemma start_timers_sub id w : timers (start id w) ⊆ timers w.
Proof.
  unfold start. etrans; [apply (sh_timers _ _ (shrinks_deactivateOtherInstances _ _))|].
  by destruct (negb _ && _).
Qed.

Lemma start_storage id w id' :
  wf w →
  storage (start id w) !! id' = if decide (id' = id) then storage w !! id' else None.
Proof.
  intros Hwf. unfold start. rewrite deactivate_storage.
  - destruct (decide (Some id' = Some id)) as [[= ->]|Hne].
    + rewrite decide_True by done. by destruct (negb _ && _).
    + rewrite decide_False by congruence. done.
  - destruct (negb _ && _); [by apply wf_setState|done].
Qed.

(** [start] writes [active] and [ts] only. *)
Lemma start_read {A} (g : Instance → A) d id id' w :
  (∀ i a t, g (with_state (set_active a t) i) = g i) →
  read g d id' (start id w) = read g d id' w.
Proof.
  intros Hg. unfold start.
  rewrite (shrinks_read g d id' _ _ (λ i, Hg i false None)
             (shrinks_deactivateOtherInstances _ _)).
  destruct (negb _ && _); [|done]. by rewrite read_setState.
Qed.

Lemma start_active id w :
  wf w → is_mounted id w = true → st_hasActive id w = true →
  isActive id (start id w) = true ∧
  (st_active id w = false →
   read (λ i, st_ts (state i)) None id (start id w) = Some (now w)).
Proof.
  intros Hwf Hm Hh. unfold isActive, is_mounted.
  rewrite start_read by done. fold (is_mounted id w). rewrite Hm. simpl.
  unfold start, st_active, read. rewrite Hh, andb_true_r.
  set (w1 := if negb _ then _ else w).
  assert (Hwf1 : wf w1) by (subst w1; destruct (negb _); auto using wf_setState).
  rewrite deactivate_excluded by done. subst w1.
  unfold is_mounted, read in Hm.
  destruct (instances w !! id) as [i|] eqn:Ei; [|done]. simpl in Hm. simpl.
  destruct (active (state i)) eqn:Ha; simpl.
  - rewrite Ei. simpl. by rewrite Ha.
  - rewrite lookup_alter_eq, Ei. simpl. by rewrite Hm.
Qed.

Lemma start_others_off id id' w :
  wf w → id' ≠ id → is_Some (storage w !! id') → isActive id' (start id w) = false.
Proof.
  intros Hwf Hne [it E]. unfold start.
  set (w1 := if negb _ && _ then _ else w).
  assert (Hwf1 : wf w1) by (subst w1; destruct (negb _ && _); auto using wf_setState).
  assert (E1 : storage w1 !! id' = Some it) by (subst w1; by destruct (negb _ && _)).
  apply (deactivate_cancels (Some id) w1 id' it Hwf1); [congruence|done].
Qed.

Lemma start_activates_no_other id id' w :
  id' ≠ id → isActive id' (start id w) = true → isActive id' w = true.
Proof.
  intros Hne Ha. unfold start in Ha.
  apply (shrinks_isActive _ _ _ (shrinks_deactivateOtherInstances _ _)) in Ha.
  destruct (negb _ && _); [|done].
  unfold isActive, is_mounted, st_active, read, setState in *. simpl in Ha.
  by rewrite lookup_alter_ne in Ha.
Qed.

(** ** Release of an instance that is not active *)

(** C5, amended.  In every reachable world, a release with no contact
    point left and no drag, on a mounted instance that is not active and
    has activation enabled: when [onEnd] returns the instance is active
    since now and [this.stop] is scheduled with the delay
    [activeEffectDelay], that is exactly [activeEffectDelay] later when
    that is a number from 0 to 2^31 - 1.  If the instance has an entry in
    [storage], the activation timer of the entry is no longer pending and
    the entry records the new timer; if it has none, it gets none and the
    new timer is kept in [this.timeout]. *)
Theorem early_release_activates_inactive
    (tr : list Event) (id : InstanceId) (touches : option nat) :
  let w := run tr init in
  is_mounted id w = true →
  st_active id w = false →
  st_hasActive id w = true →
  st_isSlide id w = false →
  more_touches_than 0 touches = false →
  let w' := onEnd id touches w in
  isActive id w' = true ∧
  read (λ i, st_ts (state i)) None id w' = Some (now w) ∧
  timers w' !! next_handle w
    = Some (mkTimer (now w + timeout_ms (st_delay id w)) (CbStop id)) ∧
  (0 ≤ st_delay id w < 2 ^ 31 →
     timers w' !! next_handle w = Some (mkTimer (now w + st_delay id w) (CbStop id))) ∧
  (∀ it, storage w !! id = Some it →
     timers w' !! activeTimeout it = None ∧
     storage w' !! id = Some (mkItem (activeTimeout it) (Some (next_handle w)) id)) ∧
  (storage w !! id = None →
     storage w' !! id = None ∧ read this_timeout None id w' = Some (next_handle w)).
Proof.
  intros w Hm Ha Hh Hsl Ht w'. subst w'.
  assert (Hwf : wf w) by apply wf_reachable.
  unfold onEnd. rewrite Ht, Ha, Hsl. simpl.
  pose proof (wf_start id w Hwf) as Hwf1.
  pose proof (start_storage id w id Hwf) as Es1. rewrite decide_True in Es1 by done.
  pose proof (start_next_handle id w) as Hn1.
  pose proof (start_now id w) as Hnow1.
  assert (Hd : st_delay id (start id w) = st_delay id w) by (by apply start_read).
  destruct (start_active id w Hwf Hm Hh) as [Hact Hts]. specialize (Hts Ha).
  set (w1 := start id w) in *.
  unfold setTimeout, getStorage. simpl. rewrite Es1.
  destruct (storage w !! id) as [own|] eqn:Es.
  - pose proof (wf_active_lt w Hwf id own Es) as Hlt.
    pose proof (wf_owner w Hwf id own Es) as Ho.
    split; [|split; [|split; [|split; [|split]]]].
    + by rewrite isActive_setField_isSlide.
    + by rewrite read_setField.
    + simpl. rewrite lookup_delete_ne by lia. rewrite Hn1, lookup_insert_eq.
      by rewrite Hnow1, Hd.
    + intros Hr.
      replace (now w + st_delay id w) with (now w + timeout_ms (st_delay id w))
        by (by rewrite timeout_ms_in_range).
      simpl. rewrite lookup_delete_ne by lia. rewrite Hn1, lookup_insert_eq.
      by rewrite Hnow1, Hd.
    + intros it [= <-]. split.
      * simpl. apply lookup_delete_eq.
      * simpl. rewrite lookup_insert_eq. unfold set_timeout. by rewrite Hn1, Ho.
    + done.
  - split; [|split; [|split; [|split; [|split]]]].
    + rewrite isActive_setField_isSlide. unfold isActive, is_mounted, st_active.
      by rewrite !read_setField.
    + by rewrite !read_setField.
    + simpl. rewrite Hn1, lookup_insert_eq. by rewrite Hnow1, Hd.
    + intros Hr.
      replace (now w + st_delay id w) with (now w + timeout_ms (st_delay id w))
        by (by rewrite timeout_ms_in_range).
      simpl. rewrite Hn1, lookup_insert_eq. by rewrite Hnow1, Hd.
    + done.
    + intros _. split; [exact Es1|].
      rewrite read_setField by done. unfold read, setField. simpl.
      rewrite lookup_alter_eq.
      unfold isActive, is_mounted, read in Hact.
      destruct (instances w1 !! id) as [i|]; [|done]. simpl. by rewrite Hn1.
Qed.

Lemma early_release_activates_inactive_witness :
  let w := run [Mount "a" defaultProps; GestureStart "a" None 0 0; Elapse 10] init in
  let w' := onEnd "a" None w in
  storage w !! "a" = Some (mkItem 0 None "a") ∧ st_active "a" w = false ∧
  isActive "a" w' = true ∧ timers w' !! 0%nat = None ∧
  timers w' !! 1%nat = Some (mkTimer 610 (CbStop "a")).
Proof.
  intros w w'.
  destruct (early_release_activates_inactive
              [Mount "a" defaultProps; GestureStart "a" None 0 0; Elapse 10]
              "a" None eq_refl eq_refl eq_refl eq_refl eq_refl)
    as (H1 & _ & _ & H4 & H5 & _).
  assert (Hr : 0 ≤ st_delay "a" w < 2 ^ 31) by (by vm_compute).
  destruct (H5 (mkItem 0 None "a") eq_refl) as [H3 _].
  exact (conj eq_refl (conj eq_refl (conj H1 (conj H3 (H4 Hr))))).
Defined.

(** ** A press with more than one contact point *)

(** C7, amended.  In every reachable world, [onStart] reporting more than
    one contact point on an instance with activation enabled empties
    [storage] (so the pressed instance has no entry either); both timers
    of every former entry are cancelled and its instance is inactive; the
    handler activates no instance and schedules no timer. *)
Theorem multi_touch_start_purges
    (tr : list Event) (id : InstanceId) (n : nat) (x y : Z) :
  let w := run tr init in
  st_hasActive id w = true →
  (1 < n)%nat →
  let w' := onStart id (Some n) x y w in
  storage w' = ∅ ∧
  (∀ id' it, storage w !! id' = Some it →
     timers w' !! activeTimeout it = None ∧
     (∀ h, timeout it = Some h → timers w' !! h = None) ∧
     isActive id' w' = false) ∧
  (∀ id', isActive id' w' = true → isActive id' w = true) ∧
  timers w' ⊆ timers w ∧ next_handle w' = next_handle w.
Proof.
  intros w Hh Hn w'. subst w'.
  assert (Hwf : wf w) by apply wf_reachable.
  unfold onStart. rewrite Hh. simpl. rewrite bool_decide_eq_true_2 by done.
  pose proof (shrinks_deactivateOtherInstances None w) as Hsh.
  split; [|split; [|split; [|split]]].
  - apply map_empty. intros id'. by rewrite deactivate_storage.
  - intros id' it Es. by apply deactivate_cancels.
  - intros id'. by apply shrinks_isActive.
  - apply Hsh.
  - apply Hsh.
Qed.

Lemma multi_touch_start_purges_witness :
  let w := run (mount_ab ++ tap "b" 10 ++ [Elapse 10; GestureStart "a" None 0 0;
                Elapse 10]) init in
  let w' := onStart "a" (Some 2%nat) 0 0 w in
  st_hasActive "a" w = true ∧ isActive "b" w = true ∧
  storage w !! "a" = Some (mkItem 2 None "a") ∧
  storage w' = ∅ ∧ timers w' !! 2%nat = None ∧ isActive "b" w' = false.
Proof.
  intros w w'.
  destruct (multi_touch_start_purges
              (mount_ab ++ tap "b" 10 ++ [Elapse 10; GestureStart "a" None 0 0;
                Elapse 10]) "a" 2 0 0 eq_refl ltac:(lia))
    as (Hempty & Hall & _).
  destruct (Hall "a" (mkItem 2 None "a") eq_refl) as (Hta & _ & _).
  destruct (Hall "b" (mkItem 0 (Some 1%nat) "b") eq_refl) as (_ & _ & Hb).
  exact (conj eq_refl (conj eq_refl (conj eq_refl (conj Hempty (conj Hta Hb))))).
Defined.

(** ** What [stop] leaves alone *)

(** C10.  In every reachable world, [stop] on an instance with an entry
    cancels the activation timer of the entry and deletes the entry; a
    pending release timer recorded in an entry stays pending through
    [stop] of any instance; and when a timer running [this.stop] fires
    for an instance that is inactive and has no entry, the world is the
    one before with that timer gone. *)
Theorem stop_keeps_release_timer (tr : list Event) (id : InstanceId) (it : StorageItem) :
  let w := run tr init in
  storage w !! id = Some it →
  (timers (stop id w) !! activeTimeout it = None ∧ storage (stop id w) !! id = None) ∧
  (∀ hr t id', timeout it = Some hr → timers w !! hr = Some t →
     timers (stop id' w) !! hr = Some t ∧ cb t = CbStop id) ∧
  (∀ w' hr t, timers w' !! hr = Some t → cb t = CbStop id → due t ≤ now w' →
     st_active id w' = false → storage w' !! id = None →
     fire hr w' = with_timers (delete hr) w').
Proof.
  intros w Es. assert (Hwf : wf w) by apply wf_reachable.
  split; [|split].
  - rewrite stop_timers, stop_storage, Es. split; apply lookup_delete_eq.
  - intros hr t id' Hr Ht.
    pose proof (wf_release_cb w Hwf id it hr t Es Hr Ht) as Hcb.
    split; [|done]. rewrite stop_timers.
    destruct (storage w !! id') as [it'|] eqn:Es'; [|done].
    rewrite lookup_delete_ne; [done|]. intros Heq.
    rewrite <-Heq in Ht.
    pose proof (wf_active_cb w Hwf id' it' t Es' Ht). congruence.
  - intros w' hr t Ht Hcb Hdue Ha Hs. unfold fire. rewrite Ht.
    rewrite bool_decide_eq_true_2 by done. rewrite Hcb. simpl.
    unfold stop, getStorage.
    change (st_active id (with_timers (delete hr) w')) with (st_active id w').
    rewrite Ha. simpl. by rewrite Hs.
Qed.

Lemma stop_keeps_release_timer_witness :
  let w := run ([Mount "a" defaultProps; GestureStart "a" None 0 0; Elapse 70;
                 TimerFires 0%nat; Elapse 30; GestureEnd "a" None; Elapse 10]) init in
  storage w !! "a" = Some (mkItem 0 (Some 1%nat) "a") ∧
  timers w !! 1%nat = Some (mkTimer 670 (CbStop "a")) ∧
  storage (stop "a" w) !! "a" = None ∧
  timers (stop "a" w) !! 1%nat = Some (mkTimer 670 (CbStop "a")).
Proof.
  intros w.
  destruct (stop_keeps_release_timer
              [Mount "a" defaultProps; GestureStart "a" None 0 0; Elapse 70;
               TimerFires 0%nat; Elapse 30; GestureEnd "a" None; Elapse 10]
              "a" (mkItem 0 (Some 1%nat) "a") eq_refl)
    as ((_ & Hgone) & Hkeep & _).
  destruct (Hkeep 1%nat (mkTimer 670 (CbStop "a")) "a" eq_refl eq_refl) as [Hk _].
  exact (conj eq_refl (conj eq_refl (conj Hgone Hk))).
Defined.

(** ** Entries stay alive *)

Lemma live_mono w w' :
  live w →
  (∀ id it, storage w' !! id = Some it →
     storage w !! id = Some it ∧
     st_hasActive id w' = st_hasActive id w ∧
     (st_active id w = true → st_active id w' = true) ∧
     (is_Some (timers w !! activeTimeout it) →
      st_active id w' = true ∨ is_Some (timers w' !! activeTimeout it))) →
  live w'.
Proof.
  intros Hl H id it Es. destruct (H id it Es) as (Es0 & Hh & Ha & Ht).
  destruct (Hl id it Es0) as [Ha0|[Hh0 Ht0]]; [by auto|].
  destruct (Ht Ht0) as [?|?]; [by left|]. right. split; [congruence|done].
Qed.

(** Changes that leave [storage], [active] and [hasActive] alone and
    cancel no timer. *)
Lemma live_grow w w' :
  live w →
  storage w' = storage w →
  (∀ id, st_hasActive id w' = st_hasActive id w) →
  (∀ id, st_active id w' = st_active id w) →
  (∀ h, is_Some (timers w !! h) → is_Some (timers w' !! h)) →
  live w'.
Proof.
  intros Hl Hs Hh Ha Ht. apply (live_mono w); [done|].
  intros id it Es. rewrite Hs in Es. rewrite Hh, Ha.
  repeat split; auto.
Qed.

Lemma live_setField id f w :
  (∀ i, state (f i) = state i) → live w → live (setField id f w).
Proof.
  intros Hf Hl. apply (live_grow w); auto.
  - intros id'. unfold st_hasActive. apply read_setField. intros i. by rewrite Hf.
  - intros id'. unfold st_active. apply read_setField. intros i. by rewrite Hf.
Qed.

Lemma live_setState id f w :
  (∀ s, active (f s) = active s) → (∀ s, hasActive (f s) = hasActive s) →
  live w → live (setState id f w).
Proof.
  intros Hfa Hfh Hl. apply (live_grow w); auto.
  - intros id'. unfold st_hasActive. apply read_setState. intros i. simpl. apply Hfh.
  - intros id'. unfold st_active. apply read_setState. intros i. simpl. apply Hfa.
Qed.

Lemma live_setTimeout c d w : live w → live (setTimeout c d w).2.
Proof.
  intros Hl. apply (live_grow w); auto. simpl.
  intros h Hs. rewrite lookup_insert_is_Some. destruct (decide (next_handle w = h)); auto.
Qed.

(** Cancelling a timer that is no pending activation of an entry. *)
Lemma live_delete_timer h w :
  wf w → live w →
  (∀ t id, timers w !! h = Some t → cb t ≠ CbStart id) →
  live (with_timers (delete h) w).
Proof.
  intros Hwf Hl Hh. apply (live_mono w); [done|]. simpl.
  intros id it Es. repeat split; auto.
  intros [t Ht]. right. rewrite lookup_delete_is_Some. split; [|by eexists].
  intros ->. eapply Hh; [done|]. by eapply wf_active_cb.
Qed.

Lemma live_stop id w : wf w → live w → live (stop id w).
Proof.
  intros Hwf Hl. apply (live_mono w); [done|].
  intros id' it'. rewrite stop_storage. intros [Hne Es']%lookup_delete_Some.
  split; [done|]. split; [by apply shrinks_hasActive, shrinks_stop|].
  unfold st_active, read. rewrite stop_other by done. split; [done|].
  intros [t Ht]. right. rewrite stop_timers.
  destruct (storage w !! id) as [it|] eqn:Es; [|by eexists].
  rewrite lookup_delete_is_Some. split; [|by eexists].
  intros Heq. rewrite <-Heq in Ht.
  pose proof (wf_active_cb w Hwf id it t Es Ht) as Hc.
  rewrite Heq in Ht.
  pose proof (wf_active_cb w Hwf id' it' t Es' Ht) as Hc'. congruence.
Qed.

Lemma start_stays_active id w :
  wf w → st_active id w = true → st_active id (start id w) = true.
Proof.
  intros Hwf Ha. unfold start. rewrite Ha. simpl.
  unfold st_active, read in *. by rewrite deactivate_excluded.
Qed.

Lemma live_start id w :
  wf w →
  (∀ it, storage w !! id = Some it →
     st_active id w = true ∨ st_hasActive id w = true) →
  live (start id w).
Proof.
  intros Hwf Hh id' it. rewrite start_storage by done.
  case_decide; [subst|done]. intros Es. left.
  pose proof (wf_mounted w Hwf id it Es) as Hm.
  destruct (Hh it Es) as [Ha|Hha]; [by apply start_stays_active|].
  destruct (start_active id w Hwf Hm Hha) as [Ha _].
  unfold isActive in Ha. by apply andb_true_iff in Ha as [_ ?].
Qed.

Lemma live_empty w : storage w = ∅ → live w.
Proof. intros He id it. by rewrite He, lookup_empty. Qed.

Lemma live_onDown id x y w : live w → live (onDown id x y w).
Proof.
  intros Hl. unfold onDown. destruct (st_platform id w); try done.
  set (w1 := setState id _ w).
  assert (Hl1 : live w1) by (by apply live_setState).
  pose proof (live_setTimeout (CbWave id (now w)) 225 w1 Hl1) as Hl2.
  unfold setTimeout in *. simpl in *. by apply live_setField.
Qed.

Lemma st_hasActive_onDown id id' x y w :
  st_hasActive id' (onDown id x y w) = st_hasActive id' w.
Proof.
  unfold onDown. destruct (st_platform id w); try done.
  unfold st_hasActive, setTimeout. simpl. rewrite read_setField by done.
  change (read (λ i, hasActive (state i)) false id'
            (setState id (set_clicks <[now w:=(x, y)]>) w)
          = read (λ i, hasActive (state i)) false id' w).
  by rewrite read_setState.
Qed.

Lemma live_onStart id touches x y w :
  wf w → live w → live (onStart id touches x y w).
Proof.
  intros Hwf Hl. unfold onStart. destruct (st_hasActive id w) eqn:Hh; [|done].
  destruct (more_touches_than 1 touches).
  { apply live_empty, map_empty. intros id'. by rewrite deactivate_storage. }
  set (w1 := match st_platform id w with ANDROID => onDown id x y w | _ => w end).
  assert (Hl1 : live w1).
  { subst w1. destruct (st_platform id w); auto using live_onDown. }
  assert (Hh1 : st_hasActive id w1 = true).
  { subst w1. destruct (st_platform id w); by rewrite ?st_hasActive_onDown. }
  pose proof (live_setTimeout (CbStart id) ACTIVE_DELAY w1 Hl1) as Hl2.
  unfold setTimeout in *. simpl in *.
  intros id' it. simpl. rewrite lookup_insert.
  case_decide; [subst id'|by apply Hl2].
  intros [= <-]. simpl. right. split; [exact Hh1|]. rewrite lookup_insert_eq. by eexists.
Qed.

Lemma live_onMove id sx sy w : wf w → live w → live (onMove id sx sy w).
Proof.
  intros Hwf Hl. unfold onMove. destruct (_ || _); [|done].
  apply live_stop; [by apply wf_setField|by apply live_setField].
Qed.

(** Replacing an entry by one with the same activation handle. *)
Lemma live_record_release id h store w :
  live w → storage w !! id = Some store →
  live (with_storage (<[id := set_timeout (Some h) store]>) w).
Proof.
  intros Hl Es id' it. simpl. rewrite lookup_insert.
  case_decide; [subst id'|by apply Hl]. intros [= <-]. simpl. by apply Hl.
Qed.

Lemma live_onEnd id touches w : wf w → live w → live (onEnd id touches w).
Proof.
  intros Hwf Hl. unfold onEnd.
  destruct (more_touches_than 0 touches).
  { apply live_stop; [by apply wf_setField|by apply live_setField]. }
  apply live_setField; [done|].
  destruct (st_active id w) eqn:Hoff.
  - case_bool_decide; [by apply live_stop|].
    pose proof (live_setTimeout (CbStop id) (st_delay id w - now w + st_tsnum id w)
                  w Hl) as Hl1.
    unfold setTimeout, getStorage in *. simpl in *.
    destruct (storage w !! id) as [store|] eqn:Es; [|done].
    by apply live_record_release.
  - destruct (negb (st_isSlide id w)); [|done].
    assert (Hl1 : live (start id w)).
    { apply live_start; [done|]. intros it Es.
      destruct (Hl id it Es) as [?|[? _]]; auto. }
    pose proof (wf_start id w Hwf) as Hwf1.
    pose proof (start_storage id w) as Hst.
    set (w1 := start id w) in *.
    pose proof (live_setTimeout (CbStop id) (st_delay id w1) w1 Hl1) as Hl2.
    unfold setTimeout, getStorage in *. simpl in *.
    destruct (storage w1 !! id) as [store|] eqn:Es; [|by apply live_setField].
    intros id' it. simpl. rewrite lookup_insert.
    case_decide; [subst id'|].
    + intros [= <-]. simpl. left.
      (* the entry survived [start]: its owner is active *)
      pose proof (Hst id Hwf) as Hs. rewrite decide_True in Hs by done.
      rewrite Es in Hs. symmetry in Hs.
      pose proof (wf_mounted w Hwf id store Hs) as Hm.
      destruct (Hl id store Hs) as [Hon|[Hh0 _]]; [congruence|].
      destruct (start_active id w Hwf Hm Hh0) as [Ha _].
      unfold isActive in Ha. by apply andb_true_iff in Ha as [_ ?].
    + intros Es'. rewrite Hst in Es' by done. by rewrite decide_False in Es'.
Qed.

Lemma live_componentWillUnmount id w :
  wf w → live w → live (componentWillUnmount id w).
Proof.
  intros Hwf Hl. apply (live_mono w); [done|].
  intros id' it'. unfold componentWillUnmount.
  set (w1 := match storage w !! id with Some _ => _ | None => w end).
  set (w2 := clearTimeout _ w1). simpl.
  assert (Hs1 : storage w1 = delete id (storage w)).
  { subst w1. destruct (storage w !! id) as [it|] eqn:Es.
    - by destruct (timeout it).
    - by rewrite delete_id. }
  assert (Hs2 : storage w2 = delete id (storage w)).
  { subst w2. by destruct (read wavesTimeout None id w1). }
  assert (Hi2 : instances w2 = instances w).
  { subst w2 w1. destruct (read wavesTimeout None id _);
      destruct (storage w !! id) as [it|]; try done; by destruct (timeout it). }
  rewrite Hs2. intros [Hne Es']%lookup_delete_Some.
  split; [done|].
  unfold st_hasActive, st_active, read, setField. simpl.
  rewrite lookup_alter_ne, Hi2 by done. split; [done|]. split; [done|].
  intros [t Ht]. right. exists t.
  pose proof (wf_active_cb w Hwf id' it' t Es' Ht) as Hcb.
  assert (Ht1 : timers w1 !! activeTimeout it' = Some t).
  { subst w1. destruct (storage w !! id) as [it|] eqn:Es; [|done]. simpl.
    assert (activeTimeout it ≠ activeTimeout it').
    { intros Heq. rewrite <-Heq in Ht.
      pose proof (wf_active_cb w Hwf id it t Es Ht). congruence. }
    destruct (timeout it) as [hr|] eqn:Er; simpl;
      rewrite lookup_delete_ne by done; [|done].
    rewrite lookup_delete_ne; [done|]. intros Heq. rewrite <-Heq in Ht.
    pose proof (wf_release_cb w Hwf id it hr t Es Er Ht). congruence. }
  subst w2. destruct (read wavesTimeout None id w1) as [hw|] eqn:Ew; [|done].
  simpl. rewrite lookup_delete_ne; [done|]. intros Heq. rewrite <-Heq in Ht.
  assert (Hi1 : instances w1 = instances w).
  { subst w1. destruct (storage w !! id) as [it|]; [|done]. by destruct (timeout it). }
  unfold read in Ew. rewrite Hi1 in Ew.
  destruct (instances w !! id) as [i|] eqn:Ei; [|done]. simpl in Ew.
  destruct (wf_waves_cb w Hwf id i hw t Ei Ew Ht) as [k Hk]. congruence.
Qed.

Lemma live_fire h w : wf w → live w → live (fire h w).
Proof.
  intros Hwf Hl. unfold fire. destruct (timers w !! h) as [t|] eqn:Ht; [|done].
  case_bool_decide; [|done].
  pose proof (wf_clearTimeout (Some h) w Hwf) as Hwf1. simpl in Hwf1.
  destruct (cb t) as [id|id|id k] eqn:Hcb; simpl.
  - apply live_start; [done|]. intros it Es.
    destruct (Hl id it Es) as [?|[? _]]; auto.
  - apply live_stop; [done|]. apply live_delete_timer; [done..|].
    intros t' id' Ht'. congruence.
  - apply live_setState; [done..|]. apply live_delete_timer; [done..|].
    intros t' id' Ht'. congruence.
Qed.

Lemma live_setCapabilities id hh ha w :
  live w →
  (ha = false → storage w !! id = None ∨ st_active id w = true) →
  live (setState id (set_capabilities hh ha) w).
Proof.
  intros Hl Hsafe id' it Es.
  assert (Hact : st_active id' (setState id (set_capabilities hh ha) w)
                 = st_active id' w).
  { unfold st_active. by rewrite read_setState. }
  rewrite Hact. destruct (Hl id' it Es) as [Ha|[Hh Ht]]; [by left|].
  destruct (decide (id' = id)) as [->|Hne].
  - destruct ha.
    + right. split; [|done].
      unfold st_hasActive, read, setState in *. simpl. rewrite lookup_alter_eq.
      destruct (instances w !! id) as [i|]; [|done]. simpl in *. by destruct (mounted i).
    + destruct (Hsafe eq_refl) as [Hnone|Ha]; [|by left].
      simpl in Es. congruence.
  - right. split; [|done].
    unfold st_hasActive, read, setState in *. simpl. by rewrite lookup_alter_ne.
Qed.

Lemma live_step w e :
  wf w → live w → no_press_disarmed [e] w = true → live (step w e).
Proof.
  intros Hwf Hl Hcap. destruct e; simpl; unfold when_mounted; try done.
  - destruct (instances w !! id) eqn:Ei; [done|].
    apply (live_mono w); [done|]. simpl. intros id' it Es.
    assert (id ≠ id').
    { intros ->. pose proof (wf_mounted w Hwf id' it Es) as Hm.
      unfold is_mounted, read in Hm. by rewrite Ei in Hm. }
    unfold st_hasActive, st_active, read. simpl.
    rewrite lookup_insert_ne by done. auto.
  - destruct (is_mounted id w); auto using live_componentWillUnmount.
  - destruct (is_mounted id w); auto using live_onStart.
  - destruct (is_mounted id w); auto using live_onMove.
  - destruct (is_mounted id w); auto using live_onEnd.
  - by apply live_fire.
  - apply live_setCapabilities; [done|]. intros ->.
    simpl in Hcap. rewrite andb_true_r in Hcap.
    destruct (storage w !! id); auto.
  - destruct (is_mounted id w); auto using live_setState.
  - destruct (is_mounted id w); auto using live_setState.
Qed.

Lemma live_run tr : ∀ w,
  wf w → live w → no_press_disarmed tr w = true → live (run tr w).
Proof.
  induction tr as [|e tr IH]; intros w Hwf Hl Hcap; simpl; [done|].
  simpl in Hcap. apply andb_true_iff in Hcap as [He Htr].
  apply IH; [by apply wf_step| |done].
  apply live_step; [done..|]. simpl. by rewrite He.
Qed.

(** Without an event that writes [hasHover] and [hasActive] no press is
    disarmed. *)
Lemma no_capability_events_safe tr : ∀ w,
  no_capability_events tr = true → no_press_disarmed tr w = true.
Proof.
  induction tr as [|e tr IH]; intros w Hcap; [done|]. simpl in *.
  apply andb_true_iff in Hcap as [He Htr]. rewrite IH by done.
  by destruct e.
Qed.

(** ** An entry has a pending activation or an active owner *)

(** C2, amended.  In every world reached without switching [hasActive] of
    an instance off between a press of that instance and its activation
    (the instance has an entry in [storage] and is not active), an
    instance with an entry in [storage] is active, or else the activation
    timer recorded in its entry is pending and will run [this.start] of
    that instance.  (The converse is not claimed.) *)
Theorem entry_is_pending_or_active
    (tr : list Event) (id : InstanceId) (it : StorageItem) :
  let w := run tr init in
  no_press_disarmed tr init = true →
  storage w !! id = Some it →
  isActive id w = true ∨
  (∃ t, timers w !! activeTimeout it = Some t ∧ cb t = CbStart id).
Proof.
  intros w Hcap Es.
  assert (Hwf : wf w) by apply wf_reachable.
  assert (Hl : live w).
  { apply live_run; [apply wf_init| |done]. by apply live_empty. }
  destruct (Hl id it Es) as [Ha|[_ [t Ht]]].
  - left. unfold isActive. by rewrite (wf_mounted w Hwf id it Es), Ha.
  - right. exists t. split; [done|]. by eapply wf_active_cb.
Qed.

Lemma entry_is_pending_or_active_witness :
  let tr := [Mount "a" defaultProps; Mount "b" defaultProps;
             SetCapabilities "a" false false; HoverEnter "b";
             GestureStart "b" None 0 0; Elapse 30] in
  let w := run tr init in
  st_hasActive "a" w = false ∧
  storage w !! "b" = Some (mkItem 0 None "b") ∧
  (isActive "b" w = true ∨
   (∃ t, timers w !! 0%nat = Some t ∧ cb t = CbStart "b")).
Proof.
  intros tr w. split; [reflexivity|]. split; [reflexivity|].
  exact (entry_is_pending_or_active tr "b" (mkItem 0 None "b") eq_refl eq_refl).
Defined.

(** ** The loop of [deactivateOtherInstances] never reads a missing entry *)

Lemma purge_defined_all l : ∀ w,
  wf w → NoDup l → (∀ id, id ∈ l → is_Some (storage w !! id)) →
  purge_defined w l = true.
Proof.
  induction l as [|a l IH]; intros w Hwf Hnd Hin; simpl; [done|].
  apply NoDup_cons in Hnd as [Ha Hnd].
  rewrite bool_decide_eq_true_2 by (apply Hin; by left). simpl.
  apply IH; [by apply wf_purge_one|done|].
  intros id Hid. rewrite purge_one_storage by done.
  rewrite lookup_delete_ne by (by intros ->). apply Hin. by right.
Qed.

(** X25.  In every reachable world, each round of the loop of
    [deactivateOtherInstances] finds the entry it reads: the rounds before
    it removed other keys only, so [storage[id].activeTimeout] never reads
    from [undefined]. *)
Lemma deactivate_defined ex tr :
  let w := run tr init in
  purge_defined w (filter (λ id, Some id ≠ ex) (keys w)) = true.
Proof.
  intros w. apply purge_defined_all.
  - apply wf_reachable.
  - apply NoDup_filter, NoDup_fst_map_to_list.
  - intros id Hid. by apply elem_of_purged in Hid as [_ ?].
Qed.

(** ** Mutual exclusion holds as far as [storage] knows the active ones *)

Lemma isActive_ext w w' :
  instances w = instances w' → ∀ id, isActive id w = isActive id w'.
Proof. intros E id. unfold isActive, is_mounted, st_active, read. by rewrite E. Qed.

Lemma quiet_refl w : quiet w w.
Proof. by intros id. Qed.

Lemma quiet_trans w1 w2 w3 : quiet w1 w2 → quiet w2 w3 → quiet w1 w3.
Proof. intros H1 H2 id Ha. by apply H1, H2. Qed.

Lemma quiet_ext w w' : instances w = instances w' → quiet w w'.
Proof. intros E id. by rewrite (isActive_ext w w' E). Qed.

Lemma quiet_shrinks w w' : shrinks w w' → quiet w w'.
Proof. intros Hs id. by apply shrinks_isActive. Qed.

Lemma quiet_setField id f w :
  (∀ i, state (f i) = state i) → (∀ i, mounted (f i) = true → mounted i = true) →
  quiet w (setField id f w).
Proof.
  intros Hs Hm id'. unfold isActive, is_mounted, st_active, read, setField. simpl.
  rewrite lookup_alter. case_decide; [subst|done].
  destruct (instances w !! id') as [i|]; simpl; [|done].
  rewrite Hs. intros [H1 H2]%andb_true_iff. by rewrite (Hm i H1), H2.
Qed.

Lemma quiet_setState id f w :
  (∀ s, active (f s) = active s) → quiet w (setState id f w).
Proof.
  intros Hf id'. unfold isActive, is_mounted, st_active.
  rewrite !read_setState; [done|by intros i; simpl|done].
Qed.

Lemma quiet_onDown id x y w : quiet w (onDown id x y w).
Proof.
  unfold onDown. destruct (st_platform id w); try apply quiet_refl.
  eapply quiet_trans; [by apply (quiet_setState id (set_clicks <[now w:=(x, y)]>))|].
  unfold setTimeout. simpl.
  eapply quiet_trans; [|by apply quiet_setField]. by apply quiet_ext.
Qed.

Lemma started_start id w : wf w → started id w (start id w).
Proof.
  intros Hwf id' Hne Ha. split; [by eapply start_activates_no_other|].
  destruct (storage w !! id') eqn:Es; [|done].
  rewrite start_others_off in Ha; [done..|by eexists].
Qed.

Lemma started_ext id w w1 w' :
  started id w w1 → instances w1 = instances w' → started id w w'.
Proof. intros H E id' Hne Ha. apply H; [done|]. by rewrite (isActive_ext w1 w' E). Qed.

(** Every step is quiet or is one run of [start]. *)
Lemma step_quiet_or_started w e :
  wf w → quiet w (step w e) ∨ ∃ id, started id w (step w e).
Proof.
  intros Hwf. destruct e; simpl; unfold when_mounted.
  - left. destruct (instances w !! id) eqn:Ei; [apply quiet_refl|].
    intros id'. unfold isActive, is_mounted, st_active, read. simpl.
    rewrite lookup_insert. case_decide; [subst; simpl|done]. done.
  - left. destruct (is_mounted id w); [|apply quiet_refl].
    unfold componentWillUnmount.
    set (w1 := match storage w !! id with Some _ => _ | None => w end).
    eapply quiet_trans; [|by apply quiet_setField].
    apply quiet_ext. destruct (read wavesTimeout None id w1); subst w1;
      destruct (storage w !! id) as [it|]; try done; by destruct (timeout it).
  - left. destruct (is_mounted id w); [|apply quiet_refl].
    unfold onStart. destruct (st_hasActive id w); [|apply quiet_refl].
    destruct (more_touches_than 1 touches).
    { apply quiet_shrinks, shrinks_deactivateOtherInstances. }
    set (w1 := match st_platform id w with ANDROID => onDown id x y w | _ => w end).
    assert (quiet w w1).
    { subst w1. destruct (st_platform id w); auto using quiet_onDown, quiet_refl. }
    eapply quiet_trans; [done|]. by apply quiet_ext.
  - left. destruct (is_mounted id w); [|apply quiet_refl].
    unfold onMove. destruct (_ || _); [|apply quiet_refl].
    eapply quiet_trans; [by apply (quiet_setField id (set_isSlide true))|].
    apply quiet_shrinks, shrinks_stop.
  - destruct (is_mounted id w); [|left; apply quiet_refl].
    unfold onEnd. destruct (more_touches_than 0 touches).
    { left. eapply quiet_trans; [by apply (quiet_setField id (set_isSlide false))|].
      apply quiet_shrinks, shrinks_stop. }
    destruct (st_active id w).
    + left. eapply quiet_trans; [|by apply quiet_setField].
      case_bool_decide; [apply quiet_shrinks, shrinks_stop|].
      unfold setTimeout, getStorage. simpl.
      destruct (storage w !! id); by apply quiet_ext.
    + destruct (negb (st_isSlide id w)).
      * right. exists id. intros id' Hne Ha.
        rewrite isActive_setField_isSlide in Ha.
        apply (started_start id w Hwf id' Hne).
        unfold setTimeout, getStorage in Ha. simpl in Ha.
        destruct (storage (start id w) !! id); [done|].
        unfold isActive, is_mounted, st_active, read, setField in Ha. simpl in Ha.
        by rewrite lookup_alter_ne in Ha.
      * left. by apply quiet_setField.
  - unfold fire. destruct (timers w !! h) as [t|]; [|left; apply quiet_refl].
    case_bool_decide; [|left; apply quiet_refl].
    pose proof (wf_clearTimeout (Some h) w Hwf) as Hwf1. simpl in Hwf1.
    destruct (cb t) as [id|id|id k]; simpl.
    + right. exists id. intros id' Hne Ha.
      by apply (started_start id _ Hwf1 id' Hne).
    + left. eapply quiet_trans; [|apply quiet_shrinks, shrinks_stop]. by apply quiet_ext.
    + left. eapply quiet_trans; [|by apply quiet_setState]. by apply quiet_ext.
  - left. by apply quiet_ext.
  - left. by apply quiet_setState.
  - left. destruct (is_mounted id w); [by apply quiet_setState|apply quiet_refl].
  - left. destruct (is_mounted id w); [by apply quiet_setState|apply quiet_refl].
Qed.

(** If every active instance has an entry, a step leaves at most one
    instance active.  The scenario of C1 leaves this path when [onEnd]
    activates an instance that has no entry. *)
Lemma exclusive_while_registered w e :
  wf w → active_registered w → at_most_one_active w →
  at_most_one_active (step w e).
Proof.
  intros Hwf Hreg Hone.
  destruct (step_quiet_or_started w e Hwf) as [Hq|[id Hs]].
  - intros id1 id2 H1 H2. apply Hone; by apply Hq.
  - assert (Honly : ∀ id', isActive id' (step w e) = true → id' = id).
    { intros id' Ha. destruct (decide (id' = id)) as [|Hne]; [done|].
      destruct (Hs id' Hne Ha) as [Hb Hnone].
      destruct (Hreg id' Hb) as [it Hit]. congruence. }
    intros id1 id2 H1 H2. by rewrite (Honly id1 H1), (Honly id2 H2).
Qed.

(** ** What unmounting and dragging do clear *)

(** X27.  [componentWillUnmount] removes the entry of the instance,
    cancels the timers the entry and [wavesTimeout] record, and leaves the
    instance unmounted. *)
Lemma unmount_clears_recorded id w :
  let w' := componentWillUnmount id w in
  storage w' !! id = None ∧ is_mounted id w' = false ∧
  (∀ it, storage w !! id = Some it →
     timers w' !! activeTimeout it = None ∧
     (∀ h, timeout it = Some h → timers w' !! h = None)) ∧
  (∀ h, read wavesTimeout None id w = Some h → timers w' !! h = None).
Proof.
  intros w'. subst w'. unfold componentWillUnmount.
  set (w1 := match storage w !! id with Some _ => _ | None => w end).
  set (w2 := clearTimeout _ w1).
  assert (Hsh1 : shrinks w w1).
  { subst w1. destruct (storage w !! id); [|apply shrinks_refl].
    eapply shrinks_trans; [apply shrinks_clearTimeout|].
    eapply shrinks_trans; [apply shrinks_clearTimeout|apply shrinks_delete_storage]. }
  assert (Hsh2 : shrinks w1 w2) by apply shrinks_clearTimeout.
  assert (Hw : read wavesTimeout None id w1 = read wavesTimeout None id w).
  { by apply shrinks_read. }
  split; [|split; [|split]].
  - simpl. eapply lookup_weaken_None; [|apply (sh_storage _ _ Hsh2)].
    subst w1. destruct (storage w !! id) as [it|] eqn:Es; [|done].
    simpl. apply lookup_delete_eq.
  - unfold is_mounted, read, setField. simpl. rewrite lookup_alter_eq.
    by destruct (instances w2 !! id).
  - intros it Es. simpl.
    assert (H1 : timers w1 !! activeTimeout it = None ∧
                 ∀ h, timeout it = Some h → timers w1 !! h = None).
    { subst w1. rewrite Es. simpl. split; [apply lookup_delete_eq|].
      intros h Hh. rewrite Hh. simpl. rewrite lookup_delete_None. right.
      apply lookup_delete_eq. }
    destruct H1 as [Ha Hr]. split.
    + eapply lookup_weaken_None; [exact Ha|apply (sh_timers _ _ Hsh2)].
    + intros h Hh. eapply lookup_weaken_None; [by apply Hr|apply (sh_timers _ _ Hsh2)].
  - intros h Hh. simpl. subst w2. rewrite Hw, Hh. simpl. apply lookup_delete_eq.
Qed.

(** X28.  A move beyond 20 units leaves the instance inactive and
    sliding, with its entry gone and the activation timer of that entry
    cancelled. *)
Lemma drag_stops id sx sy w :
  20 < sx ∨ 20 < sy →
  is_mounted id w = true →
  let w' := onMove id sx sy w in
  isActive id w' = false ∧ st_isSlide id w' = true ∧ storage w' !! id = None ∧
  (∀ it, storage w !! id = Some it → timers w' !! activeTimeout it = None).
Proof.
  intros Hmove Hm w'. subst w'. unfold onMove.
  assert ((bool_decide (20 < sx) || bool_decide (20 < sy)) = true) as ->.
  { apply orb_true_iff. destruct Hmove; [left|right]; by apply bool_decide_eq_true_2. }
  split; [apply stop_inactive|]. split; [|split].
  - rewrite (shrinks_isSlide id _ _ (shrinks_stop _ _)).
    unfold st_isSlide, is_mounted, read, setField in *. simpl.
    rewrite lookup_alter_eq. by destruct (instances w !! id).
  - rewrite stop_storage. apply lookup_delete_eq.
  - intros it Es. rewrite stop_timers. simpl. rewrite Es. apply lookup_delete_eq.
Qed.

(** ** The order of [Object.keys] does not matter *)

(** [keys] lists [storage] in the order of the map, not in the insertion
    order of [Object.keys].  The rounds of the purge commute, so the loop
    gives the same world in any order. *)

Lemma world_eq w w' :
  now w = now w' → next_handle w = next_handle w' → timers w = timers w' →
  storage w = storage w' → instances w = instances w' → w = w'.
Proof. destruct w, w'. simpl. by intros -> -> -> -> ->. Qed.

Lemma purge_one_timers w a h :
  wf w →
  timers (purge_one w a) !! h =
  match storage w !! a with
  | Some it =>
      if bool_decide (h = activeTimeout it ∨ timeout it = Some h) then None
      else timers w !! h
  | None => timers w !! h
  end.
Proof.
  intros Hwf. unfold purge_one. destruct (storage w !! a) as [it|] eqn:Es; [|done].
  set (w2 := clearTimeout (timeout it) (clearTimeout (Some (activeTimeout it)) w)).
  change (timers (stop (stop_cb it) w2) !! h = 
          if bool_decide (h = activeTimeout it ∨ timeout it = Some h) then None
          else timers w !! h).
  rewrite stop_timers, (wf_owner w Hwf a it Es).
  assert (storage w2 !! a = Some it) as -> by (subst w2; by destruct (timeout it)).
  rewrite lookup_delete. case_decide as Ha.
  { subst h. rewrite bool_decide_eq_true_2; auto. }
  subst w2. destruct (timeout it) as [hr|]; simpl.
  - rewrite !lookup_delete. case_decide as Hr.
    + subst h. rewrite bool_decide_eq_true_2; auto.
    + rewrite decide_False by done.
      rewrite bool_decide_eq_false_2; [done|]. intros [?|?]; congruence.
  - rewrite lookup_delete, decide_False by done.
    rewrite bool_decide_eq_false_2; [done|]. intros [?|?]; congruence.
Qed.

Lemma purge_one_instances w a id :
  wf w →
  instances (purge_one w a) !! id =
  if decide (id = a) then
    match storage w !! a with
    | Some _ => if st_active a w
                then (λ i, if mounted i then off i else i) <$> instances w !! a
                else instances w !! a
    | None => instances w !! a
    end
  else instances w !! id.
Proof.
  intros Hwf. case_decide as Hid; [subst id|by rewrite purge_one_other].
  unfold purge_one. destruct (storage w !! a) as [it|] eqn:Es; [|done].
  set (w2 := clearTimeout (timeout it) (clearTimeout (Some (activeTimeout it)) w)).
  change (instances (stop (stop_cb it) w2) !! a =
          if st_active a w
          then (λ i, if mounted i then off i else i) <$> instances w !! a
          else instances w !! a).
  assert (Hi : instances w2 = instances w) by (subst w2; by destruct (timeout it)).
  rewrite stop_instances, (wf_owner w Hwf a it Es).
  assert (st_active a w2 = st_active a w) as ->.
  { unfold st_active, read. by rewrite Hi. }
  rewrite Hi. destruct (st_active a w); [|done]. by rewrite lookup_alter_eq.
Qed.

Lemma purge_one_commute w a b :
  wf w → purge_one (purge_one w a) b = purge_one (purge_one w b) a.
Proof.
  intros Hwf. destruct (decide (a = b)) as [->|Hne]; [done|].
  pose proof (wf_purge_one w a Hwf) as Hwa.
  pose proof (wf_purge_one w b Hwf) as Hwb.
  assert (Hsa : storage (purge_one w a) !! b = storage w !! b).
  { rewrite purge_one_storage by done. by rewrite lookup_delete_ne. }
  assert (Hsb : storage (purge_one w b) !! a = storage w !! a).
  { rewrite purge_one_storage by done. by rewrite lookup_delete_ne. }
  assert (Hia : ∀ g d, read g d b (purge_one w a) = read (A:=bool) g d b w).
  { intros g d. unfold read. by rewrite purge_one_other. }
  assert (Hib : ∀ g d, read g d a (purge_one w b) = read (A:=bool) g d a w).
  { intros g d. unfold read. by rewrite purge_one_other. }
  apply world_eq.
  - by rewrite !(sh_now _ _ (shrinks_purge_one _ _)).
  - by rewrite !(sh_next _ _ (shrinks_purge_one _ _)).
  - apply map_eq. intros h. rewrite !purge_one_timers, Hsa, Hsb by done.
    destruct (storage w !! a) as [ia|], (storage w !! b) as [ib|];
      repeat case_bool_decide; done.
  - rewrite !purge_one_storage by done. apply delete_delete.
  - apply map_eq. intros id. rewrite !purge_one_instances, Hsa, Hsb by done.
    unfold st_active. rewrite Hia, Hib.
    repeat case_decide; congruence.
Qed.

Lemma purge_permutation l l' :
  l ≡ₚ l' → ∀ w, wf w → foldl purge_one w l = foldl purge_one w l'.
Proof.
  induction 1 as [|a l l' Hp IH|a b l|l1 l2 l3 Hp1 IH1 Hp2 IH2]; intros w Hwf; simpl.
  - done.
  - apply IH. by apply wf_purge_one.
  - by rewrite purge_one_commute.
  - by rewrite IH1, IH2.
Qed.

(** X26.  Whatever the order in which [Object.keys] lists the other
    entries, the loop ends in the world of [deactivateOtherInstances]. *)
Lemma deactivate_any_order ex tr l :
  let w := run tr init in
  l ≡ₚ filter (λ id, Some id ≠ ex) (keys w) →
  foldl purge_one w l = deactivateOtherInstances ex w.
Proof. intros w Hp. apply purge_permutation; [done|apply wf_reachable]. Qed.

(** * ChipsInput *)

Section ChipsInputFacts.

Context {Option Value : Type} `{EqDecision Value}.
Context (getOptionValue : Option → Value).
Context (getNewOptionData : option Value → Value → Option).
Context (of_string : string → Value) (trim : string → string).

Implicit Types (r s : @ChipsInput.Hook Option) (l : list Option) (o : Option).

Local Abbreviation others := (ChipsInput.others getOptionValue).
Local Abbreviation toggleOption := (ChipsInput.toggleOption getOptionValue).
Local Abbreviation removeOption := (ChipsInput.removeOption getOptionValue getNewOptionData).
Local Abbreviation addOptionFromInput :=
  (ChipsInput.addOptionFromInput getOptionValue getNewOptionData of_string trim).
Local Abbreviation values := (ChipsInput.values getOptionValue).

(** The [reduce] keeps, in order, the options with another value. *)
Lemma others_filter o l :
  others o l = filter (λ x, getOptionValue o ≠ getOptionValue x) l.
Proof.
  unfold ChipsInput.others.
  enough (Hgen : ∀ acc, foldl (λ acc option,
             if decide (getOptionValue o ≠ getOptionValue option)
             then acc ++ [option] else acc) acc l
           = acc ++ filter (λ x, getOptionValue o ≠ getOptionValue x) l)
    by apply (Hgen []).
  induction l as [|x l IH]; intros acc; simpl.
  - by rewrite app_nil_r.
  - rewrite IH, filter_cons. case_decide; [|done]. by rewrite <-app_assoc.
Qed.

Lemma value_not_in_others o l : getOptionValue o ∉ values (others o l).
Proof.
  rewrite others_filter. unfold ChipsInput.values.
  intros (x & Hx & Hin)%list_elem_of_fmap.
  apply list_elem_of_filter in Hin as [Hne _]. done.
Qed.

Lemma NoDup_values_others o l : NoDup (values l) → NoDup (values (others o l)).
Proof.
  rewrite others_filter. unfold ChipsInput.values.
  induction l as [|x l IH]; simpl; [done|].
  intros [Hx Hl]%NoDup_cons. rewrite filter_cons.
  case_decide; [|by apply IH]. simpl. apply NoDup_cons. split; [|by apply IH].
  intros (y & Hy & Hin)%list_elem_of_fmap.
  apply list_elem_of_filter in Hin as [_ Hin].
  apply Hx. apply list_elem_of_fmap. eauto.
Qed.

(** X1.  [toggleOption] keeps the values of the selected options distinct,
    whether it adds or removes, and the list grows by at most one. *)
Theorem toggleOption_keeps_values_distinct r s s' o value l :
  ChipsInput.selectedOptions r = Some l →
  NoDup (values l) →
  toggleOption r o value s = Some s' →
  ∃ l', ChipsInput.selectedOptions s' = Some l' ∧ NoDup (values l') ∧
        (length l' ≤ S (length l))%nat.
Proof.
  intros Hr Hnd Ht. unfold ChipsInput.toggleOption in Ht. rewrite Hr in Ht.
  injection Ht as <-. eexists. split; [done|]. split.
  - unfold ChipsInput.values. rewrite fmap_app. apply NoDup_app. split; [|split].
    + by apply NoDup_values_others.
    + intros v Hv Hin. case_decide; simpl in Hin.
      * apply list_elem_of_singleton in Hin as ->.
        by apply (value_not_in_others o l).
      * by apply elem_of_nil in Hin.
    + case_decide; simpl; [apply NoDup_singleton|apply NoDup_nil_2].
  - rewrite length_app, others_filter.
    pose proof (length_filter (λ x, getOptionValue o ≠ getOptionValue x) l).
    case_decide; simpl; lia.
Qed.

(** X2.  Adding an option puts it last and drops every option that had
    its value, also when the values were not distinct before; the others
    keep their order. *)
Theorem addOption_moves_to_end r s s' o l :
  ChipsInput.selectedOptions r = Some l →
  ChipsInput.addOption getOptionValue r o s = Some s' →
  ChipsInput.selectedOptions s' =
    Some (filter (λ x, getOptionValue o ≠ getOptionValue x) l ++ [o]) ∧
  (getOptionValue o
     ∉ ChipsInput.values getOptionValue
         (filter (λ x, getOptionValue o ≠ getOptionValue x) l)) ∧
  ChipsInput.fieldValue s' = ChipsInput.fieldValue s.
Proof.
  intros Hr Ht. unfold ChipsInput.addOption, ChipsInput.toggleOption in Ht.
  rewrite Hr in Ht. injection Ht as <-. simpl.
  rewrite others_filter. split; [done|]. split; [|done].
  rewrite <-others_filter. apply value_not_in_others.
Qed.

(** X3.  After a render has taken up the new state, adding the same option
    again changes nothing, and removing it gives what removing it in the
    first place would have given. *)
Theorem add_then_toggle_again s s1 o :
  ChipsInput.addOption getOptionValue s o s = Some s1 →
  (∀ s2, ChipsInput.addOption getOptionValue s1 o s1 = Some s2 →
     ChipsInput.selectedOptions s2 = ChipsInput.selectedOptions s1) ∧
  (∀ s2 s3, toggleOption s1 o (Some false) s1 = Some s2 →
     toggleOption s o (Some false) s = Some s3 →
     ChipsInput.selectedOptions s2 = ChipsInput.selectedOptions s3).
Proof.
  unfold ChipsInput.addOption, ChipsInput.toggleOption.
  destruct (ChipsInput.selectedOptions s) as [l|] eqn:Hs; [|done].
  intros [= <-]. simpl.
  assert (Hoo : others o (others o l ++ [o]) = others o l).
  { rewrite !others_filter, filter_app, filter_cons.
    rewrite decide_False; [|by intros ?].
    rewrite filter_nil, app_nil_r. rewrite list_filter_filter.
    apply list_filter_iff. intros x. tauto. }
  split.
  - intros s2 [= <-]. simpl. by rewrite Hoo.
  - intros s2 s3 [= <-] [= <-]. simpl. by rewrite Hoo.
Qed.



(** X6.  Two calls of [toggleOption] from one render do not add up: the
    second starts again from the options of that render, so the selected
    options are those of the second call alone, while [onChange] has been
    called for both. *)
Theorem toggles_of_one_render r s s1 s2 o1 o2 v1 v2 :
  toggleOption r o1 v1 s = Some s1 →
  toggleOption r o2 v2 s1 = Some s2 →
  ∃ s2' l1 l2,
    toggleOption r o2 v2 s = Some s2' ∧
    ChipsInput.selectedOptions s2 = ChipsInput.selectedOptions s2' ∧
    ChipsInput.selectedOptions s1 = Some l1 ∧
    ChipsInput.selectedOptions s2 = Some l2 ∧
    ChipsInput.calls s2 =
      ChipsInput.calls s ++ [ChipsInput.OnChange l1; ChipsInput.OnChange l2].
Proof.
  unfold ChipsInput.toggleOption.
  destruct (ChipsInput.selectedOptions r) as [l|]; [|done].
  intros [= <-] [= <-]. do 3 eexists. split; [done|]. simpl.
  repeat split. by rewrite <-app_assoc.
Qed.

(** X7.  [addOptionFromInput] on a field with text: the option made from
    the trimmed text is selected last, the field is emptied, [onChange]
    is called before [onInputChange], the latter with the empty string; and
    once a render has taken up that state a second call does nothing. *)
Theorem addOptionFromInput_adds_and_clears r s s' t l :
  trim "" = "" →
  ChipsInput.fieldValue r = Some t →
  trim t ≠ "" →
  ChipsInput.selectedOptions r = Some l →
  addOptionFromInput r s = Some s' →
  let o := getNewOptionData None (of_string (trim t)) in
  ChipsInput.selectedOptions s' = Some (others o l ++ [o]) ∧
  ChipsInput.fieldValue s' = Some "" ∧
  ChipsInput.calls s' =
    ChipsInput.calls s ++
    [ChipsInput.OnChange (others o l ++ [o]); ChipsInput.OnInputChange ""] ∧
  addOptionFromInput s' s' = Some s'.
Proof.
  intros Htrim Hf Ht Hr Hadd o.
  unfold ChipsInput.addOptionFromInput, ChipsInput.addOption,
    ChipsInput.toggleOption in Hadd.
  rewrite Hf in Hadd. simpl in Hadd. rewrite decide_False in Hadd by done.
  rewrite Hr in Hadd. simpl in Hadd. injection Hadd as <-. simpl.
  repeat split.
  - by rewrite <-app_assoc.
  - unfold ChipsInput.addOptionFromInput. simpl. by rewrite Htrim, decide_True.
Qed.

End ChipsInputFacts.

(** The hook at options that are numbers and their own values. *)

Lemma toggleOption_keeps_values_distinct_witness :
  let r := ChipsInput.mkHook (Some "") (Some [1; 2; 3]%nat) [] in
  NoDup (ChipsInput.values id [1; 2; 3]%nat) ∧
  ∃ l', ChipsInput.selectedOptions
          (ChipsInput.call (ChipsInput.OnChange [1; 3; 2]%nat)
             (ChipsInput.setSelectedOptions (Some [1; 3; 2]%nat) r)) = Some l' ∧
        NoDup (ChipsInput.values id l') ∧ (length l' ≤ 4)%nat.
Proof.
  intros r.
  assert (Hnd : NoDup (ChipsInput.values id [1; 2; 3]%nat)).
  { apply (bool_decide_unpack _). by vm_compute. }
  split; [exact Hnd|].
  exact (toggleOption_keeps_values_distinct id r r _ 2%nat (Some true) [1; 2; 3]%nat
           eq_refl Hnd eq_refl).
Defined.

Lemma addOption_moves_to_end_witness :
  let r := ChipsInput.mkHook (Some "") (Some [1; 2; 3; 2]%nat) [] in
  ChipsInput.selectedOptions
    (ChipsInput.call (ChipsInput.OnChange [1; 3; 2]%nat)
       (ChipsInput.setSelectedOptions (Some [1; 3; 2]%nat) r)) = Some [1; 3; 2]%nat.
Proof.
  intros r.
  exact (proj1 (addOption_moves_to_end id r r _ 2%nat [1; 2; 3; 2]%nat
                  eq_refl eq_refl)).
Defined.

Lemma add_then_toggle_again_witness :
  let s := ChipsInput.mkHook (Some "") (Some [1; 2; 3]%nat) [] in
  let s1 := ChipsInput.mkHook (Some "") (Some [1; 3; 2]%nat)
              [ChipsInput.OnChange [1; 3; 2]%nat] in
  ChipsInput.addOption id s 2%nat s = Some s1 ∧
  ∀ s2, ChipsInput.addOption id s1 2%nat s1 = Some s2 →
        ChipsInput.selectedOptions s2 = ChipsInput.selectedOptions s1.
Proof.
  intros s s1. split; [reflexivity|].
  exact (proj1 (add_then_toggle_again id s s1 2%nat eq_refl)).
Defined.



Lemma toggles_of_one_render_witness :
  let r := ChipsInput.mkHook (Some "") (Some [1]%nat) [] in
  ∃ s2' l1 l2,
    ChipsInput.toggleOption id r 3%nat (Some true) r = Some s2' ∧
    Some [1; 3]%nat = ChipsInput.selectedOptions s2' ∧
    Some [1; 2]%nat = Some l1 ∧ Some [1; 3]%nat = Some l2 ∧
    [ChipsInput.OnChange [1; 2]%nat; ChipsInput.OnChange [1; 3]%nat] =
      [ChipsInput.OnChange l1; ChipsInput.OnChange l2].
Proof.
  intros r.
  exact (toggles_of_one_render id r r _ _ 2%nat 3%nat (Some true) (Some true)
           eq_refl eq_refl).
Defined.

Lemma addOptionFromInput_adds_and_clears_witness :
  let r := ChipsInput.mkHook (Some "abc") (Some [1; 2]%nat) [] in
  let s' := ChipsInput.mkHook (Some "") (Some [1; 2; 3]%nat)
              [ChipsInput.OnChange [1; 2; 3]%nat; ChipsInput.OnInputChange ""] in
  ChipsInput.addOptionFromInput id (λ _ v, v) String.length (λ t, t) r r = Some s' ∧
  ChipsInput.addOptionFromInput id (λ _ v, v) String.length (λ t, t) s' s' = Some s'.
Proof.
  intros r s'. split; [reflexivity|].
  refine (proj2 (proj2 (proj2 (addOptionFromInput_adds_and_clears
            id (λ _ v, v) String.length (λ t, t) r r s' "abc" [1; 2]%nat
            eq_refl eq_refl _ eq_refl eq_refl)))).
  discriminate.
Defined.

(** * useKeyboardInputTracker *)

Lemma tracker_snoc evs e :
  KeyboardInputTracker.useKeyboardInputTracker (evs ++ [e]) =
  KeyboardInputTracker.listen (KeyboardInputTracker.useKeyboardInputTracker evs) e.
Proof. unfold KeyboardInputTracker.useKeyboardInputTracker. by rewrite foldl_app. Qed.

(** X8.  The flag is off exactly when a mouse press or a touch has come
    with no Tab key press after it (in any letter case); other keys never
    change it, and it is on before any event. *)
Theorem keyboard_input_off_iff (evs : list KeyboardInputTracker.DocumentEvent) :
  KeyboardInputTracker.useKeyboardInputTracker evs = false ↔
  ∃ pre p post,
    evs = pre ++ p :: post ∧ KeyboardInputTracker.is_pointer p ∧
    Forall (λ e, ¬ KeyboardInputTracker.is_tab e) post.
Proof.
  induction evs as [|e evs IH] using rev_ind.
  - split; [done|]. intros (pre & p & post & Heq & _). by destruct pre.
  - rewrite tracker_snoc.
    assert (Hsplit : ∀ pre p post, evs ++ [e] = pre ++ p :: post →
              (post = [] ∧ p = e ∧ evs = pre) ∨
              (∃ post', post = post' ++ [e] ∧ evs = pre ++ p :: post')).
    { intros pre p post Heq. destruct post as [|q post _] using rev_ind.
      - left. apply app_inj_tail in Heq as [-> ->]. done.
      - right. exists post.
        change (evs ++ [e] = pre ++ (p :: post) ++ [q]) in Heq.
        rewrite app_assoc in Heq. apply app_inj_tail in Heq as [-> ->]. done. }
    destruct e as [key| |]; simpl.
    + destruct (decide (KeyboardInputTracker.toUpperCase key = "TAB")) as [Htab|Hno].
      * split; [done|]. intros (pre & p & post & Heq & Hp & Hpost).
        destruct (Hsplit _ _ _ Heq) as [(_ & -> & _)|(post' & -> & _)].
        -- by destruct Hp.
        -- apply Forall_app in Hpost as [_ Hlast].
           inversion Hlast as [|? ? Hn _]. exfalso. apply Hn. exists key. by split.
      * rewrite IH. split.
        -- intros (pre & p & post & -> & Hp & Hpost).
           exists pre, p, (post ++ [KeyboardInputTracker.KeyDown key]).
           split; [by rewrite <-app_assoc|]. split; [done|].
           apply Forall_app. split; [done|]. apply Forall_singleton.
           intros (k & [= <-] & ?). done.
        -- intros (pre & p & post & Heq & Hp & Hpost).
           destruct (Hsplit _ _ _ Heq) as [(_ & -> & _)|(post' & -> & ->)].
           ++ by destruct Hp.
           ++ apply Forall_app in Hpost as [Hpost _]. by exists pre, p, post'.
    + split; [|done]. intros _. exists evs, KeyboardInputTracker.MouseDown, [].
      split; [done|]. split; [by left|constructor].
    + split; [|done]. intros _. exists evs, KeyboardInputTracker.TouchStart, [].
      split; [done|]. split; [by right|constructor].
Qed.

Example keyboard_input_tracker_run :
  KeyboardInputTracker.useKeyboardInputTracker [] = true ∧
  KeyboardInputTracker.useKeyboardInputTracker
    [KeyboardInputTracker.MouseDown; KeyboardInputTracker.KeyDown "a"] = false ∧
  KeyboardInputTracker.useKeyboardInputTracker
    [KeyboardInputTracker.TouchStart; KeyboardInputTracker.KeyDown "Tab";
     KeyboardInputTracker.KeyDown "Enter"] = true ∧
  KeyboardInputTracker.toUpperCase "tab" = "TAB".
Proof. vm_compute. by repeat split. Qed.

(** * More on the registry of Tappable *)

(** X9.  In every reachable world an entry of [storage] is keyed by the id
    of a mounted instance and holds the [stop] of that instance, and its
    handles were issued by [setTimeout]: [deactivateOtherInstances] never
    calls into an unmounted component. *)
Theorem entries_belong_to_mounted (tr : list Event) (id : InstanceId) (it : StorageItem) :
  let w := run tr init in
  storage w !! id = Some it →
  is_mounted id w = true ∧ stop_cb it = id ∧
  (activeTimeout it < next_handle w)%nat ∧
  (∀ h, timeout it = Some h → (h < next_handle w)%nat).
Proof.
  intros w Es. pose proof (wf_reachable tr) as Hwf. fold w in Hwf.
  split; [by eapply wf_mounted|]. split; [by eapply wf_owner|].
  split; [by eapply wf_active_lt|]. intros h. by eapply wf_release_lt.
Qed.

Lemma entries_belong_to_mounted_witness :
  let w := run (mount_ab ++ tap "a" 10) init in
  storage w !! "a" = Some (mkItem 0 (Some 1%nat) "a") ∧
  is_mounted "a" w = true ∧ (0 < next_handle w)%nat.
Proof.
  intros w.
  destruct (entries_belong_to_mounted (mount_ab ++ tap "a" 10) "a"
              (mkItem 0 (Some 1%nat) "a") eq_refl) as (Hm & _ & Hlt & _).
  exact (conj eq_refl (conj Hm Hlt)).
Defined.

(** X10.  [start] always purges: whether or not it can activate its
    instance, afterwards no other instance has an entry, both timers of
    every entry it removed are cancelled and the owners are inactive; its
    own entry is untouched, no timer is scheduled, and no instance but
    its own can have become active. *)
Theorem start_purges_others (tr : list Event) (id : InstanceId) :
  let w := run tr init in
  let w' := start id w in
  (∀ id', id' ≠ id → storage w' !! id' = None) ∧
  storage w' !! id = storage w !! id ∧
  (∀ id' it, id' ≠ id → storage w !! id' = Some it →
     timers w' !! activeTimeout it = None ∧
     (∀ h, timeout it = Some h → timers w' !! h = None) ∧
     isActive id' w' = false) ∧
  (∀ id', id' ≠ id → isActive id' w' = true → isActive id' w = true) ∧
  timers w' ⊆ timers w ∧ next_handle w' = next_handle w.
Proof.
  intros w w'. subst w'. pose proof (wf_reachable tr) as Hwf. fold w in Hwf.
  split; [|split; [|split; [|split; [|split]]]].
  - intros id' Hne. rewrite start_storage by done. by rewrite decide_False.
  - rewrite start_storage by done. by rewrite decide_True.
  - intros id' it Hne Es. unfold start.
    set (w1 := if negb _ && _ then _ else w).
    assert (Hwf1 : wf w1) by (subst w1; destruct (negb _ && _); auto using wf_setState).
    assert (E1 : storage w1 !! id' = Some it) by (subst w1; by destruct (negb _ && _)).
    apply (deactivate_cancels (Some id) w1 id' it Hwf1); [congruence|done].
  - intros id' Hne. by apply start_activates_no_other.
  - apply start_timers_sub.
  - apply start_next_handle.
Qed.

Lemma start_purges_others_witness :
  let w := run (mount_ab ++ tap "a" 10 ++ [Elapse 20; SetCapabilities "b" true false])
             init in
  isActive "a" w = true ∧ st_hasActive "b" w = false ∧
  storage w !! "a" = Some (mkItem 0 (Some 1%nat) "a") ∧
  storage (start "b" w) !! "a" = None ∧ timers (start "b" w) !! 1%nat = None ∧
  isActive "a" (start "b" w) = false ∧ isActive "b" (start "b" w) = false.
Proof.
  intros w.
  destruct (start_purges_others
              (mount_ab ++ tap "a" 10 ++ [Elapse 20; SetCapabilities "b" true false])
              "b") as (Hgone & _ & Hcancel & _).
  destruct (Hcancel "a" (mkItem 0 (Some 1%nat) "a") ltac:(done) eq_refl)
    as (_ & Hrel & Hoff).
  exact (conj eq_refl (conj eq_refl (conj eq_refl
           (conj (Hgone "a" ltac:(done)) (conj (Hrel 1%nat eq_refl)
              (conj Hoff eq_refl)))))).
Defined.

Lemma active_registeredb_spec w :
  wf w → active_registeredb w = true → active_registered w.
Proof.
  intros Hwf Hb id Ha. unfold active_registeredb in Hb.
  rewrite forallb_forall in Hb.
  assert (Hin : id ∈ (map_to_list (instances w)).*1).
  { unfold isActive, is_mounted, read in Ha.
    destruct (instances w !! id) as [i|] eqn:Ei; [|done].
    apply list_elem_of_fmap. exists (id, i). split; [done|].
    by apply elem_of_map_to_list. }
  apply list_elem_of_In in Hin. specialize (Hb id Hin).
  rewrite Ha in Hb. simpl in Hb. by apply bool_decide_eq_true in Hb.
Qed.

Lemma exclusive_along tr : ∀ w,
  wf w → at_most_one_active w → registered_along tr w = true →
  at_most_one_active (run tr w).
Proof.
  induction tr as [|e tr IH]; intros w Hwf Hone Hreg; simpl; [done|].
  simpl in Hreg. apply andb_true_iff in Hreg as [Hb Hreg].
  apply IH; [by apply wf_step| |done].
  apply exclusive_while_registered; [done| |done].
  by apply active_registeredb_spec.
Qed.

(** X11.  Mutual exclusion as far as it goes: on a trace on which, at
    every point, each active instance has an entry in [storage], at most
    one instance is active at the end. *)
Theorem exclusive_on_registered_traces (tr : list Event) :
  registered_along tr init = true → at_most_one_active (run tr init).
Proof.
  intros Hreg. apply exclusive_along; [apply wf_init| |done].
  intros id1 id2 H1. by vm_compute in H1.
Qed.

Lemma exclusive_on_registered_traces_witness :
  let tr := mount_ab ++ tap "a" 10 ++ [Elapse 50] ++ tap "b" 10 in
  registered_along tr init = true ∧ at_most_one_active (run tr init).
Proof.
  intros tr. split; [by vm_compute|].
  apply (exclusive_on_registered_traces tr). by vm_compute.
Defined.

(** X12.  [stop] is idempotent: a second [stop] of the same instance
    changes nothing, in any world. *)
Theorem stop_idempotent (id : InstanceId) (w : World) : stop id (stop id w) = stop id w.
Proof.
  apply world_eq.
  - by rewrite !stop_now.
  - by rewrite !stop_next_handle.
  - rewrite (stop_timers id (stop id w)), stop_storage, lookup_delete_eq. done.
  - rewrite (stop_storage id (stop id w)), stop_storage. apply delete_delete_eq.
  - rewrite (stop_instances id (stop id w)).
    destruct (st_active id (stop id w)) eqn:Ha; [|done].
    apply alter_id. intros i Hi.
    pose proof (stop_inactive id w) as Hoff.
    unfold isActive, is_mounted, st_active, read in *. rewrite Hi in *. simpl in *.
    rewrite Ha, andb_true_r in Hoff. by rewrite Hoff.
Qed.

Lemma filter_none {A} (P : A → Prop) `{∀ x, Decision (P x)} (l : list A) :
  (∀ x, x ∈ l → ¬ P x) → filter P l = [].
Proof.
  induction l as [|x l IH]; intros Hl; [done|].
  rewrite filter_cons_False by (apply Hl; by left).
  apply IH. intros y Hy. apply Hl. by right.
Qed.

(** X13.  [deactivateOtherInstances] is idempotent in every reachable
    world, and leaves nothing in [storage] but the entry it was told to
    spare. *)
Theorem deactivateOtherInstances_idempotent (tr : list Event) (ex : option InstanceId) :
  let w' := deactivateOtherInstances ex (run tr init) in
  deactivateOtherInstances ex w' = w' ∧
  (∀ id, is_Some (storage w' !! id) → ex = Some id) ∧
  (∀ id, ex = Some id → storage w' !! id = storage (run tr init) !! id).
Proof.
  intros w'. subst w'. pose proof (wf_reachable tr) as Hwf.
  set (w := run tr init) in *.
  assert (Hleft : ∀ id, is_Some (storage (deactivateOtherInstances ex w) !! id) →
                        ex = Some id).
  { intros id. rewrite deactivate_storage by done.
    case_decide; [done|]. by intros [? ?]. }
  split; [|split; [done|]].
  - unfold deactivateOtherInstances at 1. rewrite filter_none; [done|].
    intros id Hin%elem_of_keys Hne. by rewrite (Hleft id Hin) in Hne.
  - intros id ->. rewrite deactivate_storage by done. by rewrite decide_True.
Qed.

Lemma deactivate_any_order_witness :
  let w := run (mount_ab ++ [GestureStart "a" None 0 0; GestureStart "b" None 0 0])
             init in
  keys w = ["a"; "b"] ∧
  foldl purge_one w ["b"; "a"] = deactivateOtherInstances None w.
Proof.
  intros w. split; [by vm_compute|].
  apply (deactivate_any_order None
           (mount_ab ++ [GestureStart "a" None 0 0; GestureStart "b" None 0 0])).
  assert (Hk : filter (λ id, Some id ≠ None) (keys w) = ["a"; "b"]) by (by vm_compute).
  change (["b"; "a"] ≡ₚ filter (λ id, Some id ≠ None) (keys w)).
  rewrite Hk. apply Permutation_swap.
Defined.

(** X14.  A release while contact points remain stops the instance: it is
    inactive, not sliding, has no entry, the activation timer of its
    entry is cancelled, and no timer was scheduled. *)
Theorem partial_release_stops (id : InstanceId) (touches : option nat) (w : World) :
  more_touches_than 0 touches = true →
  let w' := onEnd id touches w in
  isActive id w' = false ∧ st_isSlide id w' = false ∧ storage w' !! id = None ∧
  (∀ it, storage w !! id = Some it → timers w' !! activeTimeout it = None) ∧
  next_handle w' = next_handle w.
Proof.
  intros Ht w'. subst w'. unfold onEnd. rewrite Ht.
  split; [apply stop_inactive|]. split; [|split; [|split]].
  - rewrite (shrinks_isSlide id _ _ (shrinks_stop _ _)).
    unfold st_isSlide, read, setField. simpl.
    rewrite lookup_alter_eq. by destruct (instances w !! id).
  - rewrite stop_storage. apply lookup_delete_eq.
  - intros it Es. rewrite stop_timers. simpl. rewrite Es. apply lookup_delete_eq.
  - by rewrite stop_next_handle.
Qed.

Lemma partial_release_stops_witness :
  let w := run [Mount "a" defaultProps; GestureStart "a" (Some 1%nat) 0 0;
                Elapse 70; TimerFires 0%nat; Elapse 30] init in
  isActive "a" w = true ∧
  isActive "a" (onEnd "a" (Some 1%nat) w) = false ∧
  storage (onEnd "a" (Some 1%nat) w) !! "a" = None.
Proof.
  intros w.
  destruct (partial_release_stops "a" (Some 1%nat) w eq_refl) as (Hoff & _ & Hs & _).
  exact (conj eq_refl (conj Hoff Hs)).
Defined.

Lemma drag_stops_witness :
  let w := run [Mount "a" defaultProps; GestureStart "a" None 0 0; Elapse 70;
                TimerFires 0%nat; Elapse 30] init in
  isActive "a" w = true ∧ onMove "a" 20 20 w = w ∧
  isActive "a" (onMove "a" 0 21 w) = false ∧ st_isSlide "a" (onMove "a" 0 21 w) = true.
Proof.
  intros w.
  destruct (drag_stops "a" 0 21 w ltac:(right; lia) eq_refl) as (Hoff & Hsl & _).
  exact (conj eq_refl (conj eq_refl (conj Hoff Hsl))).
Defined.

Lemma unmount_clears_recorded_witness :
  let w := run ([Mount "a" (mkProps ANDROID 600 true true)] ++ tap "a" 10) init in
  storage w !! "a" = Some (mkItem 1 (Some 2%nat) "a") ∧
  read wavesTimeout None "a" w = Some 0%nat ∧
  timers (componentWillUnmount "a" w) = ∅.
Proof.
  intros w.
  destruct (unmount_clears_recorded "a" w) as (_ & _ & Hentry & Hwave).
  destruct (Hentry (mkItem 1 (Some 2%nat) "a") eq_refl) as [_ Hrel].
  pose proof (Hrel 2%nat eq_refl) as H2. pose proof (Hwave 0%nat eq_refl) as H0.
  split; [reflexivity|]. split; [reflexivity|].
  apply map_empty. intros h.
  destruct (decide (h = 2%nat)) as [->|?]; [exact H2|].
  destruct (decide (h = 0%nat)) as [->|?]; [exact H0|].
  destruct h as [|[|[|h]]]; try done.
Defined.

(** * What a step can do to an instance *)

Section InstanceInvariant.

(** A property of instances that every write of the component keeps:
    switching off, switching on where activation is enabled, adding a
    ripple on Android, removing a ripple, hovering, and the plain fields. *)
Variable J : InstanceId → Instance → Prop.
Hypothesis J_off : ∀ id i, J id i → J id (off i).
Hypothesis J_on : ∀ id i t,
  J id i → hasActive (state i) = true → J id (with_state (set_active true t) i).
Hypothesis J_click : ∀ id i k xy,
  J id i → platform (props i) = ANDROID →
  J id (with_state (set_clicks (<[k := xy]>)) i).
Hypothesis J_unclick : ∀ id i k, J id i → J id (with_state (set_clicks (delete k)) i).
Hypothesis J_hover : ∀ id i b, J id i → J id (with_state (set_hovered b) i).
Hypothesis J_field : ∀ id i (g : Instance → Instance),
  state (g i) = state i → props (g i) = props i → J id i → J id (g i).
Hypothesis J_new : ∀ id p, J id (construct p).

Lemma inst_inv_ext w w' : instances w' = instances w → inst_inv J w → inst_inv J w'.
Proof. intros E HJ id i. rewrite E. apply HJ. Qed.

Lemma inst_inv_setState id f w :
  (∀ i, instances w !! id = Some i → J id i → J id (with_state f i)) →
  inst_inv J w → inst_inv J (setState id f w).
Proof.
  intros Hf HJ id' i'. simpl. rewrite lookup_alter. case_decide; [subst|apply HJ].
  destruct (instances w !! id') as [i|] eqn:Ei; simpl; [|done].
  intros [= <-]. destruct (mounted i); auto.
Qed.

Lemma inst_inv_setField id g w :
  (∀ i, state (g i) = state i) → (∀ i, props (g i) = props i) →
  inst_inv J w → inst_inv J (setField id g w).
Proof.
  intros Hs Hp HJ id' i'. simpl. rewrite lookup_alter. case_decide; [subst|apply HJ].
  destruct (instances w !! id') as [i|] eqn:Ei; simpl; [|done].
  intros [= <-]. apply J_field; auto.
Qed.

Lemma inst_inv_shrinks w w' : shrinks w w' → inst_inv J w → inst_inv J w'.
Proof.
  intros Hs HJ id i' Hi'. destruct (sh_instances _ _ Hs id) as [E|E]; rewrite Hi' in E.
  - by apply HJ.
  - destruct (instances w !! id) as [i|] eqn:Ei; simplify_eq/=. apply J_off. by apply HJ.
Qed.

Lemma inst_inv_stop id w : inst_inv J w → inst_inv J (stop id w).
Proof. apply inst_inv_shrinks, shrinks_stop. Qed.

Lemma inst_inv_start id w : inst_inv J w → inst_inv J (start id w).
Proof.
  intros HJ. unfold start.
  eapply inst_inv_shrinks; [apply shrinks_deactivateOtherInstances|].
  destruct (negb (st_active id w) && st_hasActive id w) eqn:Hg; [|done].
  apply inst_inv_setState; [|done]. intros i Ei Hi. apply J_on; [done|].
  apply andb_true_iff in Hg as [_ Hh]. unfold st_hasActive, read in Hh.
  by rewrite Ei in Hh.
Qed.

Lemma inst_inv_onDown id x y w : inst_inv J w → inst_inv J (onDown id x y w).
Proof.
  intros HJ. unfold onDown. destruct (st_platform id w) eqn:Hp; try done.
  unfold setTimeout. simpl. apply inst_inv_setField; [done..|].
  eapply inst_inv_ext; [reflexivity|].
  apply inst_inv_setState; [|done]. intros i Ei Hi. apply J_click; [done|].
  unfold st_platform, read in Hp. by rewrite Ei in Hp.
Qed.

Lemma inst_inv_onStart id touches x y w :
  inst_inv J w → inst_inv J (onStart id touches x y w).
Proof.
  intros HJ. unfold onStart. destruct (st_hasActive id w); [|done].
  destruct (more_touches_than 1 touches).
  { eapply inst_inv_shrinks; [apply shrinks_deactivateOtherInstances|done]. }
  set (w1 := match st_platform id w with ANDROID => onDown id x y w | _ => w end).
  assert (inst_inv J w1).
  { subst w1. destruct (st_platform id w); auto using inst_inv_onDown. }
  by eapply inst_inv_ext.
Qed.

Lemma inst_inv_onMove id sx sy w : inst_inv J w → inst_inv J (onMove id sx sy w).
Proof.
  intros HJ. unfold onMove. destruct (_ || _); [|done].
  by apply inst_inv_stop, inst_inv_setField.
Qed.

Lemma inst_inv_onEnd id touches w : inst_inv J w → inst_inv J (onEnd id touches w).
Proof.
  intros HJ. unfold onEnd. destruct (more_touches_than 0 touches).
  { by apply inst_inv_stop, inst_inv_setField. }
  apply inst_inv_setField; [done..|].
  destruct (st_active id w).
  - case_bool_decide; [by apply inst_inv_stop|].
    unfold setTimeout, getStorage. simpl.
    destruct (storage w !! id); by eapply inst_inv_ext.
  - destruct (negb (st_isSlide id w)); [|done].
    pose proof (inst_inv_start id w HJ) as HJ1.
    unfold setTimeout, getStorage. simpl.
    destruct (storage (start id w) !! id).
    + by eapply inst_inv_ext.
    + apply inst_inv_setField; [done..|]. by eapply inst_inv_ext.
Qed.

Lemma inst_inv_componentWillUnmount id w :
  inst_inv J w → inst_inv J (componentWillUnmount id w).
Proof.
  intros HJ. unfold componentWillUnmount. apply inst_inv_setField; [done..|].
  eapply inst_inv_ext; [|exact HJ].
  destruct (read wavesTimeout None id _);
    destruct (storage w !! id) as [it|]; try done; by destruct (timeout it).
Qed.

Lemma inst_inv_fire h w : inst_inv J w → inst_inv J (fire h w).
Proof.
  intros HJ. unfold fire. destruct (timers w !! h) as [t|]; [|done].
  case_bool_decide; [|done].
  assert (HJ1 : inst_inv J (with_timers (delete h) w)) by (by eapply inst_inv_ext).
  destruct (cb t); simpl.
  - by apply inst_inv_start.
  - by apply inst_inv_stop.
  - apply inst_inv_setState; [|done]. intros i _ Hi. by apply J_unclick.
Qed.

Lemma inst_inv_step w e :
  no_capability_events [e] = true → inst_inv J w → inst_inv J (step w e).
Proof.
  intros Hcap HJ. destruct e; simpl; unfold when_mounted; try done.
  - destruct (instances w !! id) eqn:Ei; [done|].
    intros id' i'. simpl. rewrite lookup_insert. case_decide; [subst|apply HJ].
    intros [= <-]. apply J_new.
  - destruct (is_mounted id w); auto using inst_inv_componentWillUnmount.
  - destruct (is_mounted id w); auto using inst_inv_onStart.
  - destruct (is_mounted id w); auto using inst_inv_onMove.
  - destruct (is_mounted id w); auto using inst_inv_onEnd.
  - by apply inst_inv_fire.
  - destruct (is_mounted id w); [|done].
    apply inst_inv_setState; [|done]. intros i _ Hi. by apply J_hover.
  - destruct (is_mounted id w); [|done].
    apply inst_inv_setState; [|done]. intros i _ Hi. by apply J_hover.
Qed.

Lemma inst_inv_run tr : ∀ w,
  no_capability_events tr = true → inst_inv J w → inst_inv J (run tr w).
Proof.
  induction tr as [|e tr IH]; intros w Hcap HJ; simpl; [done|].
  simpl in Hcap. apply andb_true_iff in Hcap as [He Htr].
  apply IH; [done|]. apply inst_inv_step; [|done]. simpl. by rewrite He.
Qed.

(** With a property that does not look at the capabilities, every trace. *)
Lemma inst_inv_run_all tr : ∀ w,
  (∀ id i hh ha, J id i → J id (with_state (set_capabilities hh ha) i)) →
  inst_inv J w → inst_inv J (run tr w).
Proof.
  induction tr as [|e tr IH]; intros w Hcaps HJ; simpl; [done|].
  apply IH; [done|].
  destruct e; try (by apply inst_inv_step).
  simpl. apply inst_inv_setState; [|done]. intros i _ Hi. by apply Hcaps.
Qed.

End InstanceInvariant.



(** X16.  Ripples exist on Android only: on any other platform the
    [clicks] of an instance stay empty for ever. *)
Theorem ripples_only_on_android (tr : list Event) (id : InstanceId) (i : Instance) :
  instances (run tr init) !! id = Some i →
  platform (props i) ≠ ANDROID →
  clicks (state i) = ∅.
Proof.
  intros Ei.
  assert (HJ : inst_inv (λ _ i, platform (props i) ≠ ANDROID → clicks (state i) = ∅)
                 (run tr init)).
  { apply inst_inv_run_all.
    - intros _ j Hj. exact Hj.
    - intros _ j t Hj _. exact Hj.
    - intros _ j k xy _ Hp Hn. simpl in *. done.
    - intros _ j k Hj Hn. simpl in *. rewrite (Hj Hn). apply delete_empty.
    - intros _ j b Hj. exact Hj.
    - intros _ j g Hs Hpr Hj. simpl in *. by rewrite Hs, Hpr.
    - intros _ p _. done.
    - intros _ j hh ha Hj. exact Hj.
    - intros id' j Hj. simpl in Hj. by rewrite lookup_empty in Hj. }
  by apply (HJ id i).
Qed.

Lemma ripples_only_on_android_witness :
  let tr := [Mount "a" defaultProps] ++ tap "a" 10 in
  ∃ i, instances (run tr init) !! "a" = Some i ∧ clicks (state i) = ∅.
Proof.
  intros tr.
  destruct (instances (run tr init) !! "a") as [i|] eqn:Ei; [|by vm_compute in Ei].
  exists i. split; [done|].
  apply (ripples_only_on_android tr "a" i Ei).
  vm_compute in Ei. injection Ei as <-. done.
Defined.

(** * Ripples *)

Lemma same_ripples_refl w : same_ripples w w.
Proof. split; eauto. Qed.

Lemma same_ripples_trans w1 w2 w3 :
  same_ripples w1 w2 → same_ripples w2 w3 → same_ripples w1 w3.
Proof.
  intros [Hi1 Ht1] [Hi2 Ht2]. split.
  - intros id i3 E3 Hm3. destruct (Hi2 id i3 E3 Hm3) as (i2 & E2 & Hm2 & Hc2).
    destruct (Hi1 id i2 E2 Hm2) as (i1 & E1 & Hm1 & Hc1).
    exists i1. split; [done|]. split; [done|]. congruence.
  - intros h t id k Hm3 Ht Hcb. apply (Ht2 h t id k Hm3); [|done].
    apply (Ht1 h t id k); [|done..].
    unfold is_mounted, read in *.
    destruct (instances w3 !! id) as [i3|] eqn:E3; [|done]. simpl in Hm3.
    destruct (Hi2 id i3 E3 Hm3) as (i2 & -> & Hm2 & _). done.
Qed.

Lemma same_ripples_expire w w' : ripples_expire w → same_ripples w w' → ripples_expire w'.
Proof.
  intros Hr [Hi Ht] id i' key xy E' Hm' Hc.
  destruct (Hi id i' E' Hm') as (i & E & Hm & Hcl). rewrite Hcl in Hc.
  destruct (Hr id i key xy E Hm Hc) as (h & t & Hl & Hcb).
  exists h, t. split; [|done]. apply (Ht h t id key); [|done..].
  unfold is_mounted, read. by rewrite E'.
Qed.

(** The instances part, for worlds that shrink and for writes that leave
    [clicks] alone. *)
Lemma same_ripples_instances_shrinks w w' id i' :
  shrinks w w' → instances w' !! id = Some i' → mounted i' = true →
  ∃ i, instances w !! id = Some i ∧ mounted i = true ∧
       clicks (state i') = clicks (state i).
Proof.
  intros Hs E' Hm'. destruct (sh_instances _ _ Hs id) as [E|E]; rewrite E' in E.
  - eauto.
  - destruct (instances w !! id) as [i|]; simplify_eq/=. eauto.
Qed.

Lemma same_ripples_ext w w' :
  instances w' = instances w →
  (∀ h t id k, timers w !! h = Some t → cb t = CbWave id k → timers w' !! h = Some t) →
  same_ripples w w'.
Proof. intros Ei Ht. split; [rewrite Ei; eauto|eauto]. Qed.

Lemma same_ripples_setState id f w :
  (∀ s, clicks (f s) = clicks s) → same_ripples w (setState id f w).
Proof.
  intros Hf. split; [|done]. intros id' i'. simpl. rewrite lookup_alter.
  case_decide; [subst|by eauto].
  destruct (instances w !! id') as [i|]; simpl; [|done]. intros [= <-].
  destruct (mounted i) eqn:Hm; simpl; intros ?; exists i; rewrite ?Hf; auto.
Qed.

Lemma same_ripples_setField id g w :
  (∀ i, state (g i) = state i) → (∀ i, mounted (g i) = true → mounted i = true) →
  same_ripples w (setField id g w).
Proof.
  intros Hs Hm. split; [|done]. intros id' i'. simpl. rewrite lookup_alter.
  case_decide; [subst|by eauto].
  destruct (instances w !! id') as [i|]; simpl; [|done]. intros [= <-] Hmi.
  exists i. rewrite Hs. auto.
Qed.

Lemma same_ripples_setTimeout c d w : wf w → same_ripples w (setTimeout c d w).2.
Proof.
  intros Hwf. apply same_ripples_ext; [done|]. simpl. intros h t id k Ht _.
  rewrite lookup_insert_ne; [done|]. pose proof (wf_timers_lt w Hwf h t Ht). lia.
Qed.

(** Cancelling a timer that is no removal of a ripple. *)
Lemma same_ripples_clear h w :
  (∀ t id k, timers w !! h = Some t → cb t ≠ CbWave id k) →
  same_ripples w (with_timers (delete h) w).
Proof.
  intros Hh. apply same_ripples_ext; [done|]. simpl. intros h' t id k Ht Hcb.
  rewrite lookup_delete_ne; [done|]. intros ->. by eapply Hh.
Qed.

Lemma same_ripples_stop id w : wf w → same_ripples w (stop id w).
Proof.
  intros Hwf. split.
  - intros id' i'. apply same_ripples_instances_shrinks, shrinks_stop.
  - intros h t id' k _ Ht Hcb. rewrite stop_timers.
    destruct (storage w !! id) as [it|] eqn:Es; [|done].
    rewrite lookup_delete_ne; [done|]. intros Heq. rewrite <-Heq in Ht.
    pose proof (wf_active_cb w Hwf id it t Es Ht). congruence.
Qed.

Lemma same_ripples_purge_one w id : wf w → same_ripples w (purge_one w id).
Proof.
  intros Hwf. split.
  - intros id' i'. apply same_ripples_instances_shrinks, shrinks_purge_one.
  - intros h t id' k _ Ht Hcb. rewrite purge_one_timers by done.
    destruct (storage w !! id) as [it|] eqn:Es; [|done].
    rewrite bool_decide_eq_false_2; [done|]. intros [->|Hr].
    + pose proof (wf_active_cb w Hwf id it t Es Ht). congruence.
    + pose proof (wf_release_cb w Hwf id it h t Es Hr Ht). congruence.
Qed.

Lemma same_ripples_purge l : ∀ w, wf w → same_ripples w (foldl purge_one w l).
Proof.
  induction l as [|a l IH]; intros w Hwf; simpl; [apply same_ripples_refl|].
  eapply same_ripples_trans; [by apply same_ripples_purge_one|].
  by apply IH, wf_purge_one.
Qed.

Lemma same_ripples_start id w : wf w → same_ripples w (start id w).
Proof.
  intros Hwf. unfold start.
  eapply same_ripples_trans; [|apply same_ripples_purge].
  - destruct (negb _ && _); [by apply same_ripples_setState|apply same_ripples_refl].
  - destruct (negb _ && _); [by apply wf_setState|done].
Qed.

Lemma same_ripples_storage f w : same_ripples w (with_storage f w).
Proof. by apply same_ripples_ext. Qed.

Lemma ripples_expire_onDown id x y w :
  wf w → ripples_expire w → ripples_expire (onDown id x y w).
Proof.
  intros Hwf Hr. unfold onDown. destruct (st_platform id w); try done.
  unfold setTimeout. simpl.
  eapply same_ripples_expire; [|by apply same_ripples_setField].
  intros id' i' key xy. simpl. rewrite lookup_alter. case_decide; [subst id'|].
  - destruct (instances w !! id) as [i|] eqn:Ei; simpl; [|done].
    intros [= <-] Hm. destruct (mounted i) eqn:Hmi; [|simpl in Hm; congruence]. simpl.
    rewrite lookup_insert. case_decide; [subst key|].
    + intros _. exists (next_handle w), (mkTimer (now w + 225) (CbWave id (now w))).
      simpl. by rewrite lookup_insert_eq.
    + intros Hc. destruct (Hr id i key xy Ei Hmi Hc) as (h & t & Ht & Hcb).
      exists h, t. simpl. split; [|done]. rewrite lookup_insert_ne; [done|].
      pose proof (wf_timers_lt w Hwf h t Ht). lia.
  - intros Ei Hm Hc. destruct (Hr id' i' key xy Ei Hm Hc) as (h & t & Ht & Hcb).
    exists h, t. simpl. split; [|done]. rewrite lookup_insert_ne; [done|].
    pose proof (wf_timers_lt w Hwf h t Ht). lia.
Qed.

Lemma ripples_expire_onStart id touches x y w :
  wf w → ripples_expire w → ripples_expire (onStart id touches x y w).
Proof.
  intros Hwf Hr. unfold onStart. destruct (st_hasActive id w); [|done].
  destruct (more_touches_than 1 touches).
  { eapply same_ripples_expire; [done|]. by apply same_ripples_purge. }
  set (w1 := match st_platform id w with ANDROID => onDown id x y w | _ => w end).
  assert (Hwf1 : wf w1).
  { subst w1. destruct (st_platform id w); auto using wf_onDown. }
  assert (Hr1 : ripples_expire w1).
  { subst w1. destruct (st_platform id w); auto using ripples_expire_onDown. }
  eapply same_ripples_expire; [exact Hr1|].
  eapply same_ripples_trans; [by apply (same_ripples_setTimeout (CbStart id) ACTIVE_DELAY)|].
  apply same_ripples_storage.
Qed.

Lemma ripples_expire_onMove id sx sy w :
  wf w → ripples_expire w → ripples_expire (onMove id sx sy w).
Proof.
  intros Hwf Hr. unfold onMove. destruct (_ || _); [|done].
  eapply same_ripples_expire; [done|].
  eapply same_ripples_trans; [by apply (same_ripples_setField id (set_isSlide true))|].
  by apply same_ripples_stop, wf_setField.
Qed.

Lemma ripples_expire_onEnd id touches w :
  wf w → ripples_expire w → ripples_expire (onEnd id touches w).
Proof.
  intros Hwf Hr. eapply same_ripples_expire; [done|]. unfold onEnd.
  destruct (more_touches_than 0 touches).
  { eapply same_ripples_trans; [by apply (same_ripples_setField id (set_isSlide false))|].
    by apply same_ripples_stop, wf_setField. }
  eapply same_ripples_trans; [|by apply same_ripples_setField].
  destruct (st_active id w).
  - case_bool_decide; [by apply same_ripples_stop|].
    pose proof (same_ripples_setTimeout (CbStop id)
                  (st_delay id w - now w + st_tsnum id w) w Hwf) as Hs.
    unfold setTimeout, getStorage in *. simpl in *.
    destruct (storage w !! id); [|done].
    eapply same_ripples_trans; [exact Hs|apply same_ripples_storage].
  - destruct (negb (st_isSlide id w)); [|apply same_ripples_refl].
    pose proof (wf_start id w Hwf) as Hwf1.
    eapply same_ripples_trans; [by apply same_ripples_start|].
    set (w1 := start id w) in *.
    pose proof (wf_setTimeout (CbStop id) (st_delay id w1) w1 Hwf1) as Hwf2.
    pose proof (same_ripples_setTimeout (CbStop id) (st_delay id w1) w1 Hwf1) as Hs.
    unfold setTimeout, getStorage in *. simpl in *.
    eapply same_ripples_trans; [exact Hs|].
    destruct (storage w1 !! id) as [store|] eqn:Es.
    + eapply same_ripples_trans; [|apply same_ripples_storage].
      apply (same_ripples_clear (activeTimeout store)). intros t id' k Ht Hcb.
      pose proof (wf_active_cb _ Hwf2 id store t Es Ht). congruence.
    + by apply same_ripples_setField.
Qed.

Lemma ripples_expire_componentWillUnmount id w :
  wf w → ripples_expire w → ripples_expire (componentWillUnmount id w).
Proof.
  intros Hwf Hr. eapply same_ripples_expire; [done|]. unfold componentWillUnmount.
  set (w1 := match storage w !! id with Some _ => _ | None => w end).
  assert (Hi1 : instances w1 = instances w).
  { subst w1. destruct (storage w !! id) as [it|]; [|done]. by destruct (timeout it). }
  assert (Ht1 : ∀ h t id' k, timers w !! h = Some t → cb t = CbWave id' k →
                              timers w1 !! h = Some t).
  { intros h t id' k Ht Hcb. subst w1.
    destruct (storage w !! id) as [it|] eqn:Es; [|done]. simpl.
    assert (activeTimeout it ≠ h).
    { intros <-. pose proof (wf_active_cb w Hwf id it t Es Ht). congruence. }
    destruct (timeout it) as [hr|] eqn:Er; simpl;
      rewrite lookup_delete_ne by done; [|done].
    rewrite lookup_delete_ne; [done|]. intros <-.
    pose proof (wf_release_cb w Hwf id it hr t Es Er Ht). congruence. }
  split.
  - intros id' i'. simpl. rewrite lookup_alter.
    assert (Hi2 : instances (clearTimeout (read wavesTimeout None id w1) w1)
                  = instances w).
    { by destruct (read wavesTimeout None id w1). }
    rewrite Hi2. case_decide; [subst|by eauto].
    destruct (instances w !! id') as [i|]; simpl; [|done]. by intros [= <-].
  - intros h t id' k Hm Ht Hcb. simpl.
    assert (Hne : id' ≠ id).
    { intros ->. unfold is_mounted, read, setField in Hm. simpl in Hm.
      rewrite lookup_alter_eq in Hm.
      by destruct (instances (clearTimeout _ w1) !! id). }
    specialize (Ht1 h t id' k Ht Hcb).
    destruct (read wavesTimeout None id w1) as [hw|] eqn:Ew; [|done]. simpl.
    rewrite lookup_delete_ne; [done|]. intros ->.
    unfold read in Ew. rewrite Hi1 in Ew.
    destruct (instances w !! id) as [i|] eqn:Ei; [|done]. simpl in Ew.
    destruct (wf_waves_cb w Hwf id i h t Ei Ew Ht) as [k' Hk]. congruence.
Qed.

Lemma ripples_expire_fire h w : wf w → ripples_expire w → ripples_expire (fire h w).
Proof.
  intros Hwf Hr. unfold fire. destruct (timers w !! h) as [t|] eqn:Ht; [|done].
  case_bool_decide; [|done].
  pose proof (wf_clearTimeout (Some h) w Hwf) as Hwf1. simpl in Hwf1.
  destruct (cb t) as [id|id|id k] eqn:Hcb; simpl.
  - eapply same_ripples_expire; [done|].
    eapply same_ripples_trans; [|by apply same_ripples_start].
    apply same_ripples_clear. intros t' id' k' Ht'. congruence.
  - eapply same_ripples_expire; [done|].
    eapply same_ripples_trans; [|by apply same_ripples_stop].
    apply same_ripples_clear. intros t' id' k' Ht'. congruence.
  - intros id' i' key xy. simpl. rewrite lookup_alter. intros Ei' Hm Hc.
    assert (∃ i, instances w !! id' = Some i ∧ mounted i = true ∧
                 clicks (state i) !! key = Some xy ∧ (id', key) ≠ (id, k))
      as (i & Ei & Hmi & Hci & Hne).
    { case_decide; [subst id'|].
      - destruct (instances w !! id) as [i|]; simplify_eq/=.
        destruct (mounted i) eqn:Hmi; [|congruence]. simpl in Hc.
        apply lookup_delete_Some in Hc as [? ?]. exists i. repeat split; congruence.
      - exists i'. repeat split; congruence. }
    destruct (Hr id' i key xy Ei Hmi Hci) as (h' & t' & Ht' & Hcb').
    exists h', t'. split; [|done]. simpl. rewrite lookup_delete_ne; [done|].
    intros ->. congruence.
Qed.

Lemma ripples_expire_step w e : wf w → ripples_expire w → ripples_expire (step w e).
Proof.
  intros Hwf Hr. destruct e; simpl; unfold when_mounted.
  - destruct (instances w !! id) eqn:Ei; [done|].
    intros id' i' key xy. simpl. rewrite lookup_insert. case_decide; [subst|apply Hr].
    intros [= <-] _. simpl. by rewrite lookup_empty.
  - destruct (is_mounted id w); auto using ripples_expire_componentWillUnmount.
  - destruct (is_mounted id w); auto using ripples_expire_onStart.
  - destruct (is_mounted id w); auto using ripples_expire_onMove.
  - destruct (is_mounted id w); auto using ripples_expire_onEnd.
  - by apply ripples_expire_fire.
  - exact Hr.
  - eapply same_ripples_expire; [done|]. by apply same_ripples_setState.
  - destruct (is_mounted id w); [|done].
    eapply same_ripples_expire; [done|]. by apply same_ripples_setState.
  - destruct (is_mounted id w); [|done].
    eapply same_ripples_expire; [done|]. by apply same_ripples_setState.
Qed.

(** X17.  No ripple is left behind: in every reachable world each ripple
    in the [clicks] of a mounted instance has a pending timer that will
    remove it. *)
Theorem ripples_always_expire
    (tr : list Event) (id : InstanceId) (i : Instance) (key : Z) (xy : Z * Z) :
  let w := run tr init in
  instances w !! id = Some i → mounted i = true →
  clicks (state i) !! key = Some xy →
  ∃ h t, timers w !! h = Some t ∧ cb t = CbWave id key.
Proof.
  intros w. subst w.
  enough (Hr : ripples_expire (run tr init)) by apply Hr.
  enough (Hgen : ∀ w, wf w → ripples_expire w → ripples_expire (run tr w)).
  { apply Hgen; [apply wf_init|]. intros id' i' k' xy' Hi. simpl in Hi.
    by rewrite lookup_empty in Hi. }
  induction tr as [|e tr IH]; intros w Hwf Hr; simpl; [done|].
  apply IH; [by apply wf_step|by apply ripples_expire_step].
Qed.

Lemma ripples_always_expire_witness :
  let w := run [Mount "a" (mkProps ANDROID 600 true true);
                GestureStart "a" None 3 4; Elapse 100] init in
  ∃ i h t, instances w !! "a" = Some i ∧ clicks (state i) !! 0 = Some (3, 4) ∧
           timers w !! h = Some t ∧ cb t = CbWave "a" 0.
Proof.
  intros w.
  destruct (instances w !! "a") as [i|] eqn:Ei; [|by vm_compute in Ei].
  assert (Hi : i = mkInst (mkProps ANDROID 600 true true)
                     (mkState {[0 := (3, 4)]} false false None true true)
                     false None (Some 0%nat) true).
  { vm_compute in Ei. by injection Ei as <-. }
  destruct (ripples_always_expire
              [Mount "a" (mkProps ANDROID 600 true true);
               GestureStart "a" None 3 4; Elapse 100] "a" i 0 (3, 4) Ei)
    as (h & t & Ht & Hcb); [by rewrite Hi..|].
  exists i, h, t. repeat split; [by rewrite Hi|done..].
Defined.

(** * The flags of [render] *)

(** X18.  Unless a mode is itself named "Tappable--active" or
    "Tappable--inactive", the flag "Tappable--active" is [hasActive &&
    active] and "Tappable--inactive" is [!active]: never both; and an
    instance whose [active] is still set while [hasActive] is off has
    neither. *)
Theorem flags_active_inactive (l : Render.Look) :
  Render.hoverMode l ∉ ["Tappable--active"; "Tappable--inactive"] →
  Render.activeMode l ∉ ["Tappable--active"; "Tappable--inactive"] →
  Render.flags l !! "Tappable--active"
    = Some (Render.st_hasActive l && Render.st_active l) ∧
  Render.flags l !! "Tappable--inactive" = Some (negb (Render.st_active l)) ∧
  ¬ (Render.flags l !! "Tappable--active" = Some true ∧
     Render.flags l !! "Tappable--inactive" = Some true).
Proof.
  intros Hh Ha.
  assert (Hh1 : Render.hoverMode l ≠ "Tappable--active")
    by (intros E; apply Hh; rewrite E; by left).
  assert (Hh2 : Render.hoverMode l ≠ "Tappable--inactive")
    by (intros E; apply Hh; rewrite E; right; by left).
  assert (Ha1 : Render.activeMode l ≠ "Tappable--active")
    by (intros E; apply Ha; rewrite E; by left).
  assert (Ha2 : Render.activeMode l ≠ "Tappable--inactive")
    by (intros E; apply Ha; rewrite E; right; by left).
  assert (H1 : Render.flags l !! "Tappable--active"
               = Some (Render.st_hasActive l && Render.st_active l)).
  { unfold Render.flags, Render.object_of, Render.bindings. simpl.
    rewrite lookup_insert_ne by done. rewrite lookup_insert_ne by done.
    rewrite lookup_insert_ne by discriminate. rewrite lookup_insert_ne by discriminate.
    rewrite lookup_insert_ne by discriminate. rewrite lookup_insert_ne by discriminate.
    by rewrite lookup_insert_eq. }
  assert (H2 : Render.flags l !! "Tappable--inactive"
               = Some (negb (Render.st_active l))).
  { unfold Render.flags, Render.object_of, Render.bindings. simpl.
    rewrite lookup_insert_ne by done. rewrite lookup_insert_ne by done.
    rewrite lookup_insert_ne by discriminate. rewrite lookup_insert_ne by discriminate.
    rewrite lookup_insert_ne by discriminate.
    by rewrite lookup_insert_eq. }
  split; [done|]. split; [done|]. rewrite H1, H2.
  intros [[= E1] [= E2]]. destruct (Render.st_active l); [done|].
  by rewrite andb_false_r in E1.
Qed.

Lemma flags_active_inactive_witness :
  let l := Render.mkLook false "background" "background" "outline" false
             false true false false in
  Render.flags l !! "Tappable--active" = Some false ∧
  Render.flags l !! "Tappable--inactive" = Some false.
Proof.
  intros l.
  assert (Hn : "background" ∉ ["Tappable--active"; "Tappable--inactive"]).
  { apply (bool_decide_unpack _). by vm_compute. }
  destruct (flags_active_inactive l Hn Hn) as (H1 & H2 & _).
  exact (conj H1 H2).
Defined.

(** X19.  The class named by [activeMode] is decided by the last property
    of the object alone.  When [hoverMode] names the same class, hovering
    does not switch it on: the flag of that class is
    [hasActive && active && !preset], whatever [hovered] is; with different
    names the class of [hoverMode] follows the hover. *)
Theorem flags_custom_modes (l : Render.Look) :
  let on_active := Render.st_hasActive l && Render.st_active l
                   && negb (Render.isPresetMode (Render.activeMode l)) in
  let on_hover := Render.st_hasHover l && Render.st_hovered l
                  && negb (Render.isPresetMode (Render.hoverMode l)) in
  Render.flags l !! Render.activeMode l = Some on_active ∧
  (Render.hoverMode l = Render.activeMode l →
   Render.flags l !! Render.hoverMode l = Some on_active) ∧
  (Render.hoverMode l ≠ Render.activeMode l →
   Render.flags l !! Render.hoverMode l = Some on_hover).
Proof.
  intros on_active on_hover. unfold Render.flags, Render.object_of, Render.bindings.
  simpl. split; [apply lookup_insert_eq|]. split.
  - intros ->. apply lookup_insert_eq.
  - intros Hne. rewrite lookup_insert_ne by done. apply lookup_insert_eq.
Qed.

Lemma flags_custom_modes_witness :
  let l := Render.mkLook false "lit" "lit" "outline" false true false true true in
  Render.flags l !! "lit" = Some false.
Proof.
  intros l. exact (proj1 (proj2 (flags_custom_modes l)) eq_refl).
Defined.

(** X20.  Wherever [render] installs [this.onKeyDown] the element is given
    a [tabIndex]: the caller's, else 0.  A [tabIndex] of the caller is
    never replaced. *)
Theorem interceptor_has_tabIndex (p : Keyboard.KeyProps) (given : option Z) :
  (Keyboard.intercepts p = true → Render.tabIndex p given = Some (default 0 given)) ∧
  (∀ t, given = Some t → Render.tabIndex p given = Some t).
Proof.
  unfold Keyboard.intercepts, Render.tabIndex. split.
  - intros (Hfocus & _)%andb_true_iff. by rewrite Hfocus.
  - intros t ->. by destruct (_ && _).
Qed.

Lemma interceptor_has_tabIndex_witness :
  let p := Keyboard.mkKeyProps (Keyboard.Tag "div") (Some "button") false false false in
  Keyboard.intercepts p = true ∧ Render.tabIndex p None = Some 0.
Proof.
  intros p. split; [reflexivity|].
  exact (proj1 (interceptor_has_tabIndex p None) eq_refl).
Defined.

(** * Nested instances *)

Lemma with_state_id (f : TappableState → TappableState) (i : Instance) :
  f (state i) = state i → with_state f i = i.
Proof. intros E. unfold with_state. rewrite E. by destruct i. Qed.

(** X21.  The pointer entering and then leaving an enabled child puts the
    world back as it was, provided the child was not hovered before and
    the effects of the parent were those of its props; while the pointer
    is inside, the parent has both effects off and the child is hovered. *)
Theorem hover_round_trip (w : World) (parent child : InstanceId) (p c : Instance) :
  parent ≠ child →
  instances w !! parent = Some p → instances w !! child = Some c →
  mounted p = true → mounted c = true →
  hasHover (state p) = props_hasHover (props p) →
  hasActive (state p) = props_hasActive (props p) →
  hovered (state c) = false →
  let w1 := Nested.touch_onEnter false (Some parent) child w in
  st_hasActive parent w1 = false ∧
  read (λ i, hasHover (state i)) false parent w1 = false ∧
  read (λ i, hovered (state i)) false child w1 = true ∧
  Nested.touch_onLeave false (Some parent) child w1 = w.
Proof.
  intros Hne Ep Ec Hmp Hmc Hh Ha Hv w1. subst w1.
  unfold Nested.touch_onEnter, Nested.touch_onLeave, Nested.context_onEnter,
    Nested.context_onLeave. simpl.
  split; [|split; [|split]].
  - unfold st_hasActive, read, setState. simpl.
    rewrite lookup_alter_ne, lookup_alter_eq, Ep by done. simpl. by rewrite Hmp.
  - unfold read, setState. simpl.
    rewrite lookup_alter_ne, lookup_alter_eq, Ep by done. simpl. by rewrite Hmp.
  - unfold read, setState. simpl.
    rewrite lookup_alter_eq, lookup_alter_ne, Ec by done. simpl. by rewrite Hmc.
  - apply world_eq; try done. simpl. apply map_eq. intros j.
    unfold read, setState. simpl.
    rewrite (lookup_alter_ne _ _ child parent) by done.
    rewrite lookup_alter_eq, Ep. simpl. rewrite Hmp. simpl.
    destruct (decide (j = child)) as [->|Hjc].
    + rewrite lookup_alter_eq, lookup_alter_ne, lookup_alter_eq, lookup_alter_ne, Ec
        by done.
      simpl. rewrite Hmc. simpl. rewrite Hmc. f_equal.
      destruct c as [pc [] ? ? ? ?]. simpl in *. by subst.
    + rewrite lookup_alter_ne by done.
      destruct (decide (j = parent)) as [->|Hjp].
      * rewrite lookup_alter_eq, lookup_alter_ne, lookup_alter_eq, Ep by done.
        simpl. rewrite Hmp. simpl. rewrite Hmp. f_equal.
        destruct p as [pp [] ? ? ? ?]. simpl in *. by subst.
      * by rewrite !lookup_alter_ne by done.
Qed.

Lemma hover_round_trip_witness :
  let w := run mount_ab init in
  let w1 := Nested.touch_onEnter false (Some "a") "b" w in
  st_hasActive "a" w = true ∧ st_hasActive "a" w1 = false ∧
  Nested.touch_onLeave false (Some "a") "b" w1 = w.
Proof.
  intros w w1.
  destruct (hover_round_trip w "a" "b" (construct defaultProps) (construct defaultProps)
              ltac:(done) eq_refl eq_refl eq_refl eq_refl eq_refl eq_refl eq_refl)
    as (H1 & _ & _ & H4).
  exact (conj eq_refl (conj H1 H4)).
Defined.

(** X22.  A release reaches an instance whose activation is switched off
    (say, a parent while the pointer is over its child): with no contact
    point left, the instance neither active nor sliding, [onEnd] leaves it
    inactive, yet removes the entry of every other instance, cancels the
    activation timer of each and switches its owner off, and schedules
    [this.stop] of the released instance with the delay
    [activeEffectDelay]. *)
Theorem release_with_activation_off (tr : list Event) (id : InstanceId) :
  let w := run tr init in
  st_hasActive id w = false →
  st_active id w = false →
  st_isSlide id w = false →
  let w' := onEnd id None w in
  isActive id w' = false ∧
  (∀ id', id' ≠ id → storage w' !! id' = None) ∧
  (∀ id' it, id' ≠ id → storage w !! id' = Some it →
     timers w' !! activeTimeout it = None ∧ isActive id' w' = false) ∧
  timers w' !! next_handle w
    = Some (mkTimer (now w + timeout_ms (st_delay id w)) (CbStop id)).
Proof.
  intros w Hh Ha Hsl w'. subst w'.
  assert (Hwf : wf w) by apply wf_reachable.
  unfold onEnd. simpl. rewrite Ha, Hsl. simpl.
  assert (Hst : start id w = deactivateOtherInstances (Some id) w).
  { unfold start. by rewrite Ha, Hh. }
  pose proof (start_storage id w id Hwf) as Es1. rewrite decide_True in Es1 by done.
  pose proof (start_next_handle id w) as Hn1.
  pose proof (start_now id w) as Hnow1.
  assert (Hd : st_delay id (start id w) = st_delay id w) by (by apply start_read).
  assert (Hoff : isActive id (start id w) = false).
  { rewrite Hst. unfold isActive, is_mounted, st_active, read.
    rewrite deactivate_excluded by done. unfold st_active, read in Ha.
    rewrite Ha. apply andb_false_r. }
  assert (Hothers : ∀ id' it, id' ≠ id → storage w !! id' = Some it →
            timers (start id w) !! activeTimeout it = None ∧
            isActive id' (start id w) = false).
  { intros id' it Hne Es. rewrite Hst.
    destruct (deactivate_cancels (Some id) w id' it Hwf) as (H1 & _ & H3);
      [congruence|done|done]. }
  assert (Hgone : ∀ id', id' ≠ id → storage (start id w) !! id' = None).
  { intros id' Hne. rewrite start_storage by done. by rewrite decide_False. }
  set (w1 := start id w) in *.
  unfold setTimeout, getStorage. simpl. rewrite Es1.
  destruct (storage w !! id) as [own|] eqn:Eown.
  - pose proof (wf_active_lt w Hwf id own Eown) as Hlt.
    split; [|split; [|split]].
    + rewrite isActive_setField_isSlide. exact Hoff.
    + intros id' Hne. simpl. rewrite lookup_insert_ne by done. by apply Hgone.
    + intros id' it Hne Es. destruct (Hothers id' it Hne Es) as [Ht Hi].
      pose proof (wf_active_lt w Hwf id' it Es) as Hlt'.
      split; [|by rewrite isActive_setField_isSlide].
      simpl. destruct (decide (activeTimeout own = activeTimeout it)) as [->|Hx].
      * apply lookup_delete_eq.
      * rewrite lookup_delete_ne by done. rewrite lookup_insert_ne by lia. exact Ht.
    + simpl. rewrite lookup_delete_ne by lia. rewrite Hn1, lookup_insert_eq.
      by rewrite Hnow1, Hd.
  - split; [|split; [|split]].
    + rewrite isActive_setField_isSlide. unfold isActive, is_mounted, st_active.
      rewrite !read_setField by done. exact Hoff.
    + intros id' Hne. simpl. by apply Hgone.
    + intros id' it Hne Es. destruct (Hothers id' it Hne Es) as [Ht Hi].
      pose proof (wf_active_lt w Hwf id' it Es) as Hlt'.
      split.
      * simpl. rewrite lookup_insert_ne by lia. exact Ht.
      * rewrite isActive_setField_isSlide. unfold isActive, is_mounted, st_active.
        rewrite !read_setField by done. exact Hi.
    + simpl. rewrite Hn1, lookup_insert_eq. by rewrite Hnow1, Hd.
Qed.

Lemma release_with_activation_off_witness :
  let w := run (mount_ab ++ [SetCapabilities "a" false false] ++ tap "b" 10) init in
  let w' := onEnd "a" None w in
  isActive "b" w = true ∧ storage w !! "b" = Some (mkItem 0 (Some 1%nat) "b") ∧
  isActive "a" w' = false ∧ isActive "b" w' = false ∧ storage w' !! "b" = None ∧
  timers w' !! 2%nat = Some (mkTimer 610 (CbStop "a")).
Proof.
  intros w w'.
  destruct (release_with_activation_off
              (mount_ab ++ [SetCapabilities "a" false false] ++ tap "b" 10) "a"
              eq_refl eq_refl eq_refl) as (H1 & H2 & H3 & H4).
  destruct (H3 "b" (mkItem 0 (Some 1%nat) "b") ltac:(done) eq_refl) as [_ Hb].
  exact (conj eq_refl (conj eq_refl (conj H1 (conj Hb (conj (H2 "b" ltac:(done)) H4))))).
Defined.

(** * AppRoot *)

Section AppRootFacts.
Import AppRoot AppRootEffects.

Lemma classList_add_lookup n cs d n' :
  classList (classList_add n cs d) n'
  = if decide (n' = n) then classList d n' ∪ list_to_set cs else classList d n'.
Proof. done. Qed.

Lemma classList_remove_lookup n cs d n' :
  classList (classList_remove n cs d) n'
  = if decide (n' = n) then classList d n' ∖ list_to_set cs else classList d n'.
Proof. done. Qed.

(** Equations between class lists built from unions and differences of
    the classes of AppRoot, by membership. *)
Ltac class_sets :=
  simpl; repeat case_bool_decide; repeat case_decide; subst; simpl;
  apply set_eq; intros ?x;
  repeat (rewrite ?elem_of_union, ?elem_of_difference, ?elem_of_list_to_set,
            ?elem_of_cons, ?elem_of_nil, ?elem_of_singleton, ?elem_of_empty);
  split; intros ?Hx; destruct_and?; destruct_or?; subst; try done;
  repeat match goal with
         | |- _ ∧ _ => split
         | |- ¬ _ => intros ?Hn; destruct_or?; subst; try done
         end; try tauto;
  try (left; split; [tauto|]; intros ?Hn; destruct_or?; subst; tauto).

Lemma approot_inv_mount window parent d0 p :
  clean parent d0 → approot_inv window parent d0 (mount window parent p d0).
Proof.
  intros [Hv Hr He Hsp Hsb Hc].
  unfold approot_inv, mount, render, effect_portal, effect_root, effect_size,
    before_mount, managed_root, managed_size, root_classes. simpl.
  destruct window, (mode p) eqn:Em, (bool_decide (sizeX p ≠ Some REGULAR)) eqn:Es;
    simpl;
    (split; [intros n; class_sets|]);
    (split; [by rewrite ?app_nil_r|]); (split; [congruence|]); (split; [done|]);
    (split; [first [by left|right; by exists Embedded|right; by exists Full]|]); auto.
Qed.

(** The size class is none of the root classes. *)
Lemma size_class_not_root window parent d0 rc n :
  clean parent d0 →
  (rc = None ∨ ∃ m, rc = Some (parent, root_classes m, m) ∧ m ≠ Partial) →
  n = parent ∨ n = Body →
  "vkui--sizeX-regular" ∉ classList d0 n ∪ managed_root window rc n.
Proof.
  intros [Hv Hr He Hsp Hsb Hc] Hrc Hn.
  assert (Hb : "vkui--sizeX-regular" ∉ classList d0 n) by (by destruct Hn as [->| ->]).
  rewrite elem_of_union. intros [?|Hx]; [done|].
  destruct Hrc as [->|(m & -> & _)]; simpl in Hx; [by apply elem_of_empty in Hx|].
  apply elem_of_union in Hx as [Hx|Hx].
  - case_decide; [|by apply elem_of_empty in Hx].
    unfold root_classes in Hx. destruct m; simpl in Hx;
      repeat (rewrite ?elem_of_union, ?elem_of_singleton, ?elem_of_empty in Hx);
      destruct_or?; done.
  - destruct (_ && _); [by apply elem_of_singleton in Hx|by apply elem_of_empty in Hx].
Qed.

(** The adaptivity handler, cleaned up and run again. *)
Lemma size_effect_rerun (B : Node → gset string) parent sc p h d :
  "vkui--sizeX-regular" ∉ B parent → "vkui--sizeX-regular" ∉ B Body →
  size_cleanup h = sc →
  (sc = None ∨ sc = Some parent ∨ sc = Some Body) →
  (∀ n, classList d n = B n ∪ managed_size sc n) →
  let s' := effect_size parent p (cleanup_size (h, d)) in
  (∀ n, classList s'.2 n = B n ∪ managed_size (size_cleanup s'.1) n) ∧
  (size_cleanup s'.1 = None ∨ size_cleanup s'.1 = Some parent
   ∨ size_cleanup s'.1 = Some Body) ∧
  body_children s'.2 = body_children d ∧
  portal_cleanup s'.1 = portal_cleanup h ∧ root_cleanup s'.1 = root_cleanup h ∧
  initialized s'.1 = initialized h.
Proof.
  intros Hp Hb Hsc Hcases Hcl. unfold cleanup_size, effect_size, managed_size in *.
  rewrite Hsc.
  destruct (bool_decide (mode p = Partial) || bool_decide (sizeX p ≠ Some REGULAR));
    [|destruct (bool_decide (mode p = Embedded))];
    destruct Hcases as [->|[->| ->]]; simpl;
    (split; [intros n; rewrite ?classList_add_lookup, ?classList_remove_lookup, ?Hcl;
             class_sets|auto 10]).
Qed.

Lemma approot_inv_update window parent d0 s p :
  clean parent d0 →
  approot_inv window parent d0 s → approot_inv window parent d0 (update window parent s p).
Proof.
  intros Hclean. destruct s as [h d].
  intros (Hcl & Hb & Hp & Hi & Hroot & Hsize). simpl in *.
  unfold update, render. simpl. rewrite Hi. simpl.
  destruct (decide (sizeX p = size_deps h)) as [|Hne]; [by unfold approot_inv|].
  destruct (size_effect_rerun
              (λ n, classList d0 n ∪ managed_root window (root_cleanup h) n)
              parent (size_cleanup h) p h d)
    as (Hcl' & Hsize' & Hb' & Hp' & Hr' & Hi'); [..|done| |].
  - apply (size_class_not_root window parent d0); [done|done|by left].
  - apply (size_class_not_root window parent d0); [done|done|by right].
  - done.
  - done.
  - change (approot_inv window parent d0 (effect_size parent p (cleanup_size (h, d)))).
    split; [intros n; by rewrite Hr'|]. split; [by rewrite Hb', Hp'|].
    split; [by rewrite Hp'|]. split; [by rewrite Hi'|]. split; [by rewrite Hr'|done].
Qed.

Lemma approot_inv_run window parent d0 ps : ∀ s,
  clean parent d0 →
  approot_inv window parent d0 s →
  approot_inv window parent d0 (foldl (update window parent) s ps).
Proof.
  induction ps as [|p ps IH]; intros s Hc Hs; simpl; [done|].
  apply IH; [done|]. by apply approot_inv_update.
Qed.

Lemma filter_fresh (l : list (nat * gset string)) (i : nat) :
  (∀ c, c ∈ l → (c.1 < i)%nat) → filter (λ c, c.1 ≠ i) l = l.
Proof.
  induction l as [|c l IH]; intros Hl; [done|].
  rewrite filter_cons_True.
  - f_equal. apply IH. intros c' Hc'. apply Hl. by right.
  - pose proof (Hl c ltac:(by left)). lia.
Qed.

Lemma approot_inv_unmount window parent d0 s :
  clean parent d0 →
  approot_inv window parent d0 s →
  (∀ n, classList (unmount s).2 n = classList d0 n) ∧
  body_children (unmount s).2 = body_children d0.
Proof.
  intros [Hv Hr He Hsp Hsb Hc]. destruct s as [h d].
  intros (Hcl & Hb & Hp & Hi & Hroot & Hsize). simpl in *.
  unfold unmount, cleanup_size, cleanup_root, cleanup_portal.
  destruct h as [ini pc rc sdeps sc]. simpl in *.
  split.
  - destruct window; destruct Hroot as [->|(m & -> & Hm)]; try (destruct m; try done);
      destruct Hsize as [->|[->| ->]]; destruct pc as [i|]; simpl;
      intros n; rewrite ?classList_add_lookup, ?classList_remove_lookup, ?Hcl;
      unfold managed_root, managed_size, root_classes; class_sets.
  - assert (Hch : body_children
                    (match pc with
                     | Some portal =>
                         (mkHooks ini pc rc sdeps sc,
                          mkDocument (classList d)
                            (filter (λ c, c.1 ≠ portal) (body_children d)) (created d))
                     | None => (mkHooks ini pc rc sdeps sc, d)
                     end).2 = body_children d0).
    { destruct pc as [i|]; simpl; rewrite Hb; simpl; [|by rewrite app_nil_r].
      rewrite (Hp i eq_refl), filter_app, filter_fresh by done.
      rewrite filter_cons_False by (simpl; intros ?; done). by rewrite app_nil_r. }
    destruct pc as [i|], rc as [[[par cs] m]|], sc; simpl in *;
      repeat case_bool_decide; simpl; done.
Qed.

Lemma size_inv_mount window parent p d0 :
  size_inv parent (mode p) p (mount window parent p d0).1.
Proof.
  unfold size_inv, mount, render, effect_portal, effect_root, effect_size. simpl.
  destruct (bool_decide (mode p = Full)), (bool_decide (mode p = Partial)); simpl;
    by destruct (bool_decide (sizeX p ≠ Some REGULAR)).
Qed.

Lemma size_inv_update window parent m q s p :
  initialized s.1 = true → mode p = m →
  size_inv parent m q s.1 → size_inv parent m p (update window parent s p).1.
Proof.
  destruct s as [h d]. simpl. intros Hi Hm [Hd Hc].
  unfold update, render. simpl. rewrite Hi. simpl.
  destruct (decide (sizeX p = size_deps h)) as [E|Hne]; simpl.
  - split; [done|]. rewrite Hc. by rewrite E, Hd.
  - unfold cleanup_size, effect_size, size_inv. subst m. clear Hc.
    by destruct (size_cleanup h);
      destruct (bool_decide (mode p = Partial) || bool_decide (sizeX p ≠ Some REGULAR)).
Qed.

Lemma update_initialized window parent s p :
  initialized s.1 = true → initialized (update window parent s p).1 = true.
Proof.
  destruct s as [h d]. simpl. intros Hi. unfold update, render. simpl. rewrite Hi. simpl.
  destruct (decide (sizeX p = size_deps h)); [done|].
  unfold cleanup_size, effect_size.
  by destruct (size_cleanup h);
    destruct (bool_decide (mode p = Partial) || bool_decide (sizeX p ≠ Some REGULAR)).
Qed.

Lemma last_cons_default {A} (l : list A) : ∀ a d, List.last (a :: l) d = List.last l a.
Proof.
  induction l as [|b l IH]; intros a d; [done|].
  change (List.last (b :: l) d = List.last (b :: l) a). by rewrite (IH b d), (IH b a).
Qed.

Lemma size_inv_run window parent m ps : ∀ q s,
  initialized s.1 = true →
  Forall (λ p, mode p = m) ps →
  size_inv parent m q s.1 →
  size_inv parent m (List.last ps q) (foldl (update window parent) s ps).1.
Proof.
  induction ps as [|p ps IH]; intros q s Hi Hall Hq; [done|].
  apply Forall_cons in Hall as [Hp Hall].
  rewrite last_cons_default. simpl foldl.
  apply IH; [by apply update_initialized|done|].
  by apply (size_inv_update window parent m q).
Qed.

Lemma some_document_clean n : clean (Element n) some_document.
Proof.
  split; simpl; try apply not_elem_of_empty.
  - rewrite elem_of_singleton. discriminate.
  - intros c Hc. apply list_elem_of_singleton in Hc as ->. simpl. lia.
Qed.

(** X23.  Mounted into a clean document, rendered again any number of
    times with any props, and unmounted, AppRoot leaves the document as it
    found it: every element has the classes it had, and [body] the
    children it had. *)
Theorem approot_round_trip window parent p ps d0 :
  clean parent d0 →
  let d' := life window parent p ps d0 in
  (∀ n, classList d' n = classList d0 n) ∧ body_children d' = body_children d0.
Proof.
  intros Hc d'. subst d'. unfold life.
  apply (approot_inv_unmount window parent); [done|].
  apply approot_inv_run; [done|]. by apply approot_inv_mount.
Qed.


End AppRootFacts.

Lemma approot_round_trip_witness :
  let d' := AppRootEffects.life true (AppRoot.Element 0)
              (AppRoot.mkProps None true (Some AppRoot.REGULAR))
              [AppRoot.mkProps None true (Some AppRoot.COMPACT);
               AppRoot.mkProps (Some AppRoot.Full) false (Some AppRoot.REGULAR)]
              AppRootEffects.some_document in
  (∀ n, AppRoot.classList d' n = AppRoot.classList AppRootEffects.some_document n) ∧
  AppRoot.body_children d' = [(0%nat, {["modal"]})].
Proof.
  intros d'.
  exact (approot_round_trip true (AppRoot.Element 0) _ _ AppRootEffects.some_document
           (some_document_clean 0)).
Defined.

